(** * Photon-mapping core of DigiImgSynthesis: shallow embedding and properties

    Sources embedded here:
    - [src/volumes/volumephotonmap.cpp]: [RadiancePhotonProcess], [kernel],
      [PhotonProcess], [ClosePhoton], [VolumePhotonMap::unsuccessful],
      [VolumePhotonMap::Surface_Init], [VolumePhotonMap::Surface_estimateE],
      [VolumePhotonMap::Surface_LPhoton], [VolumePhotonMap::RayMarch],
      [VolumePhotonMap::TraceThrough],
      [VolumePhotonMap::Surface_Preprocess] and, of
      [VolumePhotonMap::Surface_Li], the neighbour search and the specular
      recursion;
    - [src/lights/medianCutEnvironmentLight.cpp]: [InitSummedAreaTable],
      [CutCut], the two [Sample_L] and [Pdf].

    Conventions.
    - A C++ [float] is a rational ([Q]) and its arithmetic is exact, except
      where rounding or a zero divisor decides what the code does: the
      quotient of a division whose divisor may be zero need not be a number
      ([Quotient], [FSpectrum]); the float additions and products on which a
      loop, a table or an index depends are variables of their sections
      ([Fadd], [Fsub], [Fmul]), with [binary32] as the rounding of the
      examples; a conversion to [int] has no result outside the range of
      [int].  [INFINITY] is written out where the source uses it (a search
      radius is then an [option Q]).
    - Counters ([u_int], [int], [size_t]) are mathematical integers ([Z], or
      [nat] for list sizes); the conversions to [int] that the source
      performs on them are written out as [to_int].  The [StatsCounter]
      nshot is a function-local static: it belongs to the process, not to
      the object, and no initialisation resets it.
    - The scene, the lights, the scattering distributions, the medium and the
      random number generator are collaborators outside this repository.
      One execution is described by the answers they gave, recorded in a
      script ([Shot], [Segment], [TraceScript], [MediumStep], [March]); the
      embedded functions are deterministic in the script, and a statement
      quantified over all scripts covers every execution.
    - The heap algorithms of the C++ standard library enter by their
      contracts ([StlHeap]); the query of the kd-tree (kdtree.h) is not among
      the sources and is modelled from the specification.
    - Functions of pbrt and of the C library that have no rational
      counterpart ([Exp], [logf], [Log2], [Normalize]) and the members of
      headers that are not among the sources ([SummedAreaValue]) are
      variables of the sections that use them: what is proved holds
      whatever they compute. *)

From Stdlib Require Import List Bool Arith ZArith QArith Qabs Qminmax Qround Lia Lqa Permutation Sorted.
Import ListNotations.

Set Implicit Arguments.
Close Scope Q_scope.

(* ===================================================================== *)
(** ** Numbers, points and spectra *)
(* ===================================================================== *)

(** [a < b] on floats, as a boolean. *)
Definition Qltb (a b : Q) : bool := negb (Qle_bool b a).

(** pbrt's [Point], [Vector] and [Normal]: three float coordinates each. *)
Record V3 : Type := mkV3 { cx : Q; cy : Q; cz : Q }.
Definition Point := V3.
Definition Vector := V3.
Definition Normal := V3.

Definition Dot (a b : V3) : Q := (cx a * cx b + cy a * cy b + cz a * cz b)%Q.
Definition Neg (a : V3) : V3 := mkV3 (- cx a) (- cy a) (- cz a).
Definition DistanceSquared (a b : Point) : Q :=
  ((cx a - cx b) * (cx a - cx b) + (cy a - cy b) * (cy a - cy b)
   + (cz a - cz b) * (cz a - cz b))%Q.
Definition AbsDot (a b : V3) : Q := Qabs (Dot a b).

(** pbrt's [Spectrum]: [COLOR_SAMPLES = 3] float coefficients, with
    coefficient-wise arithmetic. *)
Record Spectrum : Type := mkSpectrum { c0 : Q; c1 : Q; c2 : Q }.

Definition Spectrum_of_float (v : Q) : Spectrum := mkSpectrum v v v.
Definition Sadd (a b : Spectrum) : Spectrum :=
  mkSpectrum (c0 a + c0 b) (c1 a + c1 b) (c2 a + c2 b).
Definition Smul (a b : Spectrum) : Spectrum :=
  mkSpectrum (c0 a * c0 b) (c1 a * c1 b) (c2 a * c2 b).
Definition Sscale (a : Spectrum) (f : Q) : Spectrum :=
  mkSpectrum (c0 a * f) (c1 a * f) (c2 a * f).
Definition Sdiv (a : Spectrum) (f : Q) : Spectrum :=
  mkSpectrum (c0 a / f) (c1 a / f) (c2 a / f).
(** [Spectrum::Black()]: every coefficient is zero. *)
Definition Black (a : Spectrum) : bool :=
  Qeq_bool (c0 a) 0 && Qeq_bool (c1 a) 0 && Qeq_bool (c2 a) 0.
(** [Spectrum::y()]: luminance, with pbrt's [YWeight] table. *)
Definition Sy (a : Spectrum) : Q :=
  (0.212671 * c0 a + 0.715160 * c1 a + 0.072169 * c2 a)%Q.

(** Equality of spectra up to the representation of their coefficients. *)
Definition Seq (a b : Spectrum) : Prop :=
  (c0 a == c0 b /\ c1 a == c1 b /\ c2 a == c2 b)%Q.

(** The result of a float division [a / b] (IEEE 754): a number when [b]
    is not zero, NaN for [0 / 0], and otherwise an infinity with the sign
    of [a] (a zero divisor is taken as the positive zero). *)
Inductive Quotient : Type :=
| Number (q : Q)
| PlusInfinity
| MinusInfinity
| NaN.

Definition float_div (a b : Q) : Quotient :=
  if Qeq_bool b 0 then
    if Qeq_bool a 0 then NaN
    else if Qltb 0 a then PlusInfinity else MinusInfinity
  else Number (a / b).

(** [x < u] for a number [u]; a comparison with NaN is false. *)
Definition Quotient_lt (x : Quotient) (u : Q) : bool :=
  match x with
  | Number q => Qltb q u
  | MinusInfinity => true
  | PlusInfinity | NaN => false
  end.

(** A spectrum that a float division has produced or gone into.  Dividing
    the three coefficients by zero leaves an infinity or NaN in each of
    them, and sums and products of such a spectrum with numbers are of that
    kind again: [NotFinite] stands for these spectra. *)
Inductive FSpectrum : Type :=
| Finite (s : Spectrum)
| NotFinite.

Definition FSdiv (a : Spectrum) (f : Q) : FSpectrum :=
  if Qeq_bool f 0 then NotFinite else Finite (Sdiv a f).
Definition FSadd (a b : FSpectrum) : FSpectrum :=
  match a, b with
  | Finite x, Finite y => Finite (Sadd x y)
  | _, _ => NotFinite
  end.
Definition FSscale (a : FSpectrum) (f : Q) : FSpectrum :=
  match a with
  | Finite x => Finite (Sscale x f)
  | NotFinite => NotFinite
  end.
Definition FSmul (a : FSpectrum) (b : Spectrum) : FSpectrum :=
  match a with
  | Finite x => Finite (Smul x b)
  | NotFinite => NotFinite
  end.

(** Equality of such spectra: of the same kind, and equal when numbers. *)
Definition FSeq (a b : FSpectrum) : Prop :=
  match a, b with
  | Finite x, Finite y => Seq x y
  | NotFinite, NotFinite => True
  | _, _ => False
  end.

(** The integer nearest to [q], the even one of two that are equally
    near. *)
Definition round_half_even (q : Q) : Z :=
  let f := Qfloor q in
  match (q - inject_Z f ?= 1 # 2)%Q with
  | Lt => f
  | Gt => (f + 1)%Z
  | Eq => if Z.even f then f else (f + 1)%Z
  end.

(** The exponent of a positive [q]: the greatest [e] with [2 ^ e <= q]. *)
Definition Qlog2 (q : Q) : Z :=
  let e := (Z.log2 (Qnum q) - Z.log2 (Z.pos (Qden q)))%Z in
  if Qle_bool (Qpower 2 e) q then e else (e - 1)%Z.

(** The [float] nearest to [q]: IEEE 754 binary32 with rounding to
    nearest, ties to even; 24 bits of precision, subnormal below the
    exponent -126.  The exponent is not bounded above: overflow is left
    out.  The float sum of two floats is [binary32 (a + b)], and likewise
    for the other operations. *)
Definition binary32 (q : Q) : Q :=
  let q := Qred q in
  if Qeq_bool q 0 then 0%Q
  else
    let e := Z.max (Qlog2 (Qabs q)) (-126) in
    let ulp := Qpower 2 (e - 23) in
    Qred (inject_Z (round_half_even (q / ulp)) * ulp).

(* ===================================================================== *)
(** ** Photons and the bounded neighbour collector *)
(* ===================================================================== *)

(** [struct Photon] (fields [p], [alpha], [wi]). *)
Record Photon : Type :=
  mkPhoton { ph_p : Point; ph_alpha : Spectrum; ph_wi : Vector }.

(** [struct RadiancePhoton] (fields [p], [n], [Lo]); the constructor
    [RadiancePhoton(pp, nn)] sets [Lo(0.f)]. *)
Record RadiancePhoton : Type :=
  mkRadiancePhoton { rp_p : Point; rp_n : Normal; Lo : FSpectrum }.
Definition RadiancePhoton_new (pp : Point) (nn : Normal) : RadiancePhoton :=
  mkRadiancePhoton pp nn (Finite (Spectrum_of_float 0)).

(** [ClosePhoton]: a pointer into the node array of the map (modelled by the
    index of the node) and the squared distance to the query point. *)
Record ClosePhoton : Type :=
  mkClosePhoton { photon : nat; distanceSquared : Q }.

(** [ClosePhoton::operator<]. *)
Definition ClosePhoton_lt (a b : ClosePhoton) : bool :=
  if Qeq_bool (distanceSquared a) (distanceSquared b)
  then (photon a <? photon b)%nat
  else Qltb (distanceSquared a) (distanceSquared b).

(** The heap property of [std::is_heap] over [operator<]: no element is
    greater than its parent, the parent of index [i] being [(i-1)/2]. *)
Definition is_heap (l : list ClosePhoton) : Prop :=
  forall i a b, (0 < i)%nat ->
    nth_error l ((i - 1) / 2) = Some a -> nth_error l i = Some b ->
    ClosePhoton_lt a b = false.

(** The three heap algorithms of the C++ standard library used by
    [PhotonProcess::operator()], by their contracts over a whole range:
    [make_heap] permutes any range into a heap; [pop_heap] takes a non-empty
    heap, moves its first (greatest) element to the last position and leaves
    a heap before it; [push_heap] takes a range whose elements but the last
    form a heap and permutes it into a heap. *)
Class StlHeap : Type := {
  make_heap : list ClosePhoton -> list ClosePhoton;
  pop_heap : list ClosePhoton -> list ClosePhoton;
  push_heap : list ClosePhoton -> list ClosePhoton;
  make_heap_perm : forall l, Permutation (make_heap l) l;
  make_heap_heap : forall l, is_heap (make_heap l);
  pop_heap_spec : forall x l, is_heap (x :: l) ->
    exists rest, pop_heap (x :: l) = rest ++ [x]
                 /\ Permutation rest l /\ is_heap rest;
  push_heap_perm : forall l x, is_heap l ->
    Permutation (push_heap (l ++ [x])) (l ++ [x]);
  push_heap_heap : forall l x, is_heap l -> is_heap (push_heap (l ++ [x]))
}.

(** [struct PhotonProcess]; [photons] holds the entries of the alloca'd array
    that have been written, the reference [p] is not used by the operator. *)
Record PhotonProcess : Type := mkPhotonProcess {
  photons : list ClosePhoton;
  nLookup : nat;
  foundPhotons : nat
}.

(** [PhotonProcess::PhotonProcess(mp, P)]. *)
Definition PhotonProcess_new (mp : nat) : PhotonProcess :=
  mkPhotonProcess [] mp 0.

(** [photons[0].distanceSquared]; the range is empty only for
    [nLookup = 0], where the source reads outside the array. *)
Definition front_distance (l : list ClosePhoton) (otherwise : Q) : Q :=
  match l with
  | c :: _ => distanceSquared c
  | [] => otherwise
  end.

Section Collector.
Context {heap : StlHeap}.

(** [PhotonProcess::operator()(photon, distSquared, maxDistSquared)]:
    returns the updated collector and the updated [maxDistSquared]. *)
Definition PhotonProcess_call (proc : PhotonProcess) (ph : nat)
    (distSquared : Q) (maxDistSquared : Q) : PhotonProcess * Q :=
  if (foundPhotons proc <? nLookup proc)%nat then
    (* photons[foundPhotons++] = ClosePhoton(&photon, distSquared) *)
    let arr := firstn (foundPhotons proc) (photons proc)
               ++ [mkClosePhoton ph distSquared] in
    let found := S (foundPhotons proc) in
    if (found =? nLookup proc)%nat then
      let h := make_heap (firstn (nLookup proc) arr) in
      (mkPhotonProcess h (nLookup proc) found, front_distance h maxDistSquared)
    else
      (mkPhotonProcess arr (nLookup proc) found, maxDistSquared)
  else
    let popped := pop_heap (firstn (nLookup proc) (photons proc)) in
    (* photons[nLookup-1] = ClosePhoton(&photon, distSquared) *)
    let arr := removelast popped ++ [mkClosePhoton ph distSquared] in
    let h := push_heap arr in
    (mkPhotonProcess h (nLookup proc) (foundPhotons proc),
     front_distance h maxDistSquared).

(** The collector fed with a sequence of candidates as they come, each
    carrying its squared distance. *)
Fixpoint feed (cs : list ClosePhoton) (proc : PhotonProcess) (md2 : Q)
  : PhotonProcess * Q :=
  match cs with
  | [] => (proc, md2)
  | c :: cs' =>
      let '(proc', md2') :=
        PhotonProcess_call proc (photon c) (distanceSquared c) md2 in
      feed cs' proc' md2'
  end.

(** Modelled from the spec: [KdTree::Lookup] (kdtree.h is not among the
    sources).  The query presents the nodes one at a time and runs the
    callback on a node only when its squared distance is below the current
    search radius, the radius being the one the callback last reported
    (4.3: the collector "evicts the farthest element for every closer
    candidate, shrinking the reported bound").  The order of the traversal
    is the order of the list. *)
Fixpoint Lookup_candidates (cs : list ClosePhoton) (proc : PhotonProcess)
    (md2 : Q) : PhotonProcess * Q :=
  match cs with
  | [] => (proc, md2)
  | c :: cs' =>
      if Qltb (distanceSquared c) md2 then
        let '(proc', md2') :=
          PhotonProcess_call proc (photon c) (distanceSquared c) md2 in
        Lookup_candidates cs' proc' md2'
      else Lookup_candidates cs' proc md2
  end.

End Collector.

(* ===================================================================== *)
(** ** Photon maps and their queries *)
(* ===================================================================== *)

(** [M_PI] of pbrt.h; [INV_PI] and [INV_TWOPI] are its exact reciprocals
    (pbrt.h gives them as rounded literals). *)
Definition M_PI : Q := 3.14159265358979323846.
Definition INV_PI : Q := 1 / M_PI.
Definition INV_TWOPI : Q := 1 / (2 * M_PI).

(** [KdTree<NodeData, LookupProc>]: the node data handed to the
    constructor; the arrangement of the nodes in the tree is left out. *)
Definition KdTree (NodeData : Type) : Type := list NodeData.
Definition KdTree_new {NodeData : Type} (data : list NodeData)
  : KdTree NodeData := data.

(** The candidates a query at [pt] meets: node [i] with its squared
    distance to [pt]. *)
Fixpoint candidates_from (i : nat) (nodes : list Photon) (pt : Point)
  : list ClosePhoton :=
  match nodes with
  | [] => []
  | nd :: rest =>
      mkClosePhoton i (DistanceSquared (ph_p nd) pt)
        :: candidates_from (S i) rest pt
  end.

(** [photons[i].photon->...]: the node a [ClosePhoton] points to. *)
Definition deref (map : KdTree Photon) (c : ClosePhoton) : Photon :=
  nth (photon c) map
      (mkPhoton (mkV3 0 0 0) (Spectrum_of_float 0) (mkV3 0 0 0)).

(** [kernel(photon, p, md2)]. *)
Definition kernel (ph : Photon) (pt : Point) (md2 : Q) : Q :=
  let s := (1 - DistanceSquared (ph_p ph) pt / md2)%Q in
  (3 / (md2 * M_PI) * s * s)%Q.

(** [struct RadiancePhotonProcess]: the query normal [n] and the pointer
    [photon] ([None] for [NULL], otherwise the index of the node). *)
Record RadiancePhotonProcess : Type := mkRadiancePhotonProcess {
  rpp_n : Normal;
  rpp_photon : option nat
}.

Definition RadiancePhotonProcess_new (nn : Normal) : RadiancePhotonProcess :=
  mkRadiancePhotonProcess nn None.

(** [RadiancePhotonProcess::operator()(rp, distSquared, maxDistSquared)];
    [ptr] is the address [&rp].  The search radius is [None] for
    [INFINITY]. *)
Definition RadiancePhotonProcess_call (proc : RadiancePhotonProcess)
    (ptr : nat) (rp : RadiancePhoton) (distSquared : Q)
    (maxDistSquared : option Q) : RadiancePhotonProcess * option Q :=
  if Qltb 0 (Dot (rp_n rp) (rpp_n proc)) then
    (mkRadiancePhotonProcess (rpp_n proc) (Some ptr), Some distSquared)
  else (proc, maxDistSquared).

(** [dist2 < maxDistSquared] for a radius that may be [INFINITY]. *)
Definition below (dist2 : Q) (maxDistSquared : option Q) : bool :=
  match maxDistSquared with
  | None => true
  | Some m => Qltb dist2 m
  end.

(** Modelled from the spec: [KdTree<RadiancePhoton,
    RadiancePhotonProcess>::Lookup] (kdtree.h is not among the sources), as
    [Lookup_candidates] above: a node is handed to the callback only when
    its squared distance is below the current search radius. *)
Fixpoint Lookup_Radiance_from (i : nat) (nodes : list RadiancePhoton)
    (pt : Point) (proc : RadiancePhotonProcess) (md2 : option Q)
  : RadiancePhotonProcess * option Q :=
  match nodes with
  | [] => (proc, md2)
  | rp :: rest =>
      let dist2 := DistanceSquared (rp_p rp) pt in
      if below dist2 md2 then
        let '(proc', md2') := RadiancePhotonProcess_call proc i rp dist2 md2 in
        Lookup_Radiance_from (S i) rest pt proc' md2'
      else Lookup_Radiance_from (S i) rest pt proc md2
  end.

Definition Lookup_Radiance (map : KdTree RadiancePhoton) (pt : Point)
    (proc : RadiancePhotonProcess) (md2 : option Q)
  : RadiancePhotonProcess * option Q :=
  Lookup_Radiance_from 0 map pt proc md2.

Section Estimate.
Context {heap : StlHeap}.

(** [KdTree<Photon, PhotonProcess>::Lookup(p, proc, md2)], through
    [Lookup_candidates]. *)
Definition Lookup (map : KdTree Photon) (pt : Point) (proc : PhotonProcess)
    (md2 : Q) : PhotonProcess * Q :=
  Lookup_candidates (candidates_from 0 map pt) proc md2.

(** The accumulation loop of [Surface_estimateE]:
    [if (Dot(n, photons[i].photon->wi) > 0.) E += photons[i].photon->alpha]. *)
Fixpoint accumulate_E (map : KdTree Photon) (n : Normal)
    (found : list ClosePhoton) (E : Spectrum) : Spectrum :=
  match found with
  | [] => E
  | c :: rest =>
      let ph := deref map c in
      accumulate_E map n rest
        (if Qltb 0 (Dot n (ph_wi ph)) then Sadd E (ph_alpha ph) else E)
  end.

(** [VolumePhotonMap::Surface_estimateE(map, count, p, n)], with the members
    [nLookup] and [maxDistSquared] it reads as the first two arguments.
    The divisor of line 180 is zero when [count] is, or when the lookup has
    shrunk [md2] to zero. *)
Definition Surface_estimateE (nLookup_ : nat) (maxDistSquared : Q)
    (map : option (KdTree Photon)) (count : Z) (pt : Point) (n : Normal)
  : FSpectrum :=
  match map with
  | None => Finite (Spectrum_of_float 0)
  | Some m =>
      let '(proc, md2) :=
        Lookup m pt (PhotonProcess_new nLookup_) maxDistSquared in
      let E := accumulate_E m n (firstn (foundPhotons proc) (photons proc))
                 (Spectrum_of_float 0) in
      FSdiv E (inject_Z count * md2 * M_PI)
  end.

End Estimate.

(* ===================================================================== *)
(** ** Photon shooting: [TraceThrough] and [Surface_Preprocess] *)
(* ===================================================================== *)

(** The members of [VolumePhotonMap] set by [Surface_Init] and
    [Volume_Init] and only read afterwards. *)
Record Config : Type := mkConfig {
  nCausticPhotons : nat;
  nIndirectPhotons : nat;
  nVolumePhotons : nat;
  cfg_nLookup : nat;            (* nLookup *)
  cfg_maxDistSquared : Q;       (* maxDistSquared *)
  finalGather : bool
}.

(** What [Surface_Preprocess] and [TraceThrough] read of the scene itself:
    [scene->lights.size()] and [scene->volumeRegion != NULL]. *)
Record Scene : Type := mkScene {
  nLights : nat;
  volumeRegion : bool
}.

(** A 32-bit unsigned or wider value converted to [int]. *)
Definition to_int (z : Z) : Z :=
  let m := (z mod 2 ^ 32)%Z in
  if (m <? 2 ^ 31)%Z then m else (m - 2 ^ 32)%Z.

(** One photon category (caustic, indirect or volume): its vector of
    photons ([causticPhotons], ...), its completion flag ([causticDone],
    ...), its normalisation constant ([nCausticPaths], ...) and its map
    ([causticMap], ...; [None] for [NULL]).  [st_built] is a record of every
    [new KdTree] executed for the category since the object was
    initialised: the path count assigned with it and the photons handed to
    the constructor. *)
Record PhotonStore : Type := mkPhotonStore {
  st_photons : list Photon;
  st_done : bool;
  st_paths : Z;
  st_map : option (KdTree Photon);
  st_built : list (Z * list Photon)
}.

(** The deposit into a category.  The source has this block three times
    with the names of the category changed: lines 514-522 (caustic),
    526-534 (indirect) and 385-393 (volume, in [TraceThrough]). *)
Definition deposit (target : nat) (shot : Z) (photon_ : Photon)
    (c : PhotonStore) : PhotonStore :=
  if negb (st_done c) then
    let v := st_photons c ++ [photon_] in
    if (length v =? target)%nat then
      mkPhotonStore v true shot (Some (KdTree_new v))
        (st_built c ++ [(shot, v)])
    else mkPhotonStore v (st_done c) (st_paths c) (st_map c) (st_built c)
  else c.

(** The mutable members of [VolumePhotonMap] together with the locals of
    [Surface_Preprocess].  [nshot] is the function-local static counter of
    line 425: it is constructed once, when the process first reaches its
    declaration, and keeps its value from one call to the next. *)
Record State : Type := mkState {
  alreadyPreprocessed : bool;
  caustic : PhotonStore;
  indirect : PhotonStore;
  volume : PhotonStore;
  directPhotons : list Photon;
  radiancePhotons : list RadiancePhoton;
  rpReflectances : list Spectrum;
  rpTransmittances : list Spectrum;
  radianceMap : option (KdTree RadiancePhoton);
  nshot : Z
}.

Definition set_alreadyPreprocessed (b : bool) (s : State) : State :=
  mkState b (caustic s) (indirect s) (volume s) (directPhotons s)
    (radiancePhotons s) (rpReflectances s) (rpTransmittances s)
    (radianceMap s) (nshot s).
Definition set_caustic (c : PhotonStore) (s : State) : State :=
  mkState (alreadyPreprocessed s) c (indirect s) (volume s) (directPhotons s)
    (radiancePhotons s) (rpReflectances s) (rpTransmittances s)
    (radianceMap s) (nshot s).
Definition set_indirect (c : PhotonStore) (s : State) : State :=
  mkState (alreadyPreprocessed s) (caustic s) c (volume s) (directPhotons s)
    (radiancePhotons s) (rpReflectances s) (rpTransmittances s)
    (radianceMap s) (nshot s).
Definition set_volume (c : PhotonStore) (s : State) : State :=
  mkState (alreadyPreprocessed s) (caustic s) (indirect s) c (directPhotons s)
    (radiancePhotons s) (rpReflectances s) (rpTransmittances s)
    (radianceMap s) (nshot s).
Definition set_directPhotons (v : list Photon) (s : State) : State :=
  mkState (alreadyPreprocessed s) (caustic s) (indirect s) (volume s) v
    (radiancePhotons s) (rpReflectances s) (rpTransmittances s)
    (radianceMap s) (nshot s).
Definition set_radiance (v : list RadiancePhoton) (r t : list Spectrum)
    (s : State) : State :=
  mkState (alreadyPreprocessed s) (caustic s) (indirect s) (volume s)
    (directPhotons s) v r t (radianceMap s) (nshot s).
Definition set_radianceMap (m : option (KdTree RadiancePhoton)) (s : State)
  : State :=
  mkState (alreadyPreprocessed s) (caustic s) (indirect s) (volume s)
    (directPhotons s) (radiancePhotons s) (rpReflectances s)
    (rpTransmittances s) m (nshot s).
Definition set_nshot (n : Z) (s : State) : State :=
  mkState (alreadyPreprocessed s) (caustic s) (indirect s) (volume s)
    (directPhotons s) (radiancePhotons s) (rpReflectances s)
    (rpTransmittances s) (radianceMap s) n.

(** [Ray] / [RayDifferential]: origin and direction; the parametric range
    only enters the answers of the collaborators. *)
Record Ray : Type := mkRay { o : Point; d : Vector }.

(** What a [BSDF] answers during shooting. *)
Record BSDF : Type := mkBSDF {
  NumComponents : nat;           (* NumComponents() *)
  NumComponents_specular : nat;  (* NumComponents(BSDF_REFLECTION |
                                    BSDF_TRANSMISSION | BSDF_SPECULAR) *)
  rho_reflection : Spectrum;     (* rho(BSDF_ALL_REFLECTION) *)
  rho_transmission : Spectrum;   (* rho(BSDF_ALL_TRANSMISSION) *)
  dgShading_nn : Normal;
  (* Sample_f(wo, &wi, u1, u2, u3, &pdf, BSDF_ALL, &flags): *)
  Sample_f_fr : Spectrum;        (* the value returned *)
  Sample_f_wi : Vector;
  Sample_f_pdf : Q;
  Sample_f_specular : bool       (* (flags & BSDF_SPECULAR) != 0 *)
}.

(** An [Intersection]: [dg.p], [dg.nn] and the result of [GetBSDF]. *)
Record Intersection : Type := mkIntersection {
  dg_p : Point;
  dg_nn : Normal;
  GetBSDF : BSDF
}.

(** What the marching loop of [RayMarch] (lines 332-353) leaves behind,
    and the two coefficients of the medium read after it. *)
Record March : Type := mkMarch {
  march_loc : Point;               (* loc *)
  march_transmittance : Spectrum;  (* transmittance *)
  march_interacted : bool;         (* t0 < t1 *)
  march_sigma_s : Spectrum;        (* vr->sigma_s(loc, marchRay.d) *)
  march_sigma_t : Spectrum         (* vr->sigma_t(loc, marchRay.d) *)
}.

(** The epilogue of [VolumePhotonMap::RayMarch] (lines 355-357): the
    value returned, [loc], the updated [alpha] and [albedo]. *)
Definition RayMarch (m : March) (alpha : Spectrum)
  : bool * Point * Spectrum * Quotient :=
  (march_interacted m,
   march_loc m,
   Smul alpha (march_transmittance m),
   float_div (Sy (march_sigma_s m)) (Sy (march_sigma_t m))).

(** One evaluation of the loop test of [TraceThrough] and, when the test
    holds, the draws of the body. *)
Record MediumStep : Type := mkMediumStep {
  ms_IntersectP : bool;    (* vr->IntersectP(marchRay, ...) *)
  ms_march : March;        (* RayMarch, called when IntersectP holds *)
  ms_RandomFloat : Q;      (* the draw compared with albedo *)
  ms_direction : Vector    (* Normalize(UniformSampleSphere(RandomFloat(),
                              RandomFloat())) *)
}.

(** The answers given during one call of [TraceThrough].  The loop test
    fails with [IntersectP] false when [tr_steps] is used up. *)
Record TraceScript : Type := mkTraceScript {
  tr_front : bool;                    (* marchRay.mint > ray.maxt *)
  tr_steps : list MediumStep;
  tr_Intersect : option Intersection  (* the final scene->Intersect *)
}.

(** The [while] loop of [TraceThrough] (lines 381-403).  The result is
    [(fellOut, marchRay, ray, alpha, volume store)]; [fellOut] is false when
    the body executed [return false].  The [scene->Intersect(ray, &isect)]
    of the body only refreshes [isect], which is overwritten or dropped
    before it is read again. *)
Fixpoint TraceThrough_loop (cfg : Config) (shot : Z)
    (steps : list MediumStep) (marchRay ray : Ray) (alpha : Spectrum)
    (vol : PhotonStore) : bool * Ray * Ray * Spectrum * PhotonStore :=
  match steps with
  | [] => (true, marchRay, ray, alpha, vol)
  | s :: rest =>
      if ms_IntersectP s then
        let '(interacted, loc, alpha1, albedo) :=
          RayMarch (ms_march s) alpha in
        if interacted then
          let vol1 :=
            deposit (nVolumePhotons cfg) shot
              (mkPhoton loc alpha1 (Neg (d marchRay))) vol in
          if Quotient_lt albedo (ms_RandomFloat s) then
            (false, marchRay, ray, alpha1, vol1)
          else
            let alpha2 := Sscale alpha1 (INV_TWOPI / 2) in
            let marchRay' := mkRay loc (ms_direction s) in
            TraceThrough_loop cfg shot rest marchRay' marchRay' alpha2 vol1
        else (true, marchRay, ray, alpha1, vol)
      else (true, marchRay, ray, alpha, vol)
  end.

(** [VolumePhotonMap::TraceThrough]: the value returned and the updated
    [ray], [isect], [alpha] and volume store. *)
Definition TraceThrough (cfg : Config) (scene : Scene) (tr : TraceScript)
    (ray : Ray) (isect : Intersection) (alpha : Spectrum) (shot : Z)
    (vol : PhotonStore)
  : bool * Ray * Intersection * Spectrum * PhotonStore :=
  if negb (volumeRegion scene) then (true, ray, isect, alpha, vol)
  else if tr_front tr then (true, ray, isect, alpha, vol)
  else
    let '(fellOut, marchRay, ray1, alpha1, vol1) :=
      TraceThrough_loop cfg shot (tr_steps tr) (mkRay (o ray) (d ray)) ray
        alpha vol in
    if fellOut then
      match tr_Intersect tr with
      | Some isect' => (true, marchRay, isect', alpha1, vol1)
      | None => (false, marchRay, isect, alpha1, vol1)
      end
    else (false, ray1, isect, alpha1, vol1).

(** The answers given during one iteration of the path loop of
    [Surface_Preprocess] (lines 488-581) whose test
    [scene->Intersect(photonRay, &photonIsect)] held. *)
Record Segment : Type := mkSegment {
  seg_isect : Intersection;     (* photonIsect as set by the loop test *)
  seg_trace : TraceScript;      (* the call of TraceThrough *)
  seg_Transmittance : Spectrum; (* scene->Transmittance(photonRay) *)
  seg_RandomFloat_rp : Q;       (* the draw compared with .125f *)
  seg_RandomFloat_rr : Q        (* the draw compared with continueProb *)
}.

(** The locals of one photon path. *)
Record PathState : Type := mkPathState {
  photonRay : Ray;
  path_alpha : Spectrum;        (* alpha *)
  specularPath : bool;
  nIntersections : nat
}.

(** Lines 503-549: the deposit at a surface with a non-specular
    component; the photon stores [wo = -photonRay.d]. *)
Definition deposit_at_surface (cfg : Config) (st : State)
    (photonRay_ : Ray) (photonIsect : Intersection) (alpha : Spectrum)
    (specularPath_ : bool) (nIntersections_ : nat) (u_rp : Q) : State :=
  let photonBSDF := GetBSDF photonIsect in
  let photon_ := mkPhoton (dg_p photonIsect) alpha (Neg (d photonRay_)) in
  let st1 :=
    if (nIntersections_ =? 1)%nat then
      set_directPhotons (directPhotons st ++ [photon_]) st
    else if specularPath_ then
      set_caustic
        (deposit (nCausticPhotons cfg) (to_int (nshot st)) photon_
           (caustic st)) st
    else
      set_indirect
        (deposit (nIndirectPhotons cfg) (to_int (nshot st)) photon_
           (indirect st)) st in
  if finalGather cfg && Qltb u_rp 0.125 then
    let n := dg_nn photonIsect in
    let n := if Qltb 0 (Dot n (d photonRay_)) then Neg n else n in
    set_radiance
      (radiancePhotons st1 ++ [RadiancePhoton_new (dg_p photonIsect) n])
      (rpReflectances st1 ++ [rho_reflection photonBSDF])
      (rpTransmittances st1 ++ [rho_transmission photonBSDF]) st1
  else st1.

(** [hasNonSpecular] (lines 499-502). *)
Definition hasNonSpecular (photonBSDF : BSDF) : bool :=
  (NumComponents_specular photonBSDF <? NumComponents photonBSDF)%nat.

(** One iteration of the path loop of [Surface_Preprocess] (lines
    489-580).  The second component is [None] when the iteration ended in
    [break], and the locals of the path for the next iteration otherwise.
    [TraceThrough] takes the counter as an [int]. *)
Definition bounce (cfg : Config) (scene : Scene) (st : State)
    (ps : PathState) (seg : Segment) : State * option PathState :=
  let n := S (nIntersections ps) in
  let '(reached, ray, photonIsect, alpha, vol) :=
    TraceThrough cfg scene (seg_trace seg) (photonRay ps) (seg_isect seg)
      (path_alpha ps) (to_int (nshot st)) (volume st) in
  let st := set_volume vol st in
  if negb reached then (st, None)
  else
    let alpha := Smul alpha (seg_Transmittance seg) in
    let photonBSDF := GetBSDF photonIsect in
    let st :=
      if hasNonSpecular photonBSDF then
        deposit_at_surface cfg st ray photonIsect alpha
          (specularPath ps) n (seg_RandomFloat_rp seg)
      else st in
    let fr := Sample_f_fr photonBSDF in
    let pdf := Sample_f_pdf photonBSDF in
    if Black fr || Qeq_bool pdf 0 then (st, None)
    else
      let anew :=
        Sdiv (Sscale (Smul alpha fr)
                (AbsDot (Sample_f_wi photonBSDF) (dgShading_nn photonBSDF)))
             pdf in
      let continueProb := Qmin 1 (Sy anew / Sy alpha) in
      if Qltb continueProb (seg_RandomFloat_rr seg) || (10 <? n)%nat
      then (st, None)
      else
        (st,
         Some (mkPathState
                 (mkRay (dg_p photonIsect) (Sample_f_wi photonBSDF))
                 (Sdiv anew continueProb)
                 (((n =? 1)%nat || specularPath ps)
                  && Sample_f_specular photonBSDF)
                 n)).

(** The path loop: [while (scene->Intersect(photonRay, &photonIsect))].
    The test fails when the segments are used up. *)
Fixpoint walk (cfg : Config) (scene : Scene) (segs : list Segment)
    (st : State) (ps : PathState) : State :=
  match segs with
  | [] => st
  | seg :: rest =>
      match bounce cfg scene st ps seg with
      | (st', None) => st'
      | (st', Some ps') => walk cfg scene rest st' ps'
      end
  end.

(** The answers given during one iteration of the shooting loop: the
    light sample and the path. *)
Record Shot : Type := mkShot {
  Sample_L_alpha : Spectrum;  (* light->Sample_L(scene, u[0..3], &photonRay,
                                 &pdf) *)
  Sample_L_ray : Ray;         (* photonRay *)
  Sample_L_pdf : Q;           (* pdf *)
  lightPdf : Q;               (* from SampleStep1d *)
  shot_path : list Segment
}.

(** Lines 460-583: one photon traced. *)
Definition shoot (cfg : Config) (scene : Scene) (shot : Shot) (st : State)
  : State :=
  let alpha := Sample_L_alpha shot in
  if Qeq_bool (Sample_L_pdf shot) 0 || Black alpha then st
  else
    let alpha := Sdiv alpha (Sample_L_pdf shot * lightPdf shot) in
    if negb (Black alpha) then
      walk cfg scene (shot_path shot) st
        (mkPathState (Sample_L_ray shot) alpha false 0)
    else st.

(** [VolumePhotonMap::unsuccessful(needed, found, shot)]. *)
Definition unsuccessful (needed found shot : Z) : bool :=
  (found <? needed)%Z
  && ((found =? 0)%Z || (found <? Z.quot shot 1024)%Z).

(** How a call of [Surface_Preprocess] ends.  [Shooting] stands for a
    shooting loop that is still running when the recorded answers are used
    up. *)
Inductive Outcome : Type :=
| AlreadyPreprocessed
| NoLights
| InsufficientPhotons (nCaustic nIndirect nVolume : nat)
    (* Error("Unable to store enough photons ...", sizes); return *)
| Completed
| Shooting.

(** [v.size()] passed for an [int] parameter. *)
Definition size_int (v : list Photon) : Z := to_int (Z.of_nat (length v)).

(** The test of lines 444-453. *)
Definition stalled (cfg : Config) (st : State) : bool :=
  (500000 <? nshot st)%Z
  && (unsuccessful (to_int (Z.of_nat (nCausticPhotons cfg)))
        (size_int (st_photons (caustic st))) (to_int (nshot st))
      || unsuccessful (to_int (Z.of_nat (nIndirectPhotons cfg)))
           (size_int (st_photons (indirect st))) (to_int (nshot st))
      || unsuccessful (to_int (Z.of_nat (nVolumePhotons cfg)))
           (size_int (st_photons (volume st))) (to_int (nshot st))).

(** The shooting loop (lines 441-584):
    [while (!causticDone || !indirectDone || !volumeDone)]. *)
Fixpoint shooting_loop (cfg : Config) (scene : Scene) (shots : list Shot)
    (st : State) : Outcome * State :=
  if negb (st_done (caustic st)) || negb (st_done (indirect st))
     || negb (st_done (volume st))
  then
    match shots with
    | [] => (Shooting, st)
    | shot :: rest =>
        let st := set_nshot (nshot st + 1) st in
        if stalled cfg st then
          (InsufficientPhotons (length (st_photons (caustic st)))
             (length (st_photons (indirect st)))
             (length (st_photons (volume st))), st)
        else shooting_loop cfg scene rest (shoot cfg scene shot st)
    end
  else (Completed, st).

(** The global object [globalPhotonMap] after [Surface_Init] and
    [Volume_Init] in a process that has not traced a photon yet: the four
    maps are [NULL]; the path counts of the global object and the shot
    counter start at zero. *)
Definition Surface_Init : State :=
  let empty := mkPhotonStore [] false 0 None [] in
  mkState false empty empty empty [] [] [] [] None 0.

(** [Surface_Init] (lines 264-280) on the object as an earlier use has
    left it, as happens when [CreateSurfaceIntegrator] is called again in
    the same process: the four maps are set to [NULL] and
    [alreadyPreprocessed] to false.  The path counts are not assigned; the
    shot counter is not a member and is not reset.  The record of the
    constructions starts anew. *)
Definition Surface_Init_again (st : State) : State :=
  let clear c := mkPhotonStore [] false (st_paths c) None [] in
  mkState false (clear (caustic st)) (clear (indirect st))
    (clear (volume st)) [] [] [] [] None (nshot st).

(** Lines 416-429: the locals of [Surface_Preprocess] at their
    declaration.  The declaration of the static [nshot] (line 425) does not
    run its constructor again. *)
Definition fresh (target : nat) (c : PhotonStore) : PhotonStore :=
  mkPhotonStore [] (target =? 0)%nat (st_paths c) (st_map c) (st_built c).

Definition declare_locals (cfg : Config) (st : State) : State :=
  mkState (alreadyPreprocessed st)
    (fresh (nCausticPhotons cfg) (caustic st))
    (fresh (nIndirectPhotons cfg) (indirect st))
    (fresh (nVolumePhotons cfg) (volume st))
    [] [] [] [] (radianceMap st) (nshot st).

Section Preprocess.
Context {heap : StlHeap}.

(** The sum of the three estimates of lines 602-604 and 608-610. *)
Definition estimate_E (cfg : Config) (st : State)
    (directMap : KdTree Photon) (nDirectPaths : Z) (pt : Point) (n : Normal)
  : FSpectrum :=
  let est := Surface_estimateE (cfg_nLookup cfg) (cfg_maxDistSquared cfg) in
  FSadd (FSadd (est (Some directMap) nDirectPaths pt n)
               (est (st_map (indirect st)) (st_paths (indirect st)) pt n))
        (est (st_map (caustic st)) (st_paths (caustic st)) pt n).

(** Lines 595-612: the radiance of one radiance photon. *)
Definition compute_radiance (cfg : Config) (st : State)
    (directMap : KdTree Photon) (nDirectPaths : Z)
    (rp : RadiancePhoton) (rho_r rho_t : Spectrum) : RadiancePhoton :=
  let pt := rp_p rp in
  let n := rp_n rp in
  let Lo1 :=
    if negb (Black rho_r) then
      let E := estimate_E cfg st directMap nDirectPaths pt n in
      FSadd (Lo rp) (FSmul (FSscale E INV_PI) rho_r)
    else Lo rp in
  let Lo2 :=
    if negb (Black rho_t) then
      let E := estimate_E cfg st directMap nDirectPaths pt (Neg n) in
      FSadd Lo1 (FSmul (FSscale E INV_PI) rho_t)
    else Lo1 in
  mkRadiancePhoton (rp_p rp) (rp_n rp) Lo2.

(** The loop of lines 593-614 from index [i] on, over the remaining
    radiance photons. *)
Fixpoint radiance_loop (cfg : Config) (st : State)
    (directMap : KdTree Photon) (nDirectPaths : Z) (i : nat)
    (rps : list RadiancePhoton) : list RadiancePhoton :=
  match rps with
  | [] => []
  | rp :: rest =>
      compute_radiance cfg st directMap nDirectPaths rp
        (nth i (rpReflectances st) (Spectrum_of_float 0))
        (nth i (rpTransmittances st) (Spectrum_of_float 0))
      :: radiance_loop cfg st directMap nDirectPaths (S i) rest
  end.

(** Lines 588-618: the radiance precomputation; [nDirectPaths] is an
    [int]. *)
Definition precompute_radiance (cfg : Config) (st : State) : State :=
  let directMap := KdTree_new (directPhotons st) in
  let nDirectPaths := to_int (nshot st) in
  if finalGather cfg then
    let rps :=
      radiance_loop cfg st directMap nDirectPaths 0 (radiancePhotons st) in
    set_radianceMap (Some (KdTree_new rps))
      (set_radiance rps (rpReflectances st) (rpTransmittances st) st)
  else st.

(** [VolumePhotonMap::Surface_Preprocess]. *)
Definition Surface_Preprocess (cfg : Config) (scene : Scene)
    (shots : list Shot) (st : State) : Outcome * State :=
  if alreadyPreprocessed st then (AlreadyPreprocessed, st)
  else
    let st := set_alreadyPreprocessed true st in
    if (nLights scene =? 0)%nat then (NoLights, st)
    else
      match shooting_loop cfg scene shots (declare_locals cfg st) with
      | (Completed, st') => (Completed, precompute_radiance cfg st')
      | other => other
      end.

End Preprocess.

(* ===================================================================== *)
(** ** The neighbour search of [Surface_Li] *)
(* ===================================================================== *)

Definition nIndirSamplePhotons : nat := 50.

(** How the search loop of lines 656-661 stands after a number of
    iterations: left with a collector, stopped on the call through a null
    [indirectMap], or still iterating. *)
Inductive Search : Type :=
| Found (proc : PhotonProcess)
| NullMap
| Searching.

Section Gather.
Context {heap : StlHeap}.

(** Lines 656-661, for at most [fuel] iterations:
    [while (proc.foundPhotons < nIndirSamplePhotons)]. *)
Fixpoint search_loop (fuel : nat) (indirectMap : option (KdTree Photon))
    (pt : Point) (proc : PhotonProcess) (searchDist2 : Q) : Search :=
  if (foundPhotons proc <? nIndirSamplePhotons)%nat then
    match fuel with
    | O => Searching
    | S fuel' =>
        match indirectMap with
        | None => NullMap
        | Some m =>
            let md2 := searchDist2 in
            let proc0 := mkPhotonProcess (photons proc) (nLookup proc) 0 in
            let '(proc', _) := Lookup m pt proc0 md2 in
            search_loop fuel' indirectMap pt proc' (searchDist2 * 2)%Q
        end
    end
  else Found proc.

(** Lines 644-661 of [Surface_Li]: the search is entered when final gather
    is on and [bsdf->NumComponents(nonSpecular) > 0]. *)
Definition Surface_Li_search (cfg : Config) (st : State)
    (nonSpecularComponents : nat) (pt : Point) (fuel : nat) : option Search :=
  if finalGather cfg then
    if (0 <? nonSpecularComponents)%nat then
      Some (search_loop fuel (st_map (indirect st)) pt
              (PhotonProcess_new nIndirSamplePhotons) (cfg_maxDistSquared cfg))
    else None
  else None.

End Gather.

(* ===================================================================== *)
(** ** [MedianCutEnvironmentLight]: the emission interface *)
(* ===================================================================== *)

Module MedianCutEnvironmentLight.

(** [LightSample]: [uPos[2]] and [uComponent]. *)
Record LightSample : Type :=
  mkLightSample { uPos0 : Q; uPos1 : Q; uComponent : Q }.

(** The caller's objects behind the pointers [ray], [Ns] and [pdf]. *)
Record Outputs : Type :=
  mkOutputs { out_ray : Ray; out_Ns : Normal; out_pdf : Q }.

(** [Sample_L(scene, ls, u1, u2, time, ray, Ns, pdf)]: [return 0;]. *)
Definition Sample_L (scene : Scene) (ls : LightSample) (u1 u2 time : Q)
    (out : Outputs) : Spectrum * Outputs :=
  (Spectrum_of_float 0, out).

(** [Pdf(const Point &, const Vector &w)]: [return 0.0f;]. *)
Definition Pdf (pt : Point) (w : Vector) : Q := 0.

End MedianCutEnvironmentLight.

(* ===================================================================== *)
(** ** [Surface_LPhoton] *)
(* ===================================================================== *)

(** [BxDFType]: the flags of reflection.h, a bit set. *)
Definition BxDFType := Z.
Definition BSDF_REFLECTION : BxDFType := Z.shiftl 1 0.
Definition BSDF_TRANSMISSION : BxDFType := Z.shiftl 1 1.
Definition BSDF_DIFFUSE : BxDFType := Z.shiftl 1 2.
Definition BSDF_GLOSSY : BxDFType := Z.shiftl 1 3.
Definition BSDF_SPECULAR : BxDFType := Z.shiftl 1 4.
Definition BSDF_ALL_TYPES : BxDFType :=
  Z.lor (Z.lor BSDF_DIFFUSE BSDF_GLOSSY) BSDF_SPECULAR.
Definition BSDF_ALL_REFLECTION : BxDFType :=
  Z.lor BSDF_REFLECTION BSDF_ALL_TYPES.
Definition BSDF_ALL_TRANSMISSION : BxDFType :=
  Z.lor BSDF_TRANSMISSION BSDF_ALL_TYPES.

(** [nonSpecular] (lines 211-212 and 647-648). *)
Definition nonSpecular : BxDFType :=
  Z.lor (Z.lor (Z.lor BSDF_REFLECTION BSDF_TRANSMISSION) BSDF_DIFFUSE)
    BSDF_GLOSSY.

(** What a [BSDF] answers at a shading point: [NumComponents(flags)],
    [f(wo, wi, flags)], [rho(wo, flags)] and [dgShading.nn]. *)
Record ShadingBSDF : Type := mkShadingBSDF {
  sh_NumComponents : BxDFType -> nat;
  sh_f : Vector -> Vector -> BxDFType -> Spectrum;
  sh_rho : Vector -> BxDFType -> Spectrum;
  sh_nn : Normal
}.

Section LPhoton.
Context {heap : StlHeap}.

(** The loop of lines 235-241 (glossy surface). *)
Fixpoint glossy_loop (map : KdTree Photon) (nPaths : Z) (bsdf : ShadingBSDF)
    (pt : Point) (wo : Vector) (Nf : Normal) (md2 : Q)
    (found : list ClosePhoton) (L : Spectrum) : Spectrum :=
  match found with
  | [] => L
  | c :: rest =>
      let p := deref map c in
      let flag := if Qltb 0 (Dot Nf (ph_wi p))
                  then BSDF_ALL_REFLECTION else BSDF_ALL_TRANSMISSION in
      let k := kernel p pt md2 in
      glossy_loop map nPaths bsdf pt wo Nf md2 rest
        (Sadd L (Smul (Sscale (sh_f bsdf wo (ph_wi p) flag)
                         (k / inject_Z nPaths))
                   (ph_alpha p)))
  end.

(** The loop of lines 246-257 (diffuse surface): [(Lr, Lt)]. *)
Fixpoint diffuse_loop (map : KdTree Photon) (nPaths : Z) (pt : Point)
    (Nf : Normal) (md2 : Q) (found : list ClosePhoton)
    (Lr Lt : Spectrum) : Spectrum * Spectrum :=
  match found with
  | [] => (Lr, Lt)
  | c :: rest =>
      let p := deref map c in
      let k := kernel p pt md2 in
      if Qltb 0 (Dot Nf (ph_wi p)) then
        diffuse_loop map nPaths pt Nf md2 rest
          (Sadd Lr (Sscale (ph_alpha p) (k / inject_Z nPaths))) Lt
      else
        diffuse_loop map nPaths pt Nf md2 rest Lr
          (Sadd Lt (Sscale (ph_alpha p) (k / inject_Z nPaths)))
  end.

(** [VolumePhotonMap::Surface_LPhoton(map, nPaths, nLookup, bsdf, isect,
    wo, maxDistSquared)]; of [isect] the point [isect.dg.p] is read. *)
Definition Surface_LPhoton (map : option (KdTree Photon)) (nPaths : Z)
    (nLookup_ : nat) (bsdf : ShadingBSDF) (pt : Point) (wo : Vector)
    (maxDistSquared : Q) : Spectrum :=
  let L := Spectrum_of_float 0 in
  match map with
  | None => L
  | Some m =>
      if (sh_NumComponents bsdf nonSpecular =? 0)%nat then L
      else
        let '(proc, md2) :=
          Lookup m pt (PhotonProcess_new nLookup_) maxDistSquared in
        let found := firstn (foundPhotons proc) (photons proc) in
        let Nf := if Qltb (Dot wo (sh_nn bsdf)) 0
                  then Neg (sh_nn bsdf) else sh_nn bsdf in
        if (0 <? sh_NumComponents bsdf
                   (Z.lor (Z.lor BSDF_REFLECTION BSDF_TRANSMISSION)
                      BSDF_GLOSSY))%nat
        then glossy_loop m nPaths bsdf pt wo Nf md2 found L
        else
          let LrLt :=
            diffuse_loop m nPaths pt Nf md2 found (Spectrum_of_float 0)
              (Spectrum_of_float 0) in
          Sadd L
            (Sadd (Sscale (Smul (fst LrLt)
                             (sh_rho bsdf wo BSDF_ALL_REFLECTION)) INV_PI)
                  (Sscale (Smul (snd LrLt)
                             (sh_rho bsdf wo BSDF_ALL_TRANSMISSION)) INV_PI))
  end.

End LPhoton.

(* ===================================================================== *)
(** ** The specular recursion of [Surface_Li] *)
(* ===================================================================== *)

(** What decides how a call of [Surface_Li] recurses: whether the ray
    meets the scene and, at the point met, for the specular reflection and
    for the specular transmission, whether the sampled value is black
    ([None]) or the answers given to the call that [scene->Li] makes for
    the new ray.

    Modelled from the spec: [Scene::Li] (scene.h is not among the sources)
    hands the ray to the surface integrator, that is, through
    [SurfaceIntegratorWrapper::Li] (lines 955-958), to [Surface_Li] again
    (4.5: "recursively evaluate one reflected and one refracted ray"). *)
#[local] Unset Elimination Schemes.
Inductive LiScript : Type :=
| NoIntersection
| Intersected (reflection transmission : option LiScript).
#[local] Set Elimination Schemes.

(** The part of [Surface_Li] that reads and writes [specularDepth] (lines
    627, 773-830 and 831-838): the value of [specularDepth] when the call
    returns, and the values it had on entry to this call and to the calls
    made from it, in the order of the calls. *)
Fixpoint Surface_Li_depth (maxSpecularDepth : Z) (s : LiScript)
    (specularDepth : Z) : Z * list Z :=
  match s with
  | NoIntersection => (specularDepth, [specularDepth])
  | Intersected reflection transmission =>
      (* if (specularDepth++ < maxSpecularDepth) *)
      let entered := (specularDepth <? maxSpecularDepth)%Z in
      let depth1 := (specularDepth + 1)%Z in
      let '(depth2, calls) :=
        if entered then
          let '(depthR, callsR) :=
            match reflection with
            | Some s' => Surface_Li_depth maxSpecularDepth s' depth1
            | None => (depth1, [])
            end in
          let '(depthT, callsT) :=
            match transmission with
            | Some s' => Surface_Li_depth maxSpecularDepth s' depthR
            | None => (depthR, [])
            end in
          (depthT, callsR ++ callsT)
        else (depth1, []) in
      (* --specularDepth *)
      ((depth2 - 1)%Z, specularDepth :: calls)
  end.

(* ===================================================================== *)
(** ** The marching loop of [RayMarch] *)
(* ===================================================================== *)

(** [Ray::operator()(t)]: the point [o + d * t]. *)
Definition Ray_at (r : Ray) (t : Q) : Point :=
  mkV3 (cx (o r) + cx (d r) * t) (cy (o r) + cy (d r) * t)
       (cz (o r) + cz (d r) * t).

(** [-s] on spectra. *)
Definition Sneg (a : Spectrum) : Spectrum :=
  mkSpectrum (- c0 a) (- c1 a) (- c2 a).

Section Marching.

(** pbrt's [Exp] on spectra and the [logf] of the C library; the
    extinction and scattering coefficients of the medium
    ([vr->sigma_t(p, w)], [vr->sigma_s(p, w)]); the member [stepSize].
    [Fadd] is the float addition of the three updates [t0 += ...]: the
    parameter [t0] advances by the rounded sum, which decides whether the
    loop ends. *)
Variable Exp : Spectrum -> Spectrum.
Variable logf : Q -> Q.
Variable Fadd : Q -> Q -> Q.
Variable sigma_t sigma_s : Point -> Vector -> Spectrum.
Variable stepSize : Q.

(** The marching loop of [RayMarch] (lines 332-353), from its test on:
    [(t0, loc, transmittance)] when the loop is left.  [draws] are the
    values of [RandomFloat()] in the order of the calls; the result is
    [None] when they are used up before the loop is left. *)
Fixpoint march_loop (draws : list Q) (marchRay : Ray) (t1 t0 : Q)
    (loc : Point) (transmittance oldTransmittance : Spectrum)
  : option (Q * Point * Spectrum) :=
  if Qltb t0 t1 then
    match draws with
    | [] => None
    | u :: rest =>
        let p := Ray_at marchRay t0 in
        let stepTau := Sscale (sigma_t p (d marchRay)) stepSize in
        let tTransmittance := Smul transmittance (Exp (Sneg stepTau)) in
        if Qltb u (1 - Sy tTransmittance) then
          match rest with
          | [] => None
          | u' :: _ =>
              let scale := (- logf u')%Q in
              let t0' := Fadd t0 ((scale - 1) * stepSize)%Q in
              let p' := Ray_at marchRay t0' in
              let stepTau' :=
                Sscale (sigma_t p' (d marchRay)) (scale * stepSize) in
              Some (t0', p', Smul oldTransmittance (Exp (Sneg stepTau')))
          end
        else
          march_loop rest marchRay t1 (Fadd t0 stepSize) p tTransmittance
            transmittance
    end
  else Some (t0, loc, transmittance).

(** Lines 319-353 of [RayMarch]: what the marching loop leaves behind and
    the two coefficients read after it, as a [March].  [mint] and [maxt]
    are the members of [marchRay], [loc] the caller's object. *)
Definition RayMarch_loop (draws : list Q) (marchRay : Ray) (mint maxt : Q)
    (loc : Point) (tIntersect : Q) : option March :=
  match draws with
  | [] => None
  | u :: rest =>
      let t1 := Qmin maxt tIntersect in
      let t0 := Fadd mint (u * stepSize)%Q in
      match march_loop rest marchRay t1 t0 loc (Spectrum_of_float 1)
              (Spectrum_of_float 1) with
      | None => None
      | Some (t0', loc', transmittance) =>
          Some (mkMarch loc' transmittance (Qltb t0' t1)
                  (sigma_s loc' (d marchRay)) (sigma_t loc' (d marchRay)))
      end
  end.

End Marching.

(* ===================================================================== *)
(** ** [MedianCutEnvironmentLight]: building the lights *)
(* ===================================================================== *)

(** [RGBSpectrum] has three coefficients, as [Spectrum] has here. *)
Definition Ssub (a b : Spectrum) : Spectrum :=
  mkSpectrum (c0 a - c0 b) (c1 a - c1 b) (c2 a - c2 b).

Module MedianCut.

(** [summedArea[k]] read and written; the array holds [width * height]
    entries, an index outside it is read as black and not written. *)
Definition array_get (a : list Spectrum) (k : nat) : Spectrum :=
  nth k a (Spectrum_of_float 0).

Fixpoint array_set (a : list Spectrum) (k : nat) (v : Spectrum)
  : list Spectrum :=
  match a, k with
  | [], _ => []
  | _ :: rest, O => v :: rest
  | x :: rest, S k' => x :: array_set rest k' v
  end.

Section Table.

(** The float sum and the float difference of two coefficients.
    [RGBSpectrum]'s [operator+], [operator+=] and [operator-] apply them
    coefficient by coefficient. *)
Variable fadd fsub : Q -> Q -> Q.

Definition Fadd (a b : Spectrum) : Spectrum :=
  mkSpectrum (fadd (c0 a) (c0 b)) (fadd (c1 a) (c1 b)) (fadd (c2 a) (c2 b)).
Definition Fsub (a b : Spectrum) : Spectrum :=
  mkSpectrum (fsub (c0 a) (c0 b)) (fsub (c1 a) (c1 b)) (fsub (c2 a) (c2 b)).

(** The body of the loops of [InitSummedAreaTable] (lines 108-122). *)
Definition InitSummedAreaTable_cell (width : nat)
    (summedArea : list Spectrum) (i j : nat) : list Spectrum :=
  let _i_j := i * width + j in
  let at_ := array_get summedArea in
  if i =? 0 then
    if negb (j =? 0) then
      array_set summedArea _i_j (Fadd (at_ _i_j) (at_ (_i_j - 1)))
    else summedArea
  else if j =? 0 then
    if negb (i =? 0) then
      array_set summedArea _i_j (Fadd (at_ _i_j) (at_ (_i_j - width)))
    else summedArea
  else
    array_set summedArea _i_j
      (Fsub (Fadd (Fadd (at_ _i_j) (at_ (_i_j - 1))) (at_ (_i_j - width)))
            (at_ (_i_j - width - 1))).

(** [MedianCutEnvironmentLight::InitSummedAreaTable(summedArea, width,
    height)]: the array after the call. *)
Definition InitSummedAreaTable (summedArea : list Spectrum)
    (width height : nat) : list Spectrum :=
  fold_left
    (fun a i =>
       fold_left (fun a j => InitSummedAreaTable_cell width a i j)
         (seq 0 width) a)
    (seq 0 height) summedArea.

End Table.

(** [struct MedianCutRect] of the header, by the members this file reads
    and writes: the children (for [NULL], [None]), the rectangle, and the
    two sums the constructor stores, and [LightPoint] (the constructor
    leaves it at the origin, [CaculateLights] sets it once the tree is
    built). *)
#[local] Unset Elimination Schemes.
Inductive MedianCutRect : Type :=
  mkMedianCutRect (left right : option MedianCutRect)
    (x y Rect_width Rect_height : Z) (SummedRGB : Spectrum) (SummedLum : Q)
    (LightPoint : Point).

#[local] Set Elimination Schemes.

Definition left (r : MedianCutRect) : option MedianCutRect :=
  match r with mkMedianCutRect l _ _ _ _ _ _ _ _ => l end.
Definition right (r : MedianCutRect) : option MedianCutRect :=
  match r with mkMedianCutRect _ r' _ _ _ _ _ _ _ => r' end.
Definition x (r : MedianCutRect) : Z :=
  match r with mkMedianCutRect _ _ v _ _ _ _ _ _ => v end.
Definition y (r : MedianCutRect) : Z :=
  match r with mkMedianCutRect _ _ _ v _ _ _ _ _ => v end.
Definition Rect_width (r : MedianCutRect) : Z :=
  match r with mkMedianCutRect _ _ _ _ v _ _ _ _ => v end.
Definition Rect_height (r : MedianCutRect) : Z :=
  match r with mkMedianCutRect _ _ _ _ _ v _ _ _ => v end.
Definition SummedRGB (r : MedianCutRect) : Spectrum :=
  match r with mkMedianCutRect _ _ _ _ _ _ v _ _ => v end.
Definition SummedLum (r : MedianCutRect) : Q :=
  match r with mkMedianCutRect _ _ _ _ _ _ _ v _ => v end.
Definition LightPoint (r : MedianCutRect) : Point :=
  match r with mkMedianCutRect _ _ _ _ _ _ _ _ v => v end.

(** [root->left = ...; root->right = ...]. *)
Definition set_children (root : MedianCutRect)
    (l r : option MedianCutRect) : MedianCutRect :=
  mkMedianCutRect l r (x root) (y root) (Rect_width root) (Rect_height root)
    (SummedRGB root) (SummedLum root) (LightPoint root).

Section Tree.

(** [SummedAreaValue(x, y, width, height)] and the luminance the
    constructor of [MedianCutRect] stores for the spectrum handed to it
    are members of the header; [LimitedHeight] is the value of
    [Log2(nSamples)] converted to [int]. *)
Variable SummedAreaValue : Z -> Z -> Z -> Z -> Spectrum.
Variable luminance : Spectrum -> Q.
Variable LimitedHeight : Z.

(** [new MedianCutRect(NULL, NULL, x, y, width, height, rgb)]. *)
Definition MedianCutRect_new (x_ y_ width height : Z) (rgb : Spectrum)
  : MedianCutRect :=
  mkMedianCutRect None None x_ y_ width height rgb (luminance rgb)
    (mkV3 0 0 0).

(** The loop of lines 141-162 from [indexX] on, for [n] more values of
    the index: [(medianCC, leftRect, RightRect)]. *)
Fixpoint scanX (root : MedianCutRect) (n : nat) (indexX : Z)
    (leftRect : Spectrum) : Z * Spectrum * Spectrum :=
  match n with
  | O => (0%Z, leftRect, Spectrum_of_float 0)
  | S n' =>
      let leftRect :=
        SummedAreaValue (x root) (y root) indexX (Rect_height root) in
      if Qle_bool (SummedLum root / 2) (Sy leftRect) then
        (indexX, leftRect,
         SummedAreaValue (x root + indexX) (y root)
           (Rect_width root - indexX - 1) (Rect_height root))
      else scanX root n' (indexX + 1) leftRect
  end.

(** The loop of lines 181-201: [(medianCC, UpRect, ButtonRect)]. *)
Fixpoint scanY (root : MedianCutRect) (n : nat) (indexY : Z)
    (UpRect : Spectrum) : Z * Spectrum * Spectrum :=
  match n with
  | O => (0%Z, UpRect, Spectrum_of_float 0)
  | S n' =>
      let UpRect :=
        SummedAreaValue (x root) (y root) (Rect_width root) indexY in
      if Qle_bool (SummedLum root / 2) (Sy UpRect) then
        (indexY, UpRect,
         SummedAreaValue (x root) (y root + indexY) (Rect_width root)
           (Rect_height root - indexY - 1))
      else scanY root n' (indexY + 1) UpRect
  end.

(** [CutCut(root, nowTreeHeight)] with the global vector [leafs] as an
    argument: the node as the call leaves it, and [leafs].  A call recurses
    [LimitedHeight - nowTreeHeight] levels deep at most; [levels] bounds
    the depth of the recursion. *)
Fixpoint CutCut_levels (levels : nat) (root : MedianCutRect)
    (nowTreeHeight : Z) (leafs : list MedianCutRect)
  : MedianCutRect * list MedianCutRect :=
  if (LimitedHeight <? nowTreeHeight)%Z then (root, leafs)
  else if (Rect_height root <? Rect_width root)%Z then
    let '(medianCC, leftRect, RightRect) :=
      scanX root (Z.to_nat (Rect_width root - 2)) 1 (Spectrum_of_float 0) in
    if (LimitedHeight <? nowTreeHeight + 1)%Z then (root, leafs ++ [root])
    else
      match levels with
      | O => (root, leafs)
      | S levels' =>
          let l := MedianCutRect_new (x root) (y root) medianCC
                     (Rect_height root) leftRect in
          let r := MedianCutRect_new (x root + medianCC) (y root)
                     (Rect_width root - medianCC - 1) (Rect_height root)
                     RightRect in
          let '(l', leafs1) :=
            CutCut_levels levels' l (nowTreeHeight + 1) leafs in
          let '(r', leafs2) :=
            CutCut_levels levels' r (nowTreeHeight + 1) leafs1 in
          (set_children root (Some l') (Some r'), leafs2)
      end
  else
    let '(medianCC, UpRect, ButtonRect) :=
      scanY root (Z.to_nat (Rect_height root - 2)) 1 (Spectrum_of_float 0) in
    if (LimitedHeight <? nowTreeHeight + 1)%Z then (root, leafs ++ [root])
    else
      match levels with
      | O => (root, leafs)
      | S levels' =>
          let l := MedianCutRect_new (x root) (y root) (Rect_width root)
                     medianCC UpRect in
          let r := MedianCutRect_new (x root) (y root + medianCC)
                     (Rect_width root) (Rect_height root - medianCC - 1)
                     ButtonRect in
          let '(l', leafs1) :=
            CutCut_levels levels' l (nowTreeHeight + 1) leafs in
          let '(r', leafs2) :=
            CutCut_levels levels' r (nowTreeHeight + 1) leafs1 in
          (set_children root (Some l') (Some r'), leafs2)
      end.

Definition CutCut (root : MedianCutRect) (nowTreeHeight : Z)
    (leafs : list MedianCutRect) : MedianCutRect * list MedianCutRect :=
  CutCut_levels (Z.to_nat (LimitedHeight - nowTreeHeight)) root
    nowTreeHeight leafs.

End Tree.

(** [static_cast<int>(v)]: the fraction is dropped.  The conversion has
    no defined result when the truncated value does not fit an [int]:
    [None]. *)
Definition float_to_int (v : Q) : option Z :=
  let z := Z.quot (Qnum v) (Z.pos (Qden v)) in
  if ((- 2 ^ 31 <=? z) && (z <? 2 ^ 31))%Z then Some z else None.

(** An [int] converted to a [size_t] of 64 bits, as the operands of [%]
    are. *)
Definition to_size_t (z : Z) : Z := (z mod 2 ^ 64)%Z.

(** [Sample_L(p, pEpsilon, ls, time, wi, pdf, visibility)]: the value
    returned, [*wi], [*pdf] and the arguments of [visibility->SetRay].
    [leafs] is the global vector and [nSamples] the member;
    [LightToWorld] and [Normalize] are pbrt's; [float_of_int] is the
    conversion of [nSamples] to [float] and [Fmul] the float product.
    The result is [None] where the source has no defined behaviour: with
    [leafs] empty it divides by zero, it converts to [int] whatever the
    product is, and it does not check the index. *)
Definition Sample_L (leafs : list MedianCutRect) (nSamples : Z)
    (float_of_int : Z -> Q) (Fmul : Q -> Q -> Q)
    (LightToWorld Normalize : Vector -> Vector)
    (p : Point) (pEpsilon : Q) (ls : MedianCutEnvironmentLight.LightSample)
    (time : Q)
  : option (Spectrum * Vector * Q * (Point * Q * Vector * Q)) :=
  match leafs with
  | [] => None
  | _ :: _ =>
      match float_to_int
              (Fmul (MedianCutEnvironmentLight.uPos0 ls)
                 (float_of_int nSamples)) with
      | None => None
      | Some v =>
          let randomLightSampleNum :=
            to_int (to_size_t v mod Z.of_nat (length leafs)) in
          if (randomLightSampleNum <? 0)%Z then None
          else
            match nth_error leafs (Z.to_nat randomLightSampleNum) with
            | None => None
            | Some leaf =>
                let wi := Normalize (LightToWorld (LightPoint leaf)) in
                Some (SummedRGB leaf, wi, 1%Q, (p, pEpsilon, wi, time))
            end
      end
  end.

End MedianCut.

(* ===================================================================== *)
(** ** A heap library meeting the contracts *)
(* ===================================================================== *)

(** Sorting a range in decreasing order makes it a heap; the three
    algorithms below meet the contracts of [StlHeap] that way. *)
Fixpoint insert_desc (x : ClosePhoton) (l : list ClosePhoton)
  : list ClosePhoton :=
  match l with
  | [] => [x]
  | y :: l' =>
      if ClosePhoton_lt y x then x :: y :: l' else y :: insert_desc x l'
  end.

Fixpoint sort_desc (l : list ClosePhoton) : list ClosePhoton :=
  match l with
  | [] => []
  | x :: l' => insert_desc x (sort_desc l')
  end.

Definition sorting_pop_heap (l : list ClosePhoton) : list ClosePhoton :=
  match l with
  | [] => []
  | x :: l' => sort_desc l' ++ [x]
  end.

(* ===================================================================== *)
(** ** Notions used in the statements *)
(* ===================================================================== *)

(** The candidates of a query that lie within the search radius it starts
    with. *)
Definition within (md2 : Q) (cs : list ClosePhoton) : list ClosePhoton :=
  filter (fun c => Qltb (distanceSquared c) md2) cs.

(** [kept] are [k] nearest of the candidates [cs] (all of them when there
    are fewer than [k]): they are among [cs], and no candidate left out is
    nearer than a kept one. *)
Definition nearest (k : nat) (cs kept : list ClosePhoton) : Prop :=
  length kept = Nat.min k (length cs)
  /\ exists others,
       Permutation (kept ++ others) cs
       /\ forall x y, In x kept -> In y others ->
            (distanceSquared x <= distanceSquared y)%Q.

(** [r] is the squared distance of the farthest of [kept]. *)
Definition farthest_distance (kept : list ClosePhoton) (r : Q) : Prop :=
  (exists x, In x kept /\ distanceSquared x = r)
  /\ forall x, In x kept -> (distanceSquared x <= r)%Q.

(** The intersection at which an iteration of the path loop handles the
    surface when [TraceThrough] lets it: the one of the loop test, or the
    one [TraceThrough] found at its end. *)
Definition surface_hit (scene : Scene) (seg : Segment) : Intersection :=
  if negb (volumeRegion scene) then seg_isect seg
  else if tr_front (seg_trace seg) then seg_isect seg
  else match tr_Intersect (seg_trace seg) with
       | Some isect => isect
       | None => seg_isect seg
       end.

(** Whether the direction sampled at the end of the iteration was
    specular. *)
Definition sampled_specular (scene : Scene) (seg : Segment) : bool :=
  Sample_f_specular (GetBSDF (surface_hit scene seg)).

(** How often the loop of [TraceThrough] scatters the path inside the
    medium (lines 398-400) on the answers [steps]. *)
Fixpoint medium_scatterings (steps : list MediumStep) : nat :=
  match steps with
  | [] => 0
  | s :: rest =>
      if ms_IntersectP s && march_interacted (ms_march s)
         && negb (Quotient_lt
                    (float_div (Sy (march_sigma_s (ms_march s)))
                       (Sy (march_sigma_t (ms_march s))))
                    (ms_RandomFloat s))
      then S (medium_scatterings rest)
      else 0
  end.

(** Whether the path is scattered inside the medium during an iteration
    of the path loop. *)
Definition scattered_in_medium (scene : Scene) (seg : Segment) : bool :=
  volumeRegion scene && negb (tr_front (seg_trace seg))
  && (0 <? medium_scatterings (tr_steps (seg_trace seg))).

(** "The path so far was purely specular", as the specification words it,
    when a photon is deposited in the iteration [seg] after the iterations
    [pre]: every change of direction so far was specular, those inside the
    medium, which are isotropic, included. *)
Definition purely_specular_so_far (scene : Scene) (pre : list Segment)
    (seg : Segment) : bool :=
  forallb (sampled_specular scene) pre
  && forallb (fun s => negb (scattered_in_medium scene s)) (pre ++ [seg]).

(** The path loop over iterations none of which ends in [break]: the state
    and the locals of the path at the head of the next iteration. *)
Fixpoint advance (cfg : Config) (scene : Scene) (segs : list Segment)
    (st : State) (ps : PathState) : option (State * PathState) :=
  match segs with
  | [] => Some (st, ps)
  | seg :: rest =>
      match bounce cfg scene st ps seg with
      | (st', Some ps') => advance cfg scene rest st' ps'
      | (_, None) => None
      end
  end.

(** The specular-only flag as the specification words it: true at the
    start of a path, and (previous flag AND first-bounce) AND (sampled
    direction was specular) after a bounce. *)
Definition spec_flag_start : bool := true.
Definition spec_flag_update (previous first_bounce specular : bool) : bool :=
  (previous && first_bounce) && specular.

(** A category that the stall test of the shooting loop counts as
    unproductive at shot [shot]: it holds fewer photons than its target,
    and none at all or fewer than the integer quotient of [shot] by 1024. *)
Definition unproductive (target : nat) (c : PhotonStore) (shot : Z) : Prop :=
  length (st_photons c) < target
  /\ (length (st_photons c) = 0
      \/ (Z.of_nat (length (st_photons c)) < Z.quot shot 1024)%Z).

(** A shot whose light sample is black: nothing is traced. *)
Definition dud : Shot :=
  mkShot (Spectrum_of_float 0) (mkRay (mkV3 0 0 0) (mkV3 0 0 1)) 0 0 [].




Section SpecEstimate.
Context {heap : StlHeap}.



End SpecEstimate.

(** The category [cat] became complete during one of the shots [shots] of
    a precomputation entered in state [start], and [paths] is the value the
    shot counter had during that shot: the category was pending when the
    shooting loop had run the shots [shots1] before it, and complete once
    the next shot was traced; the counter stood at what the process had
    counted before the call, plus the shots of this call, that one
    included. *)
Definition reached_during (cfg : Config) (scene : Scene) (start : State)
    (shots : list Shot) (cat : State -> PhotonStore) (paths : Z) : Prop :=
  exists shots1 shot shots2 st1,
    shots = shots1 ++ shot :: shots2
    /\ shooting_loop cfg scene shots1
         (declare_locals cfg (set_alreadyPreprocessed true start))
       = (Shooting, st1)
    /\ st_done (cat st1) = false
    /\ st_done (cat (shoot cfg scene shot (set_nshot (nshot st1 + 1) st1)))
       = true
    /\ paths = (nshot start + (Z.of_nat (length shots1) + 1))%Z.

(* ===================================================================== *)
(** * Properties *)
(* ===================================================================== *)

(** ** Comparisons *)

Lemma Qltb_lt (a b : Q) : Qltb a b = true <-> (a < b)%Q.
Proof.
  unfold Qltb. rewrite negb_true_iff. split; intro H.
  - apply Qnot_le_lt. intro Hle. apply Qle_bool_iff in Hle. congruence.
  - destruct (Qle_bool b a) eqn:E; [|reflexivity].
    apply Qle_bool_iff in E. exfalso. apply (Qlt_not_le _ _ H E).
Qed.

Lemma Qltb_ge (a b : Q) : Qltb a b = false <-> (b <= a)%Q.
Proof.
  unfold Qltb. rewrite negb_false_iff. apply Qle_bool_iff.
Qed.

Lemma ClosePhoton_lt_true (a b : ClosePhoton) :
  ClosePhoton_lt a b = true <->
  (distanceSquared a < distanceSquared b)%Q
  \/ ((distanceSquared a == distanceSquared b)%Q /\ (photon a < photon b)%nat).
Proof.
  unfold ClosePhoton_lt.
  destruct (Qeq_bool (distanceSquared a) (distanceSquared b)) eqn:E.
  - apply Qeq_bool_iff in E. rewrite Nat.ltb_lt. split.
    + intro H. right. split; assumption.
    + intros [H | [_ H]]; [|assumption]. rewrite E in H.
      exfalso. apply (Qlt_irrefl _ H).
  - apply Qeq_bool_neq in E. rewrite Qltb_lt. split.
    + intro H. left. assumption.
    + intros [H | [H _]]; [assumption | contradiction].
Qed.

Lemma ClosePhoton_lt_false (a b : ClosePhoton) :
  ClosePhoton_lt a b = false <->
  (distanceSquared b < distanceSquared a)%Q
  \/ ((distanceSquared a == distanceSquared b)%Q /\ (photon b <= photon a)%nat).
Proof.
  unfold ClosePhoton_lt.
  destruct (Qeq_bool (distanceSquared a) (distanceSquared b)) eqn:E.
  - apply Qeq_bool_iff in E. rewrite Nat.ltb_ge. split.
    + intro H. right. split; assumption.
    + intros [H | [_ H]]; [|assumption]. rewrite E in H.
      exfalso. apply (Qlt_irrefl _ H).
  - apply Qeq_bool_neq in E. rewrite Qltb_ge. split.
    + intro H. left. apply Qle_lt_or_eq in H. destruct H as [H | H].
      * assumption.
      * exfalso. apply E. symmetry. assumption.
    + intros [H | [H _]]; [apply Qlt_le_weak; assumption | contradiction].
Qed.

(** Not being smaller is transitive: [operator<] is a strict total order. *)
Lemma ClosePhoton_ge_trans (a b c : ClosePhoton) :
  ClosePhoton_lt a b = false -> ClosePhoton_lt b c = false ->
  ClosePhoton_lt a c = false.
Proof.
  rewrite !ClosePhoton_lt_false.
  intros [H1 | [H1 H1']] [H2 | [H2 H2']].
  - left. lra.
  - left. lra.
  - left. lra.
  - right. split; [lra | lia].
Qed.

Lemma ClosePhoton_lt_asym (a b : ClosePhoton) :
  ClosePhoton_lt a b = true -> ClosePhoton_lt b a = false.
Proof.
  rewrite ClosePhoton_lt_true, ClosePhoton_lt_false.
  intros [H | [H H']]; [left; assumption | right; split; [lra | lia]].
Qed.

Lemma ClosePhoton_ge_refl (a : ClosePhoton) : ClosePhoton_lt a a = false.
Proof.
  rewrite ClosePhoton_lt_false. right. split; [lra | lia].
Qed.

Lemma ClosePhoton_ge_dist (a b : ClosePhoton) :
  ClosePhoton_lt a b = false -> (distanceSquared b <= distanceSquared a)%Q.
Proof.
  rewrite ClosePhoton_lt_false. intros [H | [H _]]; lra.
Qed.

(** ** Heaps *)

(** The first element of a heap is not smaller than any other. *)
Lemma is_heap_front (l : list ClosePhoton) (x : ClosePhoton) :
  is_heap (x :: l) -> forall y, In y (x :: l) -> ClosePhoton_lt x y = false.
Proof.
  intros Hh y Hy. apply In_nth_error in Hy. destruct Hy as [i Hi].
  revert y Hi. induction i as [i IH] using lt_wf_ind. intros y Hi.
  destruct (Nat.eq_dec i 0) as [-> | Hne].
  - simpl in Hi. injection Hi as <-. apply ClosePhoton_ge_refl.
  - assert (Hpar : ((i - 1) / 2 < i)%nat).
    { apply Nat.le_lt_trans with (i - 1)%nat; [|lia].
      apply Nat.Div0.div_le_upper_bound. lia. }
    assert (Hlen : (i < length (x :: l))%nat).
    { apply nth_error_Some. rewrite Hi. discriminate. }
    destruct (nth_error (x :: l) ((i - 1) / 2)) as [a|] eqn:Ea.
    + apply ClosePhoton_ge_trans with a.
      * apply (IH _ Hpar a Ea).
      * apply (Hh i a y); [lia | assumption | assumption].
    + apply nth_error_None in Ea. lia.
Qed.

Lemma StronglySorted_nth_error (R : ClosePhoton -> ClosePhoton -> Prop)
    (l : list ClosePhoton) :
  StronglySorted R l ->
  forall i j a b, (i < j)%nat ->
    nth_error l i = Some a -> nth_error l j = Some b -> R a b.
Proof.
  induction 1 as [|x l Hs IH Hx]; intros i j a b Hij Ha Hb.
  - destruct i; discriminate.
  - destruct j as [|j]; [lia|]. simpl in Hb. destruct i as [|i].
    + simpl in Ha. injection Ha as <-.
      rewrite Forall_forall in Hx. apply Hx.
      apply nth_error_In with j. assumption.
    + simpl in Ha. apply (IH i j); [lia | assumption | assumption].
Qed.

Definition descending (l : list ClosePhoton) : Prop :=
  StronglySorted (fun a b => ClosePhoton_lt a b = false) l.

Lemma descending_is_heap (l : list ClosePhoton) : descending l -> is_heap l.
Proof.
  intros Hs i a b Hi Ha Hb.
  apply (StronglySorted_nth_error Hs) with ((i - 1) / 2)%nat i; try assumption.
  apply Nat.le_lt_trans with (i - 1)%nat; [|lia].
  apply Nat.Div0.div_le_upper_bound. lia.
Qed.

Lemma insert_desc_perm (x : ClosePhoton) (l : list ClosePhoton) :
  Permutation (insert_desc x l) (x :: l).
Proof.
  induction l as [|y l IH]; simpl.
  - apply Permutation_refl.
  - destruct (ClosePhoton_lt y x).
    + apply Permutation_refl.
    + apply perm_trans with (y :: x :: l).
      * apply perm_skip. assumption.
      * apply perm_swap.
Qed.

Lemma sort_desc_perm (l : list ClosePhoton) : Permutation (sort_desc l) l.
Proof.
  induction l as [|x l IH]; simpl.
  - apply perm_nil.
  - apply perm_trans with (x :: sort_desc l).
    + apply insert_desc_perm.
    + apply perm_skip. assumption.
Qed.

Lemma insert_desc_descending (x : ClosePhoton) (l : list ClosePhoton) :
  descending l -> descending (insert_desc x l).
Proof.
  unfold descending. induction 1 as [|y l Hs IH Hy]; simpl.
  - constructor; constructor.
  - destruct (ClosePhoton_lt y x) eqn:E.
    + constructor.
      * constructor; assumption.
      * constructor.
        -- apply ClosePhoton_lt_asym. assumption.
        -- rewrite Forall_forall in *. intros z Hz.
           apply ClosePhoton_ge_trans with y.
           ++ apply ClosePhoton_lt_asym. assumption.
           ++ apply Hy. assumption.
    + constructor.
      * assumption.
      * rewrite Forall_forall in *. intros z Hz.
        apply (Permutation_in _ (insert_desc_perm x l)) in Hz.
        destruct Hz as [<- | Hz]; [assumption | apply Hy; assumption].
Qed.

Lemma sort_desc_descending (l : list ClosePhoton) : descending (sort_desc l).
Proof.
  induction l as [|x l IH]; simpl.
  - constructor.
  - apply insert_desc_descending. assumption.
Qed.

Lemma sorting_pop_heap_spec (x : ClosePhoton) (l : list ClosePhoton) :
  is_heap (x :: l) ->
  exists rest, sorting_pop_heap (x :: l) = rest ++ [x]
               /\ Permutation rest l /\ is_heap rest.
Proof.
  intros _. exists (sort_desc l). split; [reflexivity|]. split.
  - apply sort_desc_perm.
  - apply descending_is_heap, sort_desc_descending.
Qed.

(** The sorting library as an instance of the contracts. *)
#[export] Instance sorting_heap : StlHeap := {|
  make_heap := sort_desc;
  pop_heap := sorting_pop_heap;
  push_heap := sort_desc;
  make_heap_perm := sort_desc_perm;
  make_heap_heap := fun l => descending_is_heap (sort_desc_descending l);
  pop_heap_spec := sorting_pop_heap_spec;
  push_heap_perm := fun l x _ => sort_desc_perm (l ++ [x]);
  push_heap_heap := fun l x _ =>
    descending_is_heap (sort_desc_descending (l ++ [x]))
|}.

(** ** The bounded neighbour collector under the query of the map *)

Section CollectorProperties.
Context {heap : StlHeap}.

(** What holds of a collector with bound [k] on a query that started with
    radius [md0] and has met the candidates [seen]. *)
Definition collecting (k : nat) (md0 : Q) (seen : list ClosePhoton)
    (proc : PhotonProcess) (r : Q) : Prop :=
  nLookup proc = k
  /\ length (photons proc) = foundPhotons proc
  /\ foundPhotons proc <= k
  /\ (r <= md0)%Q
  /\ (forall x, In x (photons proc) -> (distanceSquared x < md0)%Q)
  /\ exists others,
       Permutation (photons proc ++ others) (within md0 seen)
       /\ (forall y, In y others -> (r <= distanceSquared y)%Q)
       /\ (foundPhotons proc < k -> r = md0 /\ others = [])
       /\ (foundPhotons proc = k ->
           is_heap (photons proc) /\ r = front_distance (photons proc) md0).

Lemma within_app (md0 : Q) (l1 l2 : list ClosePhoton) :
  within md0 (l1 ++ l2) = within md0 l1 ++ within md0 l2.
Proof. apply filter_app. Qed.

Lemma front_distance_In (l : list ClosePhoton) (q : Q) :
  l <> [] -> exists x, In x l /\ front_distance l q = distanceSquared x.
Proof.
  destruct l as [|x l]; [congruence|]. intros _. exists x. split.
  - left. reflexivity.
  - reflexivity.
Qed.

Lemma front_distance_indep (l : list ClosePhoton) (q q' : Q) :
  l <> [] -> front_distance l q = front_distance l q'.
Proof. destruct l; [congruence | reflexivity]. Qed.

Lemma collecting_start (k : nat) (md0 : Q) :
  1 <= k -> collecting k md0 [] (PhotonProcess_new k) md0.
Proof.
  intro Hk. unfold collecting. simpl.
  repeat split; try lia; try lra; try contradiction.
  exists []. simpl. repeat split; try (intros; lia); try contradiction.
  apply perm_nil.
Qed.

(** One candidate met by the query: the invariant is kept and the radius
    does not grow. *)
Lemma collecting_step (k : nat) (md0 : Q) (seen : list ClosePhoton)
    (proc : PhotonProcess) (r : Q) (c : ClosePhoton) :
  1 <= k -> collecting k md0 seen proc r ->
  let '(proc', r') := Lookup_candidates [c] proc r in
  collecting k md0 (seen ++ [c]) proc' r' /\ (r' <= r)%Q.
Proof.
  intros Hk (Hn & Hlen & Hle & Hr & Hin & others & Hperm & Hfar & Hpart & Hfull).
  cbn [Lookup_candidates]. unfold collecting.
  rewrite within_app. cbn [within filter].
  destruct (Qltb (distanceSquared c) r) eqn:Ecr.
  2:{ (* the candidate is not below the radius *)
    apply Qltb_ge in Ecr. split; [|lra].
    repeat (split; [assumption|]).
    destruct (Qltb (distanceSquared c) md0) eqn:Ec0.
    - exists (others ++ [c]). split; [|split; [|split]].
      + rewrite app_assoc. apply Permutation_app_tail. assumption.
      + intros y Hy. apply in_app_or in Hy. destruct Hy as [Hy | [<- | []]].
        * apply Hfar. assumption.
        * assumption.
      + intro Hlt. destruct (Hpart Hlt) as [-> _].
        apply Qltb_lt in Ec0. lra.
      + assumption.
    - exists others. rewrite app_nil_r. repeat (split; [assumption|]).
      assumption. }
  apply Qltb_lt in Ecr.
  assert (Ec0 : Qltb (distanceSquared c) md0 = true) by (apply Qltb_lt; lra).
  rewrite Ec0.
  assert (Hc : mkClosePhoton (photon c) (distanceSquared c) = c)
    by (destruct c; reflexivity).
  unfold PhotonProcess_call. rewrite Hc, Hn.
  destruct (foundPhotons proc <? k) eqn:Efk.
  - (* the array is not full yet *)
    apply Nat.ltb_lt in Efk. destruct (Hpart Efk) as [-> ->].
    rewrite app_nil_r in Hperm.
    rewrite <- Hlen, firstn_all.
    assert (Hperm' : Permutation (photons proc ++ [c])
                       (within md0 seen ++ [c]))
      by (apply Permutation_app_tail; assumption).
    assert (Hin' : forall x, In x (photons proc ++ [c]) ->
                     (distanceSquared x < md0)%Q).
    { intros x Hx. apply in_app_or in Hx. destruct Hx as [Hx | [<- | []]].
      - apply Hin. assumption.
      - lra. }
    destruct (S (length (photons proc)) =? k) eqn:Esk.
    + apply Nat.eqb_eq in Esk.
      assert (Hfirst : firstn k (photons proc ++ [c]) = photons proc ++ [c]).
      { rewrite <- Esk. replace (S (length (photons proc)))
          with (length (photons proc ++ [c]))
          by (rewrite length_app; simpl; lia).
        apply firstn_all. }
      rewrite Hfirst.
      pose proof (make_heap_perm (photons proc ++ [c])) as Hmp.
      assert (Hne : make_heap (photons proc ++ [c]) <> []).
      { intro E. rewrite E in Hmp. apply Permutation_nil in Hmp.
        destruct (photons proc); discriminate. }
      destruct (front_distance_In md0 Hne) as (top & Htop & Etop).
      assert (Htop' : (distanceSquared top < md0)%Q).
      { apply Hin'. apply (Permutation_in _ Hmp). assumption. }
      cbn. rewrite Etop. split; [|lra].
      split; [reflexivity|]. split.
      { rewrite (Permutation_length Hmp), length_app. simpl. lia. }
      split; [lia|]. split; [lra|]. split.
      { intros x Hx. apply Hin'. apply (Permutation_in _ Hmp). assumption. }
      exists []. rewrite app_nil_r. split; [|split; [|split]].
      * apply perm_trans with (photons proc ++ [c]); assumption.
      * intros y [].
      * intro Hlt. lia.
      * intros _. split; [apply make_heap_heap | reflexivity].
    + apply Nat.eqb_neq in Esk.
      cbn. split; [|lra].
      split; [reflexivity|]. split; [rewrite length_app; simpl; lia|].
      split; [lia|]. split; [lra|]. split; [assumption|].
      exists []. rewrite app_nil_r. split; [|split; [|split]].
      * assumption.
      * intros y [].
      * intros _. split; reflexivity.
      * intro E. lia.
  - (* the array is full: the farthest entry makes room *)
    apply Nat.ltb_ge in Efk.
    assert (Efull : foundPhotons proc = k) by lia.
    destruct (Hfull Efull) as [Hheap Er].
    rewrite <- Efull, <- Hlen, firstn_all.
    destruct (photons proc) as [|x l] eqn:Eph.
    { simpl in Hlen. lia. }
    simpl in Er.
    destruct (pop_heap_spec Hheap) as (rest & Epop & Hrest & Hrheap).
    rewrite Epop, removelast_last.
    pose proof (push_heap_perm c Hrheap) as Hpp.
    pose proof (push_heap_heap c Hrheap) as Hph.
    assert (Hne : push_heap (rest ++ [c]) <> []).
    { intro E. rewrite E in Hpp. apply Permutation_nil in Hpp.
      destruct rest; discriminate. }
    assert (Hold : forall y, In y (x :: l) -> (distanceSquared y <= r)%Q).
    { intros y Hy. rewrite Er. apply ClosePhoton_ge_dist.
      apply (is_heap_front Hheap). assumption. }
    assert (Hnew : forall y, In y (push_heap (rest ++ [c])) ->
               (distanceSquared y <= r)%Q /\ (distanceSquared y < md0)%Q).
    { intros y Hy. apply (Permutation_in _ Hpp) in Hy.
      apply in_app_or in Hy. destruct Hy as [Hy | [<- | []]].
      - apply (Permutation_in _ Hrest) in Hy. split.
        + apply Hold. right. assumption.
        + apply Hin. right. assumption.
      - split; lra. }
    destruct (front_distance_In md0 Hne) as (top & Htop & Etop).
    rewrite (front_distance_indep r md0 Hne), Etop.
    destruct (Hnew top Htop) as [Htop1 Htop2].
    cbn. split; [|assumption].
    split; [reflexivity|]. split.
    { rewrite (Permutation_length Hpp), length_app,
        (Permutation_length Hrest). simpl in *. lia. }
    split; [lia|]. split; [lra|]. split.
    { intros y Hy. apply Hnew. assumption. }
    exists (others ++ [x]). split; [|split; [|split]].
    + rewrite app_assoc. apply perm_trans with ((x :: l) ++ others ++ [c]).
      * apply perm_trans with ((rest ++ [c]) ++ others ++ [x]).
        { rewrite <- app_assoc. apply Permutation_app_tail. assumption. }
        apply perm_trans with ((rest ++ [x]) ++ others ++ [c]).
        { rewrite <- !app_assoc. apply Permutation_app_head. simpl.
          apply perm_trans with (c :: x :: others).
          - apply perm_skip. apply Permutation_sym, Permutation_cons_append.
          - apply perm_trans with (x :: c :: others); [apply perm_swap|].
            apply perm_skip. apply Permutation_cons_append. }
        apply Permutation_app_tail.
        apply perm_trans with (x :: rest).
        { apply Permutation_sym, Permutation_cons_append. }
        apply perm_skip. assumption.
      * rewrite app_assoc. apply Permutation_app_tail. assumption.
    + intros y Hy. apply in_app_or in Hy. destruct Hy as [Hy | [<- | []]].
      * specialize (Hfar y Hy). lra.
      * rewrite <- Er. assumption.
    + intro Hlt. lia.
    + intros _. split; [assumption|]. symmetry. assumption.
Qed.

Lemma Lookup_candidates_app (cs1 cs2 : list ClosePhoton)
    (proc : PhotonProcess) (r : Q) :
  Lookup_candidates (cs1 ++ cs2) proc r =
  Lookup_candidates cs2 (fst (Lookup_candidates cs1 proc r))
    (snd (Lookup_candidates cs1 proc r)).
Proof.
  revert proc r. induction cs1 as [|c cs1 IH]; intros proc r.
  - reflexivity.
  - cbn [app Lookup_candidates].
    destruct (Qltb (distanceSquared c) r).
    + destruct (PhotonProcess_call proc (photon c) (distanceSquared c) r).
      apply IH.
    + apply IH.
Qed.

(** The whole query: the invariant holds at its end and the radius has not
    grown. *)
Lemma collecting_run (k : nat) (md0 : Q) (cs seen : list ClosePhoton)
    (proc : PhotonProcess) (r : Q) :
  1 <= k -> collecting k md0 seen proc r ->
  collecting k md0 (seen ++ cs) (fst (Lookup_candidates cs proc r))
    (snd (Lookup_candidates cs proc r))
  /\ (snd (Lookup_candidates cs proc r) <= r)%Q.
Proof.
  intro Hk. revert seen proc r.
  induction cs as [|c cs IH]; intros seen proc r Hinv.
  - rewrite app_nil_r. split; [assumption | apply Qle_refl].
  - change (c :: cs) with ([c] ++ cs).
    rewrite Lookup_candidates_app, app_assoc.
    pose proof (collecting_step c Hk Hinv) as Hstep.
    destruct (Lookup_candidates [c] proc r) as [proc' r'].
    destruct Hstep as [Hinv' Hle]. cbn [fst snd].
    destruct (IH _ _ _ Hinv') as [Hfin Hle']. split; [assumption | lra].
Qed.

(** C2, as amended: a [PhotonProcess] collector with bound [k >= 1], driven
    by the query of the map (which hands it a candidate only when the
    candidate's squared distance is below the current search radius), ends
    with exactly [k] nearest of the candidates lying within the initial
    radius (all of them when there are fewer than [k]); its count never
    exceeds [k]; once [k] such candidates have been met the reported radius
    is the squared distance of the farthest retained candidate; and the
    reported radius never grows along the query. *)
Theorem collector_keeps_nearest (k : nat) (md2 : Q) (cs : list ClosePhoton)
    (proc : PhotonProcess) (r : Q) :
  1 <= k ->
  Lookup_candidates cs (PhotonProcess_new k) md2 = (proc, r) ->
  foundPhotons proc <= k
  /\ length (photons proc) = foundPhotons proc
  /\ nearest k (within md2 cs) (photons proc)
  /\ (k <= length (within md2 cs) -> farthest_distance (photons proc) r)
  /\ (forall cs1 cs2, cs = cs1 ++ cs2 ->
       (r <= snd (Lookup_candidates cs1 (PhotonProcess_new k) md2))%Q).
Proof.
  intros Hk Hrun.
  destruct (collecting_run cs Hk (collecting_start md2 Hk)) as [Hinv _].
  rewrite Hrun in Hinv. cbn [fst snd app] in Hinv.
  destruct Hinv as (Hn & Hlen & Hle & Hr & Hin & others & Hperm & Hfar
                    & Hpart & Hfull).
  assert (Hcount : length (photons proc) + length others
                   = length (within md2 cs)).
  { rewrite <- length_app. apply Permutation_length. assumption. }
  split; [assumption|]. split; [assumption|]. split; [|split].
  - split.
    + destruct (Nat.eq_dec (foundPhotons proc) k) as [E | E].
      * lia.
      * destruct Hpart as [_ ->]; [lia|]. simpl in Hcount. lia.
    + exists others. split; [assumption|]. intros x y Hx Hy.
      destruct (Nat.eq_dec (foundPhotons proc) k) as [E | E].
      * destruct (Hfull E) as [Hheap Er].
        destruct (photons proc) as [|top l]; [contradiction|].
        simpl in Er. specialize (Hfar y Hy).
        pose proof (ClosePhoton_ge_dist _ _ (is_heap_front Hheap Hx)).
        rewrite Er in Hfar. lra.
      * destruct Hpart as [_ ->]; [lia|]. contradiction.
  - intro Hmany.
    assert (E : foundPhotons proc = k).
    { destruct (Nat.eq_dec (foundPhotons proc) k) as [E | E]; [assumption|].
      destruct Hpart as [_ ->]; [lia|]. simpl in Hcount. lia. }
    destruct (Hfull E) as [Hheap Er].
    destruct (photons proc) as [|top l]; [simpl in Hlen; lia|].
    simpl in Er. split.
    + exists top. split; [left; reflexivity | symmetry; assumption].
    + intros x Hx. rewrite Er. apply ClosePhoton_ge_dist.
      apply (is_heap_front Hheap). assumption.
  - intros cs1 cs2 ->. rewrite Lookup_candidates_app in Hrun.
    destruct (collecting_run cs1 Hk (collecting_start md2 Hk)) as [Hinv1 _].
    destruct (collecting_run cs2 Hk Hinv1) as [_ Hmono].
    rewrite Hrun in Hmono. assumption.
Qed.

End CollectorProperties.

Lemma collector_keeps_nearest_witness :
  let cs := [mkClosePhoton 0 4; mkClosePhoton 1 12; mkClosePhoton 2 1;
             mkClosePhoton 3 3; mkClosePhoton 4 (1 # 2)] in
  let kept := [mkClosePhoton 2 1; mkClosePhoton 4 (1 # 2)] in
  nearest 2 (within 10 cs) kept /\ farthest_distance kept 1.
Proof.
  intros cs kept.
  assert (Hk : 1 <= 2) by lia.
  assert (Hrun : Lookup_candidates cs (PhotonProcess_new 2) 10
                 = (mkPhotonProcess kept 2 2, 1%Q)) by (vm_compute; reflexivity).
  destruct (@collector_keeps_nearest _ 2 10 cs _ _ Hk Hrun) as (_ & _ & Hn & Hf & _).
  split; [exact Hn|]. apply Hf. vm_compute. lia.
Defined.

(** C2, as stated, fails on the collector alone: fed a candidate farther
    than the one it holds, a collector with bound 1 drops the nearer one
    and reports a larger radius. *)
Lemma collector_alone_counterexample :
  let cs := [mkClosePhoton 0 1; mkClosePhoton 1 5] in
  feed cs (PhotonProcess_new 1) 10
  = (mkPhotonProcess [mkClosePhoton 1 5] 1 1, 5%Q)
  /\ ~ nearest 1 cs [mkClosePhoton 1 5]
  /\ snd (feed [mkClosePhoton 0 1] (PhotonProcess_new 1) 10) = 1%Q.
Proof.
  split; [vm_compute; reflexivity|]. split; [|vm_compute; reflexivity].
  intros (_ & others & Hperm & Hall).
  assert (Hin : In (mkClosePhoton 0 1) ([mkClosePhoton 1 5] ++ others)).
  { apply (Permutation_in _ (Permutation_sym Hperm)). left. reflexivity. }
  destruct Hin as [E | Hin]; [discriminate|].
  specialize (Hall (mkClosePhoton 1 5) (mkClosePhoton 0 1)
                (or_introl eq_refl) Hin).
  simpl in Hall. lra.
Qed.

(** ** The radiance-photon lookup *)

Section RadianceLookup.
Variable pt : Point.
Variable n : Normal.
Variable md0 : option Q.

Let D (rp : RadiancePhoton) : Q := DistanceSquared (rp_p rp) pt.

(** What holds of the lookup after the nodes [seen]. *)
Definition looking (seen : list RadiancePhoton)
    (proc : RadiancePhotonProcess) (r : option Q) : Prop :=
  rpp_n proc = n
  /\ match rpp_photon proc with
     | Some i =>
         exists rp, nth_error seen i = Some rp
           /\ (0 < Dot (rp_n rp) n)%Q
           /\ below (D rp) md0 = true
           /\ r = Some (D rp)
           /\ forall rp', In rp' seen -> (0 < Dot (rp_n rp') n)%Q ->
                below (D rp') md0 = true -> (D rp <= D rp')%Q
     | None =>
         r = md0
         /\ forall rp', In rp' seen -> (0 < Dot (rp_n rp') n)%Q ->
              below (D rp') md0 = false
     end.

Lemma below_trans (a b : Q) :
  (a < b)%Q -> below b md0 = true -> below a md0 = true.
Proof.
  unfold below. destruct md0 as [m|]; [|reflexivity].
  rewrite !Qltb_lt. intros. lra.
Qed.

Lemma looking_run (rest seen : list RadiancePhoton)
    (proc : RadiancePhotonProcess) (r : option Q) :
  looking seen proc r ->
  looking (seen ++ rest)
    (fst (Lookup_Radiance_from (length seen) rest pt proc r))
    (snd (Lookup_Radiance_from (length seen) rest pt proc r)).
Proof.
  revert seen proc r.
  induction rest as [|rp' rest IH]; intros seen proc r Hinv.
  - rewrite app_nil_r. assumption.
  - cbn [Lookup_Radiance_from].
    replace (seen ++ rp' :: rest) with ((seen ++ [rp']) ++ rest)
      by (rewrite <- app_assoc; reflexivity).
    replace (S (length seen)) with (length (seen ++ [rp']))
      by (rewrite length_app; simpl; lia).
    fold (D rp').
    destruct Hinv as [Hn Hinv].
    destruct (below (D rp') r) eqn:Ebelow.
    + unfold RadiancePhotonProcess_call. rewrite Hn.
      destruct (Qltb 0 (Dot (rp_n rp') n)) eqn:Eacc.
      * (* accepted: the candidate replaces the one held *)
        apply Qltb_lt in Eacc. apply IH. split; [reflexivity|].
        cbn [rpp_photon]. exists rp'.
        assert (Hwithin : below (D rp') md0 = true).
        { destruct (rpp_photon proc) as [i|].
          - destruct Hinv as (rp & _ & _ & Hb & -> & _).
            simpl in Ebelow. apply Qltb_lt in Ebelow.
            apply below_trans with (D rp); assumption.
          - destruct Hinv as [-> _]. assumption. }
        split; [|split; [|split; [|split]]].
        -- rewrite nth_error_app2 by lia. rewrite Nat.sub_diag. reflexivity.
        -- assumption.
        -- assumption.
        -- reflexivity.
        -- intros rp'' Hin Hacc Hb. apply in_app_or in Hin.
           destruct Hin as [Hin | [<- | []]]; [|apply Qle_refl].
           destruct (rpp_photon proc) as [i|].
           ++ destruct Hinv as (rp & _ & _ & _ & -> & Hmin).
              simpl in Ebelow. apply Qltb_lt in Ebelow.
              specialize (Hmin rp'' Hin Hacc Hb). lra.
           ++ destruct Hinv as [_ Hnone].
              rewrite (Hnone rp'' Hin Hacc) in Hb. discriminate.
      * (* rejected by the normal test *)
        apply Qltb_ge in Eacc. apply IH. split; [assumption|].
        destruct (rpp_photon proc) as [i|].
        -- destruct Hinv as (rp & Hi & Hacc & Hb & Hr & Hmin).
           exists rp. split; [|split; [|split; [|split]]]; try assumption.
           ++ rewrite nth_error_app1; [assumption|].
              apply nth_error_Some. rewrite Hi. discriminate.
           ++ intros rp'' Hin Hacc' Hb'. apply in_app_or in Hin.
              destruct Hin as [Hin | [<- | []]]; [|lra].
              apply Hmin; assumption.
        -- destruct Hinv as [Hr Hnone]. split; [assumption|].
           intros rp'' Hin Hacc'. apply in_app_or in Hin.
           destruct Hin as [Hin | [<- | []]]; [|lra].
           apply Hnone; assumption.
    + (* not below the current radius: the callback is not run *)
      apply IH. split; [assumption|].
      destruct (rpp_photon proc) as [i|].
      * destruct Hinv as (rp & Hi & Hacc & Hb & Hr & Hmin).
        exists rp. split; [|split; [|split; [|split]]]; try assumption.
        -- rewrite nth_error_app1; [assumption|].
           apply nth_error_Some. rewrite Hi. discriminate.
        -- intros rp'' Hin Hacc' Hb'. apply in_app_or in Hin.
           destruct Hin as [Hin | [<- | []]].
           ++ apply Hmin; assumption.
           ++ rewrite Hr in Ebelow. simpl in Ebelow.
              apply Qltb_ge in Ebelow. assumption.
      * destruct Hinv as [Hr Hnone]. split; [assumption|].
        intros rp'' Hin Hacc'. apply in_app_or in Hin.
        destruct Hin as [Hin | [<- | []]].
        -- apply Hnone; assumption.
        -- rewrite Hr in Ebelow. assumption.
Qed.

End RadianceLookup.

(** C9, as amended: in the radiance-photon lookup a candidate is accepted
    exactly when the dot product of its stored normal with the query normal
    is strictly positive; an accepted candidate becomes the one retained and
    the search radius shrinks to its squared distance; at the end of the
    lookup the one candidate retained is a nearest accepted candidate within
    the initial radius, the reported radius is its squared distance, and
    nothing is retained when no candidate within the radius is accepted. *)
Theorem radiance_lookup_nearest_accepted (nodes : KdTree RadiancePhoton)
    (pt : Point) (n : Normal) (md0 : option Q) :
  (forall q ptr rp dist2 md2,
      (0 < Dot (rp_n rp) (rpp_n q))%Q ->
      RadiancePhotonProcess_call q ptr rp dist2 md2
      = (mkRadiancePhotonProcess (rpp_n q) (Some ptr), Some dist2))
  /\ (forall q ptr rp dist2 md2,
      ~ (0 < Dot (rp_n rp) (rpp_n q))%Q ->
      RadiancePhotonProcess_call q ptr rp dist2 md2 = (q, md2))
  /\ let res := Lookup_Radiance nodes pt (RadiancePhotonProcess_new n) md0 in
     match rpp_photon (fst res) with
     | Some i =>
         exists rp, nth_error nodes i = Some rp
           /\ (0 < Dot (rp_n rp) n)%Q
           /\ below (DistanceSquared (rp_p rp) pt) md0 = true
           /\ snd res = Some (DistanceSquared (rp_p rp) pt)
           /\ forall rp', In rp' nodes -> (0 < Dot (rp_n rp') n)%Q ->
                below (DistanceSquared (rp_p rp') pt) md0 = true ->
                (DistanceSquared (rp_p rp) pt
                 <= DistanceSquared (rp_p rp') pt)%Q
     | None =>
         snd res = md0
         /\ forall rp', In rp' nodes -> (0 < Dot (rp_n rp') n)%Q ->
              below (DistanceSquared (rp_p rp') pt) md0 = false
     end.
Proof.
  split; [|split].
  - intros q ptr rp dist2 md2 H. unfold RadiancePhotonProcess_call.
    apply Qltb_lt in H. rewrite H. reflexivity.
  - intros q ptr rp dist2 md2 H. unfold RadiancePhotonProcess_call.
    destruct (Qltb 0 (Dot (rp_n rp) (rpp_n q))) eqn:E; [|reflexivity].
    apply Qltb_lt in E. contradiction.
  - intro res.
    assert (Hstart : looking pt n md0 [] (RadiancePhotonProcess_new n) md0).
    { split; [reflexivity|]. simpl. split; [reflexivity|].
      intros rp' []. }
    pose proof (looking_run nodes Hstart) as Hend.
    simpl in Hend. destruct Hend as [_ Hend]. exact Hend.
Qed.

(** C9, as stated, fails for a candidate whose normal is perpendicular to
    the query normal: the dot product is zero, which is non-negative, and
    the candidate is not accepted. *)
Lemma radiance_perpendicular_counterexample :
  let rp := RadiancePhoton_new (mkV3 0 0 0) (mkV3 1 0 0) in
  let n := mkV3 0 1 0 in
  (0 <= Dot (rp_n rp) n)%Q
  /\ Lookup_Radiance [rp] (mkV3 0 0 0) (RadiancePhotonProcess_new n) None
     = (RadiancePhotonProcess_new n, None).
Proof.
  split; [vm_compute; discriminate | vm_compute; reflexivity].
Qed.

(** ** Medium interactions in [TraceThrough] *)

Lemma deposit_done (target : nat) (shot : Z) (ph : Photon) (c : PhotonStore) :
  st_done c = true -> deposit target shot ph c = c.
Proof. intro H. unfold deposit. rewrite H. reflexivity. Qed.

Lemma deposit_pending (target : nat) (shot : Z) (ph : Photon)
    (c : PhotonStore) :
  st_done c = false -> st_photons (deposit target shot ph c) = st_photons c ++ [ph].
Proof.
  intro H. unfold deposit. rewrite H. simpl.
  destruct (length (st_photons c ++ [ph]) =? target); reflexivity.
Qed.






(** ** The path loop: the specular-only flag and the surface deposits *)

Lemma TraceThrough_reached (cfg : Config) (scene : Scene) (seg : Segment)
    (ray ray' : Ray) (isect : Intersection) (alpha alpha' : Spectrum)
    (shot : Z) (vol vol' : PhotonStore) :
  TraceThrough cfg scene (seg_trace seg) ray (seg_isect seg) alpha shot vol
  = (true, ray', isect, alpha', vol') ->
  isect = surface_hit scene seg.
Proof.
  unfold TraceThrough, surface_hit.
  destruct (negb (volumeRegion scene)); [congruence|].
  destruct (tr_front (seg_trace seg)); [congruence|].
  destruct (TraceThrough_loop cfg shot (tr_steps (seg_trace seg))
              (mkRay (o ray) (d ray)) ray alpha vol)
    as [[[[fellOut marchRay] ray1] alpha1] vol1].
  destruct fellOut; [|congruence].
  destruct (tr_Intersect (seg_trace seg)); congruence.
Qed.

(** The state an iteration leaves when [TraceThrough] has reached the
    surface. *)
Lemma bounce_reached (cfg : Config) (scene : Scene) (st : State)
    (ps : PathState) (seg : Segment) (ray : Ray) (isect : Intersection)
    (alpha : Spectrum) (vol : PhotonStore) :
  TraceThrough cfg scene (seg_trace seg) (photonRay ps) (seg_isect seg)
    (path_alpha ps) (to_int (nshot st)) (volume st) = (true, ray, isect, alpha, vol) ->
  fst (bounce cfg scene st ps seg)
  = if hasNonSpecular (GetBSDF isect) then
      deposit_at_surface cfg (set_volume vol st) ray isect
        (Smul alpha (seg_Transmittance seg)) (specularPath ps)
        (S (nIntersections ps)) (seg_RandomFloat_rp seg)
    else set_volume vol st.
Proof.
  intro H. unfold bounce. rewrite H. cbn [negb].
  destruct (Black (Sample_f_fr (GetBSDF isect))
            || Qeq_bool (Sample_f_pdf (GetBSDF isect)) 0); [reflexivity|].
  match goal with
  | |- context [if ?c then (_, None) else _] => destruct c; reflexivity
  end.
Qed.

Lemma bounce_flag (cfg : Config) (scene : Scene) (st st' : State)
    (ps ps' : PathState) (seg : Segment) :
  bounce cfg scene st ps seg = (st', Some ps') ->
  nIntersections ps' = S (nIntersections ps)
  /\ specularPath ps'
     = ((nIntersections ps' =? 1) || specularPath ps)
       && sampled_specular scene seg.
Proof.
  unfold bounce, sampled_specular.
  destruct (TraceThrough cfg scene (seg_trace seg) (photonRay ps)
              (seg_isect seg) (path_alpha ps) (to_int (nshot st)) (volume st))
    as [[[[reached ray] isect] alpha] vol] eqn:ET.
  destruct reached; cbn [negb]; [|discriminate].
  rewrite <- (TraceThrough_reached _ _ _ _ _ _ _ ET).
  destruct (Black (Sample_f_fr (GetBSDF isect))
            || Qeq_bool (Sample_f_pdf (GetBSDF isect)) 0); [discriminate|].
  match goal with
  | |- context [if ?c then (_, None) else _] => destruct c; [discriminate|]
  end.
  intro H. injection H as _ <-. split; reflexivity.
Qed.

Lemma advance_flag (cfg : Config) (scene : Scene) (segs : list Segment) :
  forall st ps st' ps',
    advance cfg scene segs st ps = Some (st', ps') ->
    nIntersections ps' = nIntersections ps + length segs
    /\ (1 <= nIntersections ps ->
        specularPath ps'
        = specularPath ps && forallb (sampled_specular scene) segs).
Proof.
  induction segs as [|seg rest IH]; intros st ps st' ps' H.
  - injection H as _ <-. simpl. split; [lia|]. intros _.
    rewrite andb_true_r. reflexivity.
  - cbn [advance] in H.
    destruct (bounce cfg scene st ps seg) as [st1 [ps1|]] eqn:EB;
      [|discriminate].
    destruct (bounce_flag _ _ _ _ _ EB) as [Hn Hf].
    destruct (IH _ _ _ _ H) as [Hn' Hf']. split.
    + rewrite Hn', Hn. simpl. lia.
    + intro H1. rewrite Hf' by lia. rewrite Hf.
      replace (nIntersections ps1 =? 1) with false
        by (symmetry; apply Nat.eqb_neq; lia).
      cbn [forallb orb]. rewrite andb_assoc. reflexivity.
Qed.

Lemma advance_flag_start (cfg : Config) (scene : Scene)
    (segs : list Segment) (st st' : State) (ps ps' : PathState) :
  specularPath ps = false -> nIntersections ps = 0 ->
  advance cfg scene segs st ps = Some (st', ps') ->
  nIntersections ps' = length segs
  /\ specularPath ps'
     = negb (length segs =? 0) && forallb (sampled_specular scene) segs.
Proof.
  intros Hf Hn H. destruct segs as [|seg rest].
  - injection H as _ <-. split; [assumption|]. simpl. assumption.
  - cbn [advance] in H.
    destruct (bounce cfg scene st ps seg) as [st1 [ps1|]] eqn:EB;
      [|discriminate].
    destruct (bounce_flag _ _ _ _ _ EB) as [Hn1 Hf1].
    destruct (advance_flag _ _ _ _ _ H) as [Hn' Hf']. split.
    + rewrite Hn', Hn1, Hn. reflexivity.
    + rewrite Hf' by lia. rewrite Hf1, Hn1, Hn, Hf. reflexivity.
Qed.

(** C4, as amended: along every photon path the specular-only flag is
    false at the start; after each sampled bounce it is updated as
    (first-bounce OR previous flag) AND (sampled direction was specular);
    so after any number of sampled bounces it is true exactly when there
    was at least one and every one of them was specular. *)
Theorem specular_flag_rule (cfg : Config) (scene : Scene) :
  (forall shot st,
      shoot cfg scene shot st = st
      \/ exists ps0, specularPath ps0 = false /\ nIntersections ps0 = 0
           /\ shoot cfg scene shot st
              = walk cfg scene (shot_path shot) st ps0)
  /\ (forall st ps seg st' ps',
      bounce cfg scene st ps seg = (st', Some ps') ->
      specularPath ps'
      = ((nIntersections ps' =? 1) || specularPath ps)
        && sampled_specular scene seg)
  /\ (forall segs st ps st' ps',
      specularPath ps = false -> nIntersections ps = 0 ->
      advance cfg scene segs st ps = Some (st', ps') ->
      specularPath ps'
      = negb (length segs =? 0) && forallb (sampled_specular scene) segs).
Proof.
  split; [|split].
  - intros shot st. unfold shoot.
    destruct (Qeq_bool (Sample_L_pdf shot) 0 || Black (Sample_L_alpha shot));
      [left; reflexivity|].
    match goal with
    | |- context [if negb ?c then _ else _] => destruct c
    end; [left; reflexivity|].
    right. eexists. split; [|split]; [| |reflexivity]; reflexivity.
  - intros st ps seg st' ps' H. apply (bounce_flag _ _ _ _ _ H).
  - intros segs st ps st' ps' Hf Hn H.
    apply (advance_flag_start _ _ _ _ _ Hf Hn H).
Qed.

(** Sample answers used in the examples below: a scene without medium, a
    perfect mirror and a diffuse surface. *)
Definition vacuum : Scene := mkScene 1 false.
Definition mirror : BSDF :=
  mkBSDF 1 1 (Spectrum_of_float 1) (Spectrum_of_float 0) (mkV3 0 0 1)
    (Spectrum_of_float 1) (mkV3 0 0 1) 1 true.
Definition diffuse : BSDF :=
  mkBSDF 1 0 (Spectrum_of_float (1 # 2)) (Spectrum_of_float 0) (mkV3 0 0 1)
    (Spectrum_of_float 1) (mkV3 0 0 1) 1 false.
Definition segment_on (b : BSDF) : Segment :=
  mkSegment (mkIntersection (mkV3 0 0 0) (mkV3 0 0 1) b)
    (mkTraceScript false [] None) (Spectrum_of_float 1) (1 # 2) (1 # 2).
Definition sample_start : PathState :=
  mkPathState (mkRay (mkV3 0 0 1) (mkV3 0 0 (-1))) (Spectrum_of_float 1)
    false 0.

(** C4, as stated, fails on a path of two specular bounces: the flag is
    false at the start of the path, not true, and it is true after the
    second specular bounce, where the rule (previous AND first-bounce) AND
    specular gives false; started from false, that rule gives false after
    the first specular bounce already, where the flag is true. *)
Lemma specular_flag_counterexample :
  let cfg := mkConfig 1 1 0 1 1 false in
  let st := declare_locals cfg Surface_Init in
  let flag_after segs :=
    option_map (fun r => specularPath (snd r))
      (advance cfg vacuum segs st sample_start) in
  flag_after [] = Some false
  /\ spec_flag_start = true
  /\ flag_after [segment_on mirror] = Some true
  /\ spec_flag_update false true true = false
  /\ flag_after [segment_on mirror; segment_on mirror] = Some true
  /\ spec_flag_update (spec_flag_update spec_flag_start true true) false true
     = false.
Proof.
  repeat split; vm_compute; reflexivity.
Qed.

Lemma deposit_at_surface_sets (cfg : Config) (st : State) (ray : Ray)
    (isect : Intersection) (alpha : Spectrum) (flag : bool) (n : nat)
    (u : Q) :
  let photon_ := mkPhoton (dg_p isect) alpha (Neg (d ray)) in
  let st' := deposit_at_surface cfg st ray isect alpha flag n u in
  directPhotons st'
  = (if n =? 1 then directPhotons st ++ [photon_] else directPhotons st)
  /\ caustic st'
     = (if n =? 1 then caustic st
        else if flag
             then deposit (nCausticPhotons cfg) (to_int (nshot st)) photon_ (caustic st)
             else caustic st)
  /\ indirect st'
     = (if n =? 1 then indirect st
        else if flag then indirect st
             else deposit (nIndirectPhotons cfg) (to_int (nshot st)) photon_
                    (indirect st))
  /\ volume st' = volume st
  /\ nshot st' = nshot st
  /\ radianceMap st' = radianceMap st
  /\ alreadyPreprocessed st' = alreadyPreprocessed st.
Proof.
  cbv zeta. unfold deposit_at_surface.
  destruct (finalGather cfg && Qltb u 0.125);
    destruct (n =? 1); destruct flag; cbn; repeat split; reflexivity.
Qed.

(** C3, as amended: during photon shooting a photon is deposited at a
    surface intersection only when the scattering distribution there has a
    non-specular component, that is, more components than specular ones; at
    the first intersection of a path it goes to the direct set; at a later
    intersection it goes to the caustic category when every direction
    sampled at a surface so far on the path was specular, and to the
    indirect category otherwise, whatever scattering the path underwent
    inside the medium; a deposit into the caustic or the indirect category
    stores the photon only while that category is not complete. *)
Theorem surface_deposit_rule (cfg : Config) (scene : Scene)
    (pre : list Segment) (seg : Segment) (st0 st : State)
    (ps0 ps : PathState) (ray : Ray) (isect : Intersection)
    (alpha : Spectrum) (vol : PhotonStore) :
  specularPath ps0 = false -> nIntersections ps0 = 0 ->
  advance cfg scene pre st0 ps0 = Some (st, ps) ->
  TraceThrough cfg scene (seg_trace seg) (photonRay ps) (seg_isect seg)
    (path_alpha ps) (to_int (nshot st)) (volume st)
  = (true, ray, isect, alpha, vol) ->
  let photon_ :=
    mkPhoton (dg_p isect) (Smul alpha (seg_Transmittance seg)) (Neg (d ray)) in
  let st' := fst (bounce cfg scene st ps seg) in
  let components := NumComponents (GetBSDF isect) in
  let specular_components := NumComponents_specular (GetBSDF isect) in
  (components <= specular_components ->
   directPhotons st' = directPhotons st /\ caustic st' = caustic st
   /\ indirect st' = indirect st)
  /\ (specular_components < components ->
      (pre = [] ->
       directPhotons st' = directPhotons st ++ [photon_]
       /\ caustic st' = caustic st /\ indirect st' = indirect st)
      /\ (pre <> [] -> forallb (sampled_specular scene) pre = true ->
          directPhotons st' = directPhotons st /\ indirect st' = indirect st
          /\ caustic st'
             = deposit (nCausticPhotons cfg) (to_int (nshot st)) photon_
                 (caustic st))
      /\ (pre <> [] -> forallb (sampled_specular scene) pre = false ->
          directPhotons st' = directPhotons st /\ caustic st' = caustic st
          /\ indirect st'
             = deposit (nIndirectPhotons cfg) (to_int (nshot st)) photon_
                 (indirect st)))
  /\ (forall target shot ph c,
      (st_done c = true -> deposit target shot ph c = c)
      /\ (st_done c = false ->
          st_photons (deposit target shot ph c) = st_photons c ++ [ph])).
Proof.
  intros Hf Hn Hadv HT photon_ st' components specular_components.
  destruct (advance_flag_start _ _ _ _ _ Hf Hn Hadv) as [Hn' Hf'].
  unfold st'. rewrite (bounce_reached _ _ _ _ _ HT).
  unfold hasNonSpecular. fold components specular_components.
  split; [|split].
  - intro Hle. apply Nat.ltb_ge in Hle. rewrite Hle.
    repeat split; reflexivity.
  - intro Hlt. apply Nat.ltb_lt in Hlt. rewrite Hlt.
    destruct (deposit_at_surface_sets cfg (set_volume vol st) ray isect
                (Smul alpha (seg_Transmittance seg)) (specularPath ps)
                (S (nIntersections ps)) (seg_RandomFloat_rp seg))
      as (Hd & Hc & Hi & _).
    cbn [directPhotons caustic indirect nshot set_volume] in Hd, Hc, Hi.
    fold photon_ in Hd, Hc, Hi. rewrite Hd, Hc, Hi, Hn', Hf'.
    split; [|split].
    + intros ->. cbn. repeat split; reflexivity.
    + intros Hne Hall. rewrite Hall.
      destruct pre as [|s pre]; [congruence|]. cbn. repeat split; reflexivity.
    + intros Hne Hall. rewrite Hall.
      destruct pre as [|s pre]; [congruence|]. cbn. repeat split; reflexivity.
  - intros target shot ph c. split.
    + apply deposit_done.
    + apply deposit_pending.
Qed.

Definition sample_config : Config := mkConfig 1 2 0 1 1 false.

(** The state and the locals of a sample path after a first, diffuse
    bounce. *)
Definition after_diffuse_bounce : option (State * PathState) :=
  Eval vm_compute in
    advance sample_config vacuum [segment_on diffuse]
      (set_nshot 1 (declare_locals sample_config Surface_Init)) sample_start.

Lemma surface_deposit_rule_witness :
  match after_diffuse_bounce with
  | Some (st, ps) =>
      st_photons (indirect (fst (bounce sample_config vacuum st ps
                                   (segment_on diffuse))))
      = [mkPhoton (mkV3 0 0 0) (Spectrum_of_float 1) (mkV3 0 0 (-1))]
  | None => False
  end.
Proof.
  destruct after_diffuse_bounce as [[st ps]|] eqn:E; [|discriminate E].
  assert (Hadv : advance sample_config vacuum [segment_on diffuse]
                   (set_nshot 1 (declare_locals sample_config Surface_Init))
                   sample_start = Some (st, ps)).
  { rewrite <- E. vm_compute. reflexivity. }
  injection E as <- <-.
  assert (HT : TraceThrough sample_config vacuum
                 (seg_trace (segment_on diffuse))
                 (mkRay (mkV3 0 0 0) (mkV3 0 0 1))
                 (seg_isect (segment_on diffuse)) (Spectrum_of_float 1) 1
                 (mkPhotonStore [] true 0 None [])
               = (true, mkRay (mkV3 0 0 0) (mkV3 0 0 1),
                  seg_isect (segment_on diffuse), Spectrum_of_float 1,
                  mkPhotonStore [] true 0 None [])) by reflexivity.
  destruct (@surface_deposit_rule sample_config vacuum [segment_on diffuse]
              (segment_on diffuse) _ _ sample_start _ _ _ _ _
              eq_refl eq_refl Hadv HT) as (_ & Hdep & _).
  destruct (Hdep (le_n 1)) as (_ & _ & Hind).
  destruct (Hind ltac:(discriminate) eq_refl) as (_ & _ & Hi).
  rewrite Hi. vm_compute. reflexivity.
Defined.

(** ** The shooting loop: what holds of the categories throughout *)

(** A category with target [target]: while it is pending it holds fewer
    photons than its target and has no map; once it is complete (and the
    target is not zero) it holds exactly its target and its map was
    constructed once, from these photons, together with the assignment of
    its path count. *)
Definition store_ok (target : nat) (c : PhotonStore) : Prop :=
  (st_done c = false ->
   length (st_photons c) < target /\ st_map c = None /\ st_built c = [])
  /\ (st_done c = true -> target <> 0 ->
      length (st_photons c) = target
      /\ st_map c = Some (KdTree_new (st_photons c))
      /\ st_built c = [(st_paths c, st_photons c)]).

Definition state_ok (cfg : Config) (st : State) : Prop :=
  store_ok (nCausticPhotons cfg) (caustic st)
  /\ store_ok (nIndirectPhotons cfg) (indirect st)
  /\ store_ok (nVolumePhotons cfg) (volume st)
  /\ radianceMap st = None
  /\ length (rpReflectances st) = length (radiancePhotons st)
  /\ length (rpTransmittances st) = length (radiancePhotons st)
  /\ Forall (fun rp => Lo rp = Finite (Spectrum_of_float 0))
       (radiancePhotons st).

Lemma deposit_ok (target : nat) (now : Z) (ph : Photon) (c : PhotonStore) :
  store_ok target c -> store_ok target (deposit target now ph c).
Proof.
  intros Hok. unfold deposit.
  destruct (st_done c) eqn:Edone; cbn [negb]; [assumption|].
  destruct Hok as [Hp Hd].
  destruct (Hp Edone) as (Hlt & Hmap & Hbuilt).
  destruct (length (st_photons c ++ [ph]) =? target) eqn:Efull.
  - apply Nat.eqb_eq in Efull. split; cbn; [discriminate|].
    intros _ _. rewrite Hbuilt. repeat split; assumption.
  - apply Nat.eqb_neq in Efull. rewrite length_app in Efull.
    simpl in Efull. split; cbn.
    + intros _. rewrite length_app. simpl.
      repeat split; try assumption. lia.
    + discriminate.
Qed.

Lemma TraceThrough_loop_ok (cfg : Config) (shot : Z)
    (steps : list MediumStep) :
  forall marchRay ray alpha vol,
    store_ok (nVolumePhotons cfg) vol ->
    store_ok (nVolumePhotons cfg)
      (snd (TraceThrough_loop cfg shot steps marchRay ray alpha vol)).
Proof.
  induction steps as [|s rest IH]; intros marchRay ray alpha vol H.
  - assumption.
  - cbn [TraceThrough_loop].
    destruct (ms_IntersectP s); [|assumption].
    unfold RayMarch. destruct (march_interacted (ms_march s)); [|assumption].
    match goal with
    | |- context [if ?c then _ else _] => destruct c
    end.
    + cbn [snd]. apply deposit_ok; assumption.
    + apply IH. apply deposit_ok; assumption.
Qed.

Lemma TraceThrough_ok (cfg : Config) (scene : Scene) (tr : TraceScript)
    (ray : Ray) (isect : Intersection) (alpha : Spectrum) (shot : Z)
    (vol : PhotonStore) :
  store_ok (nVolumePhotons cfg) vol ->
  store_ok (nVolumePhotons cfg)
    (snd (TraceThrough cfg scene tr ray isect alpha shot vol)).
Proof.
  intros H. unfold TraceThrough.
  destruct (negb (volumeRegion scene)); [assumption|].
  destruct (tr_front tr); [assumption|].
  pose proof (TraceThrough_loop_ok cfg shot (tr_steps tr)
                (mkRay (o ray) (d ray)) ray alpha H) as Hloop.
  destruct (TraceThrough_loop cfg shot (tr_steps tr) (mkRay (o ray) (d ray))
              ray alpha vol) as [[[[fellOut marchRay] ray1] alpha1] vol1].
  cbn [snd] in Hloop.
  destruct fellOut; [destruct (tr_Intersect tr)|]; assumption.
Qed.

Lemma set_volume_ok (cfg : Config) (st : State) (vol : PhotonStore) :
  state_ok cfg st -> store_ok (nVolumePhotons cfg) vol ->
  state_ok cfg (set_volume vol st).
Proof.
  intros (Hc & Hi & _ & Hrest) Hv. unfold state_ok. cbn.
  repeat (split; [assumption|]). assumption.
Qed.

Lemma deposit_at_surface_ok (cfg : Config) (st : State) (ray : Ray)
    (isect : Intersection) (alpha : Spectrum) (flag : bool) (n : nat)
    (u : Q) :
  state_ok cfg st ->
  state_ok cfg (deposit_at_surface cfg st ray isect alpha flag n u).
Proof.
  intros (Hc & Hi & Hv & Hm & Hlr & Hlt & Hlo).
  pose proof (deposit_ok (to_int (nshot st))
                (mkPhoton (dg_p isect) alpha (Neg (d ray))) Hc) as Hc'.
  pose proof (deposit_ok (to_int (nshot st))
                (mkPhoton (dg_p isect) alpha (Neg (d ray))) Hi) as Hi'.
  unfold deposit_at_surface, state_ok.
  destruct (finalGather cfg && Qltb u 0.125);
    destruct (n =? 1); destruct flag; cbn;
    rewrite ?length_app, ?Hlr, ?Hlt;
    repeat (split; [first [assumption | reflexivity]|]);
    try assumption;
    (apply Forall_app; split; [assumption|]; constructor;
     [reflexivity | constructor]).
Qed.

Lemma bounce_ok (cfg : Config) (scene : Scene) (st : State) (ps : PathState)
    (seg : Segment) :
  state_ok cfg st ->
  state_ok cfg (fst (bounce cfg scene st ps seg))
  /\ nshot (fst (bounce cfg scene st ps seg)) = nshot st.
Proof.
  intros Hok.
  assert (Hvol := TraceThrough_ok cfg scene (seg_trace seg) (photonRay ps)
                    (seg_isect seg) (path_alpha ps) (to_int (nshot st))
                    (proj1 (proj2 (proj2 Hok)))).
  destruct (TraceThrough cfg scene (seg_trace seg) (photonRay ps)
              (seg_isect seg) (path_alpha ps) (to_int (nshot st)) (volume st))
    as [[[[reached ray] isect] alpha] vol] eqn:ET.
  cbn [snd] in Hvol.
  pose proof (set_volume_ok Hok Hvol) as Hok1.
  destruct reached.
  - rewrite (bounce_reached _ _ _ _ _ ET).
    destruct (hasNonSpecular (GetBSDF isect)).
    + split.
      * apply deposit_at_surface_ok; assumption.
      * apply (deposit_at_surface_sets cfg (set_volume vol st) ray isect
                 (Smul alpha (seg_Transmittance seg)) (specularPath ps)
                 (S (nIntersections ps)) (seg_RandomFloat_rp seg)).
    + split; [assumption | reflexivity].
  - unfold bounce. rewrite ET. cbn. split; [assumption | reflexivity].
Qed.

Lemma walk_ok (cfg : Config) (scene : Scene) (segs : list Segment) :
  forall st ps,
    state_ok cfg st ->
    state_ok cfg (walk cfg scene segs st ps)
    /\ nshot (walk cfg scene segs st ps) = nshot st.
Proof.
  induction segs as [|seg rest IH]; intros st ps Hok.
  - split; [assumption | reflexivity].
  - cbn [walk]. destruct (bounce_ok scene ps seg Hok) as [Hok1 Hn1].
    destruct (bounce cfg scene st ps seg) as [st1 [ps1|]]; cbn [fst] in *.
    + destruct (IH st1 ps1) as [Hok2 Hn2]; [assumption|].
      split; [assumption | lia].
    + split; assumption.
Qed.

Lemma shoot_ok (cfg : Config) (scene : Scene) (shot : Shot) (st : State) :
  state_ok cfg st ->
  state_ok cfg (shoot cfg scene shot st)
  /\ nshot (shoot cfg scene shot st) = nshot st.
Proof.
  intros Hok. unfold shoot.
  destruct (Qeq_bool (Sample_L_pdf shot) 0 || Black (Sample_L_alpha shot));
    [split; [assumption | reflexivity]|].
  match goal with
  | |- context [if negb ?c then _ else _] => destruct c
  end; cbn [negb]; [split; [assumption | reflexivity]|].
  apply walk_ok; assumption.
Qed.

Lemma set_nshot_ok (cfg : Config) (st : State) :
  state_ok cfg st -> state_ok cfg (set_nshot (nshot st + 1) st).
Proof. intro H. exact H. Qed.

Definition all_done (st : State) : Prop :=
  st_done (caustic st) = true /\ st_done (indirect st) = true
  /\ st_done (volume st) = true.

Lemma pending_or_done (st : State) :
  {negb (st_done (caustic st)) || negb (st_done (indirect st))
   || negb (st_done (volume st)) = true /\ ~ all_done st}
  + {negb (st_done (caustic st)) || negb (st_done (indirect st))
     || negb (st_done (volume st)) = false /\ all_done st}.
Proof.
  unfold all_done.
  destruct (st_done (caustic st)), (st_done (indirect st)),
    (st_done (volume st)); cbn;
    first [right; repeat split; reflexivity
          | left; split; [reflexivity | intros (? & ? & ?); discriminate]].
Qed.

(** The shooting loop keeps the invariant, and tells how it ended; the
    shot counter has advanced by the number of shots started. *)
Lemma shooting_loop_ok (cfg : Config) (scene : Scene) (shots : list Shot) :
  forall st out st',
    state_ok cfg st ->
    shooting_loop cfg scene shots st = (out, st') ->
    state_ok cfg st'
    /\ (nshot st <= nshot st' <= nshot st + Z.of_nat (length shots))%Z
    /\ match out with
       | Completed => all_done st'
       | InsufficientPhotons a b c =>
           ~ all_done st' /\ stalled cfg st' = true
           /\ a = length (st_photons (caustic st'))
           /\ b = length (st_photons (indirect st'))
           /\ c = length (st_photons (volume st'))
       | Shooting => ~ all_done st'
       | _ => False
       end.
Proof.
  induction shots as [|shot rest IH]; intros st out st' Hok H.
  - cbn [shooting_loop] in H.
    destruct (pending_or_done st) as [[E Hp] | [E Hd]]; rewrite E in H;
      injection H as <- <-; (split; [assumption|]); simpl;
      (split; [lia | assumption]).
  - cbn [shooting_loop] in H.
    destruct (pending_or_done st) as [[E Hp] | [E Hd]]; rewrite E in H.
    + pose proof (set_nshot_ok Hok) as Hok1.
      destruct (stalled cfg (set_nshot (nshot st + 1) st)) eqn:Est.
      * injection H as <- <-. split; [assumption|].
        cbn [nshot set_nshot length]. split; [lia|].
        repeat split; try reflexivity; assumption.
      * destruct (shoot_ok scene shot Hok1) as [Hok2 Hn2].
        destruct (IH _ _ _ Hok2 H) as (Hok3 & Hn3 & Hout).
        split; [assumption|]. split; [|assumption].
        rewrite Hn2 in Hn3. cbn [nshot set_nshot] in Hn3.
        cbn [length]. lia.
    + injection H as <- <-. split; [assumption|]. split; [lia | assumption].
Qed.

Lemma fresh_ok (target : nat) (c : PhotonStore) :
  st_map c = None -> st_built c = [] -> store_ok target (fresh target c).
Proof.
  intros Hm Hb. unfold store_ok, fresh. cbn. split.
  - intro H. apply Nat.eqb_neq in H. repeat split; try assumption. lia.
  - intros H Hne. apply Nat.eqb_eq in H. contradiction.
Qed.

(** The locals as declared on an object that has just been initialised,
    for the first time in the process or again. *)
Lemma declare_locals_again_ok (cfg : Config) (old : State) :
  state_ok cfg
    (declare_locals cfg (set_alreadyPreprocessed true (Surface_Init_again old))).
Proof.
  unfold state_ok. cbn.
  repeat (split; [apply fresh_ok; reflexivity|]).
  repeat split. constructor.
Qed.

Lemma Surface_Init_again_first : Surface_Init_again Surface_Init = Surface_Init.
Proof. reflexivity. Qed.

Lemma declare_locals_ok (cfg : Config) :
  state_ok cfg (declare_locals cfg (set_alreadyPreprocessed true Surface_Init)).
Proof.
  rewrite <- Surface_Init_again_first. apply declare_locals_again_ok.
Qed.

Section PreprocessProperties.
Context {heap : StlHeap}.

Lemma precompute_radiance_keeps (cfg : Config) (st : State) :
  caustic (precompute_radiance cfg st) = caustic st
  /\ indirect (precompute_radiance cfg st) = indirect st
  /\ volume (precompute_radiance cfg st) = volume st
  /\ nshot (precompute_radiance cfg st) = nshot st.
Proof.
  unfold precompute_radiance. destruct (finalGather cfg);
    repeat split; reflexivity.
Qed.

(** How a call of [Surface_Preprocess] on the freshly initialised object
    relates to its shooting loop. *)
Lemma Surface_Preprocess_shooting (cfg : Config) (scene : Scene)
    (shots : list Shot) :
  nLights scene <> 0 ->
  Surface_Preprocess cfg scene shots Surface_Init
  = match shooting_loop cfg scene shots
            (declare_locals cfg (set_alreadyPreprocessed true Surface_Init))
    with
    | (Completed, st') => (Completed, precompute_radiance cfg st')
    | other => other
    end.
Proof.
  intro H. unfold Surface_Preprocess. cbn [alreadyPreprocessed Surface_Init].
  apply Nat.eqb_neq in H. rewrite H. reflexivity.
Qed.

Lemma Surface_Preprocess_Completed_from (cfg : Config) (scene : Scene)
    (shots : list Shot) (st st' : State) :
  alreadyPreprocessed st = false ->
  Surface_Preprocess cfg scene shots st = (Completed, st') ->
  exists st1,
    shooting_loop cfg scene shots
      (declare_locals cfg (set_alreadyPreprocessed true st))
    = (Completed, st1)
    /\ st' = precompute_radiance cfg st1.
Proof.
  intro Hnew. unfold Surface_Preprocess. rewrite Hnew.
  destruct (nLights scene =? 0); [discriminate|].
  destruct (shooting_loop cfg scene shots
              (declare_locals cfg (set_alreadyPreprocessed true st)))
    as [out st1].
  destruct out; try discriminate.
  intro H. injection H as <-. exists st1. split; reflexivity.
Qed.

Lemma Surface_Preprocess_Completed (cfg : Config) (scene : Scene)
    (shots : list Shot) (st' : State) :
  Surface_Preprocess cfg scene shots Surface_Init = (Completed, st') ->
  exists st1,
    shooting_loop cfg scene shots
      (declare_locals cfg (set_alreadyPreprocessed true Surface_Init))
    = (Completed, st1)
    /\ st' = precompute_radiance cfg st1.
Proof. apply Surface_Preprocess_Completed_from. reflexivity. Qed.

End PreprocessProperties.

(** ** The stall test *)

Lemma to_int_small (z : Z) : (0 <= z < 2 ^ 31)%Z -> to_int z = z.
Proof.
  intro H. unfold to_int. rewrite Z.mod_small by lia.
  destruct (z <? 2 ^ 31)%Z eqn:E; [reflexivity|].
  apply Z.ltb_ge in E. lia.
Qed.

Lemma unproductive_unsuccessful (target : nat) (c : PhotonStore) (shot : Z) :
  (Z.of_nat target < 2 ^ 31)%Z -> (0 <= shot < 2 ^ 31)%Z ->
  unproductive target c shot ->
  unsuccessful (to_int (Z.of_nat target)) (size_int (st_photons c))
    (to_int shot) = true.
Proof.
  intros Ht Hs [Hlt Hfew]. unfold size_int.
  rewrite !to_int_small by lia. unfold unsuccessful.
  apply andb_true_intro. split.
  - apply Z.ltb_lt. lia.
  - apply orb_true_intro. destruct Hfew as [H0 | Hq].
    + left. apply Z.eqb_eq. lia.
    + right. apply Z.ltb_lt. assumption.
Qed.

Lemma shooting_loop_stalled (cfg : Config) (scene : Scene) (shot : Shot)
    (rest : list Shot) (st : State) :
  ~ all_done st ->
  stalled cfg (set_nshot (nshot st + 1) st) = true ->
  shooting_loop cfg scene (shot :: rest) st
  = (InsufficientPhotons (length (st_photons (caustic st)))
       (length (st_photons (indirect st))) (length (st_photons (volume st))),
     set_nshot (nshot st + 1) st).
Proof.
  intros Hp Hst. cbn [shooting_loop].
  destruct (pending_or_done st) as [[E _] | [_ Hd]]; [|contradiction].
  rewrite E, Hst. reflexivity.
Qed.

Lemma shooting_loop_next (cfg : Config) (scene : Scene) (shot : Shot)
    (rest : list Shot) (st : State) :
  ~ all_done st ->
  stalled cfg (set_nshot (nshot st + 1) st) = false ->
  shooting_loop cfg scene (shot :: rest) st
  = shooting_loop cfg scene rest
      (shoot cfg scene shot (set_nshot (nshot st + 1) st)).
Proof.
  intros Hp Hst. cbn [shooting_loop].
  destruct (pending_or_done st) as [[E _] | [_ Hd]]; [|contradiction].
  rewrite E, Hst. reflexivity.
Qed.

Lemma shooting_loop_app (cfg : Config) (scene : Scene)
    (shots1 shots2 : list Shot) :
  forall st st1,
    shooting_loop cfg scene shots1 st = (Shooting, st1) ->
    shooting_loop cfg scene (shots1 ++ shots2) st
    = shooting_loop cfg scene shots2 st1.
Proof.
  induction shots1 as [|shot rest IH]; intros st st1 H.
  - cbn [shooting_loop] in H.
    destruct (pending_or_done st) as [[E _] | [E _]]; rewrite E in H;
      [|discriminate].
    injection H as <-. reflexivity.
  - cbn [shooting_loop app] in *.
    destruct (negb (st_done (caustic st)) || negb (st_done (indirect st))
              || negb (st_done (volume st))); [|discriminate].
    destruct (stalled cfg (set_nshot (nshot st + 1) st)); [discriminate|].
    apply IH. assumption.
Qed.

Section StallProperties.
Context {heap : StlHeap}.

(** C5, as amended: if, when a shot is started after 500,000 or more
    shots, some category holds fewer photons than its target and holds none
    at all or fewer than the integer quotient of the shot count by 1024,
    then [Surface_Preprocess] reports the error with the three stored
    counts and returns at once; the radiance map and the map of every
    category that has not reached its target are left unbuilt, while a
    category that had reached its target keeps the map built for it. *)
Theorem stall_aborts (cfg : Config) (scene : Scene)
    (shots1 : list Shot) (shot : Shot) (shots2 : list Shot) (st : State) :
  nLights scene <> 0 ->
  shooting_loop cfg scene shots1
    (declare_locals cfg (set_alreadyPreprocessed true Surface_Init))
  = (Shooting, st) ->
  (500000 <= nshot st)%Z -> (nshot st + 1 < 2 ^ 31)%Z ->
  (Z.of_nat (nCausticPhotons cfg) < 2 ^ 31)%Z ->
  (Z.of_nat (nIndirectPhotons cfg) < 2 ^ 31)%Z ->
  (Z.of_nat (nVolumePhotons cfg) < 2 ^ 31)%Z ->
  unproductive (nCausticPhotons cfg) (caustic st) (nshot st + 1)
  \/ unproductive (nIndirectPhotons cfg) (indirect st) (nshot st + 1)
  \/ unproductive (nVolumePhotons cfg) (volume st) (nshot st + 1) ->
  let unbuilt_or_full (target : nat) (c : PhotonStore) : Prop :=
    (st_done c = false -> st_map c = None)
    /\ (st_done c = true -> target <> 0 ->
        length (st_photons c) = target
        /\ st_map c = Some (KdTree_new (st_photons c))) in
  exists st',
    Surface_Preprocess cfg scene (shots1 ++ shot :: shots2) Surface_Init
    = (InsufficientPhotons (length (st_photons (caustic st)))
         (length (st_photons (indirect st)))
         (length (st_photons (volume st))), st')
    /\ st' = set_nshot (nshot st + 1) st
    /\ radianceMap st' = None
    /\ unbuilt_or_full (nCausticPhotons cfg) (caustic st')
    /\ unbuilt_or_full (nIndirectPhotons cfg) (indirect st')
    /\ unbuilt_or_full (nVolumePhotons cfg) (volume st').
Proof.
  intros Hlights Hrun H5 Hmax Hc Hi Hv Hun unbuilt_or_full.
  subst unbuilt_or_full. cbv beta.
  destruct (@shooting_loop_ok cfg scene shots1 _ _ _ (declare_locals_ok cfg)
              Hrun) as (Hok & Hn & Hpending).
  assert (Hst : stalled cfg (set_nshot (nshot st + 1) st) = true).
  { unfold stalled. cbn [nshot set_nshot caustic indirect volume].
    apply andb_true_intro. split; [apply Z.ltb_lt; lia|].
    destruct Hun as [Hu | [Hu | Hu]].
    - rewrite (unproductive_unsuccessful Hc); [reflexivity | lia | assumption].
    - rewrite (unproductive_unsuccessful Hi); [|lia | assumption].
      rewrite orb_true_r. reflexivity.
    - rewrite (unproductive_unsuccessful Hv); [|lia | assumption].
      rewrite !orb_true_r. reflexivity. }
  exists (set_nshot (nshot st + 1) st).
  split.
  - rewrite (@Surface_Preprocess_shooting _ cfg scene _ Hlights).
    rewrite (@shooting_loop_app cfg scene shots1 _ _ _ Hrun).
    rewrite (@shooting_loop_stalled cfg scene shot shots2 st Hpending Hst).
    reflexivity.
  - split; [reflexivity|].
    destruct Hok as ([Hc1 Hc2] & [Hi1 Hi2] & [Hv1 Hv2] & Hm & _).
    cbn [radianceMap caustic indirect volume set_nshot].
    split; [assumption|].
    split; [|split]; (split; [intro Hd | intros Hd Hne]);
      first [ apply Hc1; assumption | apply Hi1; assumption
            | apply Hv1; assumption
            | destruct (Hc2 Hd Hne) as (? & ? & _); split; assumption
            | destruct (Hi2 Hd Hne) as (? & ? & _); split; assumption
            | destruct (Hv2 Hd Hne) as (? & ? & _); split; assumption ].
Qed.

End StallProperties.

Lemma shoot_dud (cfg : Config) (scene : Scene) (st : State) :
  shoot cfg scene dud st = st.
Proof. reflexivity. Qed.

Lemma set_nshot_set_nshot (a b : Z) (st : State) :
  set_nshot a (set_nshot b st) = set_nshot a st.
Proof. reflexivity. Qed.

Lemma all_done_set_nshot (a : Z) (st : State) :
  all_done (set_nshot a st) <-> all_done st.
Proof. unfold all_done. cbn. reflexivity. Qed.

(** Black light samples before shot 500,000 only advance the shot counter. *)
Lemma shooting_loop_duds (cfg : Config) (scene : Scene) (n : nat) :
  forall st rest,
    ~ all_done st -> (nshot st + Z.of_nat n <= 500000)%Z ->
    shooting_loop cfg scene (repeat dud n ++ rest) st
    = shooting_loop cfg scene rest (set_nshot (nshot st + Z.of_nat n) st).
Proof.
  induction n as [|n IH]; intros st rest Hp Hle.
  - cbn [repeat app].
    replace (nshot st + Z.of_nat 0)%Z with (nshot st) by lia.
    destruct st. reflexivity.
  - cbn [repeat app shooting_loop].
    destruct (pending_or_done st) as [[E _] | [_ Hd]]; [|contradiction].
    rewrite E.
    assert (Hnot : stalled cfg (set_nshot (nshot st + 1) st) = false).
    { unfold stalled. cbn [nshot set_nshot].
      replace (500000 <? nshot st + 1)%Z with false; [reflexivity|].
      symmetry. apply Z.ltb_ge. lia. }
    rewrite Hnot, shoot_dud, IH.
    + rewrite set_nshot_set_nshot. cbn [nshot set_nshot].
      replace (nshot st + 1 + Z.of_nat n)%Z
        with (nshot st + Z.of_nat (S n))%Z by lia.
      reflexivity.
    + rewrite all_done_set_nshot. assumption.
    + cbn [nshot set_nshot]. lia.
Qed.

(** ** The moment a category becomes complete *)

(** What the tracing of one shot, started with the shot counter, as an
    [int], at [now], may do to a category: nothing once it is complete; and
    if it completes it, the path count is [now]. *)
Definition store_step (now : Z) (c c' : PhotonStore) : Prop :=
  (st_done c = true -> c' = c)
  /\ (st_done c = false -> st_done c' = true -> st_paths c' = now).

Lemma store_step_refl (now : Z) (c : PhotonStore) : store_step now c c.
Proof.
  split; [reflexivity|]. intros H1 H2. congruence.
Qed.

Lemma store_step_trans (now : Z) (a b c : PhotonStore) :
  store_step now a b -> store_step now b c -> store_step now a c.
Proof.
  intros [Hab1 Hab2] [Hbc1 Hbc2]. split.
  - intro Ha. pose proof (Hab1 Ha) as E. subst b. apply Hbc1. assumption.
  - intros Ha Hc. destruct (st_done b) eqn:Eb.
    + rewrite (Hbc1 eq_refl). apply Hab2; [assumption | reflexivity].
    + apply Hbc2; [reflexivity | assumption].
Qed.

Lemma deposit_step (target : nat) (now : Z) (ph : Photon) (c : PhotonStore) :
  store_step now c (deposit target now ph c).
Proof.
  split.
  - apply deposit_done.
  - intros Hc. unfold deposit. rewrite Hc. cbn [negb].
    destruct (length (st_photons c ++ [ph]) =? target); cbn.
    + reflexivity.
    + congruence.
Qed.

Lemma TraceThrough_loop_step (cfg : Config) (shot : Z)
    (steps : list MediumStep) :
  forall marchRay ray alpha vol,
    store_step shot vol
      (snd (TraceThrough_loop cfg shot steps marchRay ray alpha vol)).
Proof.
  induction steps as [|s rest IH]; intros marchRay ray alpha vol.
  - apply store_step_refl.
  - cbn [TraceThrough_loop].
    destruct (ms_IntersectP s); [|apply store_step_refl].
    unfold RayMarch.
    destruct (march_interacted (ms_march s)); [|apply store_step_refl].
    match goal with
    | |- context [if ?c then _ else _] => destruct c
    end.
    + apply deposit_step.
    + eapply store_step_trans; [apply deposit_step | apply IH].
Qed.

Lemma TraceThrough_step (cfg : Config) (scene : Scene) (tr : TraceScript)
    (ray : Ray) (isect : Intersection) (alpha : Spectrum) (shot : Z)
    (vol : PhotonStore) :
  store_step shot vol (snd (TraceThrough cfg scene tr ray isect alpha shot vol)).
Proof.
  unfold TraceThrough.
  destruct (negb (volumeRegion scene)); [apply store_step_refl|].
  destruct (tr_front tr); [apply store_step_refl|].
  pose proof (TraceThrough_loop_step cfg shot (tr_steps tr)
                (mkRay (o ray) (d ray)) ray alpha vol) as Hloop.
  destruct (TraceThrough_loop cfg shot (tr_steps tr) (mkRay (o ray) (d ray))
              ray alpha vol) as [[[[fellOut marchRay] ray1] alpha1] vol1].
  cbn [snd] in Hloop.
  destruct fellOut; [destruct (tr_Intersect tr)|]; assumption.
Qed.

Definition state_step (st st' : State) : Prop :=
  store_step (to_int (nshot st)) (caustic st) (caustic st')
  /\ store_step (to_int (nshot st)) (indirect st) (indirect st')
  /\ store_step (to_int (nshot st)) (volume st) (volume st')
  /\ nshot st' = nshot st.

Lemma state_step_refl (st : State) : state_step st st.
Proof.
  repeat split; try apply store_step_refl; congruence.
Qed.

Lemma state_step_trans (a b c : State) :
  state_step a b -> state_step b c -> state_step a c.
Proof.
  intros (H1 & H2 & H3 & Hn) (K1 & K2 & K3 & Kn). rewrite Hn in *.
  split; [|split; [|split]].
  - eapply store_step_trans; eassumption.
  - eapply store_step_trans; eassumption.
  - eapply store_step_trans; eassumption.
  - congruence.
Qed.

Lemma bounce_step (cfg : Config) (scene : Scene) (st : State)
    (ps : PathState) (seg : Segment) :
  state_step st (fst (bounce cfg scene st ps seg)).
Proof.
  pose proof (TraceThrough_step cfg scene (seg_trace seg) (photonRay ps)
                (seg_isect seg) (path_alpha ps) (to_int (nshot st)) (volume st))
    as Hvol.
  destruct (TraceThrough cfg scene (seg_trace seg) (photonRay ps)
              (seg_isect seg) (path_alpha ps) (to_int (nshot st)) (volume st))
    as [[[[reached ray] isect] alpha] vol] eqn:ET.
  cbn [snd] in Hvol.
  assert (H1 : state_step st (set_volume vol st)).
  { split; [|split; [|split]]; cbn;
      first [apply store_step_refl | assumption | reflexivity]. }
  destruct reached.
  - rewrite (bounce_reached _ _ _ _ _ ET).
    destruct (hasNonSpecular (GetBSDF isect)); [|assumption].
    eapply state_step_trans; [exact H1|].
    destruct (deposit_at_surface_sets cfg (set_volume vol st) ray isect
                (Smul alpha (seg_Transmittance seg)) (specularPath ps)
                (S (nIntersections ps)) (seg_RandomFloat_rp seg))
      as (_ & Hc & Hi & Hv & Hn & _).
    unfold state_step. rewrite Hc, Hi, Hv, Hn.
    split; [|split; [|split]].
    + destruct (S (nIntersections ps) =? 1); [apply store_step_refl|].
      destruct (specularPath ps);
        [apply deposit_step | apply store_step_refl].
    + destruct (S (nIntersections ps) =? 1); [apply store_step_refl|].
      destruct (specularPath ps);
        [apply store_step_refl | apply deposit_step].
    + apply store_step_refl.
    + reflexivity.
  - unfold bounce. rewrite ET. cbn. assumption.
Qed.

Lemma walk_step (cfg : Config) (scene : Scene) (segs : list Segment) :
  forall st ps, state_step st (walk cfg scene segs st ps).
Proof.
  induction segs as [|seg rest IH]; intros st ps.
  - apply state_step_refl.
  - cbn [walk]. pose proof (bounce_step cfg scene st ps seg) as Hb.
    destruct (bounce cfg scene st ps seg) as [st1 [ps1|]]; cbn [fst] in Hb.
    + eapply state_step_trans; [exact Hb | apply IH].
    + assumption.
Qed.

Lemma shoot_step (cfg : Config) (scene : Scene) (shot : Shot) (st : State) :
  state_step st (shoot cfg scene shot st).
Proof.
  unfold shoot.
  destruct (Qeq_bool (Sample_L_pdf shot) 0 || Black (Sample_L_alpha shot));
    [apply state_step_refl|].
  match goal with
  | |- context [if negb ?c then _ else _] => destruct c
  end; cbn [negb]; [apply state_step_refl | apply walk_step].
Qed.

Section Moment.
Variable cfg : Config.
Variable scene : Scene.
Variable cat : State -> PhotonStore.
Hypothesis cat_set_nshot : forall a st, cat (set_nshot a st) = cat st.
Hypothesis cat_shoot : forall shot st,
  store_step (to_int (nshot st)) (cat st) (cat (shoot cfg scene shot st)).
Hypothesis cat_pending : forall st, st_done (cat st) = false -> ~ all_done st.

(** A complete category is left alone by the rest of the loop. *)
Lemma complete_stays (shots : list Shot) :
  forall st out st',
    shooting_loop cfg scene shots st = (out, st') ->
    st_done (cat st) = true -> cat st' = cat st.
Proof.
  induction shots as [|shot rest IH]; intros st out st' H Hd.
  - cbn [shooting_loop] in H.
    destruct (negb (st_done (caustic st)) || negb (st_done (indirect st))
              || negb (st_done (volume st)));
      injection H as _ <-; reflexivity.
  - cbn [shooting_loop] in H.
    destruct (negb (st_done (caustic st)) || negb (st_done (indirect st))
              || negb (st_done (volume st)));
      [|injection H as _ <-; reflexivity].
    destruct (stalled cfg (set_nshot (nshot st + 1) st)).
    + injection H as _ <-. apply cat_set_nshot.
    + destruct (cat_shoot shot (set_nshot (nshot st + 1) st)) as [Hs _].
      rewrite cat_set_nshot in Hs. specialize (Hs Hd).
      rewrite (IH _ _ _ H); [assumption|]. rewrite Hs. assumption.
Qed.

(** A category found complete at the end of the loop became so during
    one of the shots, and its path count is the value of the shot counter
    during that shot, as an [int]. *)
Lemma completion_moment (shots : list Shot) :
  forall st out st',
    shooting_loop cfg scene shots st = (out, st') ->
    st_done (cat st) = false -> st_done (cat st') = true ->
    exists shots1 shot shots2 st1,
      shots = shots1 ++ shot :: shots2
      /\ shooting_loop cfg scene shots1 st = (Shooting, st1)
      /\ st_done (cat st1) = false
      /\ st_done (cat (shoot cfg scene shot (set_nshot (nshot st1 + 1) st1)))
         = true
      /\ st_paths (cat st')
         = to_int (nshot st + Z.of_nat (length shots1) + 1).
Proof.
  induction shots as [|shot rest IH]; intros st out st' H Hp Hd.
  - cbn [shooting_loop] in H.
    destruct (negb (st_done (caustic st)) || negb (st_done (indirect st))
              || negb (st_done (volume st)));
      injection H as _ <-; congruence.
  - pose proof (@cat_pending st Hp) as Hnot.
    destruct (stalled cfg (set_nshot (nshot st + 1) st)) eqn:Est.
    + rewrite (@shooting_loop_stalled cfg scene shot rest st Hnot Est) in H.
      injection H as _ <-. rewrite cat_set_nshot in Hd. congruence.
    + rewrite (@shooting_loop_next cfg scene shot rest st Hnot Est) in H.
      destruct (cat_shoot shot (set_nshot (nshot st + 1) st)) as [_ Hs].
      rewrite cat_set_nshot in Hs. cbn [nshot set_nshot] in Hs.
      destruct (st_done (cat (shoot cfg scene shot
                                (set_nshot (nshot st + 1) st)))) eqn:Enow.
      * (* complete during this shot *)
        exists [], shot, rest, st. split; [reflexivity|]. split.
        { cbn [shooting_loop].
          destruct (pending_or_done st) as [[E _] | [_ Hall]];
            [rewrite E; reflexivity | contradiction]. }
        split; [assumption|]. split; [assumption|].
        rewrite (@complete_stays rest _ _ _ H Enow). rewrite (Hs Hp eq_refl).
        cbn [length]. f_equal. lia.
      * (* still pending after this shot *)
        destruct (IH _ _ _ H Enow Hd)
          as (shots1 & shot' & shots2 & st1 & -> & Hrun & Hp1 & Hd1 & Hpaths).
        exists (shot :: shots1), shot', shots2, st1.
        split; [reflexivity|]. split.
        { rewrite (@shooting_loop_next cfg scene shot shots1 st Hnot Est).
          assumption. }
        split; [assumption|]. split; [assumption|].
        rewrite Hpaths.
        destruct (shoot_step cfg scene shot (set_nshot (nshot st + 1) st))
          as (_ & _ & _ & Hn).
        rewrite Hn. cbn [nshot set_nshot length]. f_equal. lia.
Qed.

End Moment.

Lemma pending_not_all_done_caustic (st : State) :
  st_done (caustic st) = false -> ~ all_done st.
Proof. intros H (H1 & _). congruence. Qed.

Lemma pending_not_all_done_indirect (st : State) :
  st_done (indirect st) = false -> ~ all_done st.
Proof. intros H (_ & H1 & _). congruence. Qed.

Lemma pending_not_all_done_volume (st : State) :
  st_done (volume st) = false -> ~ all_done st.
Proof. intros H (_ & _ & H1). congruence. Qed.

Section CompletionProperties.
Context {heap : StlHeap}.

(** C1: for every photon category (caustic, indirect, volume) with a
    nonzero target, when the shooting loop of [Surface_Preprocess] completes
    normally the category holds exactly its target number of photons, and
    its map was constructed exactly once, from exactly these photons,
    together with the assignment of the path count.  The path count is the
    value of the shot counter during the shot that completed the category.
    The counter is a static of the function: on an object initialised in a
    process that has traced [nshot old] photons before, the path count is
    [nshot old] plus the number of shots taken at that moment, and it is
    the number of shots taken only when this is the first precomputation
    of the process. *)
Theorem categories_complete (cfg : Config) (scene : Scene)
    (shots : list Shot) (old st' : State) :
  (0 <= nshot old)%Z ->
  (nshot old + Z.of_nat (length shots) < 2 ^ 31)%Z ->
  Surface_Preprocess cfg scene shots (Surface_Init_again old)
  = (Completed, st') ->
  let complete (target : nat) (cat : State -> PhotonStore) : Prop :=
    target <> 0 ->
    length (st_photons (cat st')) = target
    /\ st_map (cat st') = Some (KdTree_new (st_photons (cat st')))
    /\ st_built (cat st') = [(st_paths (cat st'), st_photons (cat st'))]
    /\ reached_during cfg scene (Surface_Init_again old) shots cat
         (st_paths (cat st')) in
  complete (nCausticPhotons cfg) caustic
  /\ complete (nIndirectPhotons cfg) indirect
  /\ complete (nVolumePhotons cfg) volume.
Proof.
  intros Hold Hmax H complete. subst complete. cbv beta.
  destruct (@Surface_Preprocess_Completed_from _ cfg scene shots
              (Surface_Init_again old) st' eq_refl H) as (st1 & Hloop & ->).
  destruct (@shooting_loop_ok cfg scene shots _ _ _
              (declare_locals_again_ok cfg old) Hloop)
    as (Hok & _ & Hc & Hi & Hv).
  destruct (precompute_radiance_keeps cfg st1) as (-> & -> & -> & _).
  destruct Hok as ([_ Hc'] & [_ Hi'] & [_ Hv'] & _).
  assert (Hcount : forall shots1 shot shots2 paths,
            shots = shots1 ++ shot :: shots2 ->
            paths = to_int (nshot old + Z.of_nat (length shots1) + 1) ->
            paths = (nshot old + (Z.of_nat (length shots1) + 1))%Z).
  { intros shots1 shot shots2 paths E ->.
    rewrite E, length_app in Hmax. cbn [length] in Hmax.
    rewrite to_int_small by lia. lia. }
  split; [|split]; intro Hne.
  - destruct (Hc' Hc Hne) as (Hlen & Hmap & Hbuilt).
    repeat (split; [assumption|]).
    destruct (@completion_moment cfg scene caustic
                (fun a st => eq_refl)
                (fun shot st => proj1 (shoot_step cfg scene shot st))
                pending_not_all_done_caustic shots _ _ _ Hloop)
      as (shots1 & shot & shots2 & st2 & E & Hrun & Hp & Hd & Hpaths).
    { cbn. apply Nat.eqb_neq. assumption. }
    { assumption. }
    exists shots1, shot, shots2, st2.
    repeat (split; [assumption|]). apply (Hcount _ _ _ _ E Hpaths).
  - destruct (Hi' Hi Hne) as (Hlen & Hmap & Hbuilt).
    repeat (split; [assumption|]).
    destruct (@completion_moment cfg scene indirect
                (fun a st => eq_refl)
                (fun shot st =>
                   proj1 (proj2 (shoot_step cfg scene shot st)))
                pending_not_all_done_indirect shots _ _ _ Hloop)
      as (shots1 & shot & shots2 & st2 & E & Hrun & Hp & Hd & Hpaths).
    { cbn. apply Nat.eqb_neq. assumption. }
    { assumption. }
    exists shots1, shot, shots2, st2.
    repeat (split; [assumption|]). apply (Hcount _ _ _ _ E Hpaths).
  - destruct (Hv' Hv Hne) as (Hlen & Hmap & Hbuilt).
    repeat (split; [assumption|]).
    destruct (@completion_moment cfg scene volume
                (fun a st => eq_refl)
                (fun shot st =>
                   proj1 (proj2 (proj2 (shoot_step cfg scene shot st))))
                pending_not_all_done_volume shots _ _ _ Hloop)
      as (shots1 & shot & shots2 & st2 & E & Hrun & Hp & Hd & Hpaths).
    { cbn. apply Nat.eqb_neq. assumption. }
    { assumption. }
    exists shots1, shot, shots2, st2.
    repeat (split; [assumption|]). apply (Hcount _ _ _ _ E Hpaths).
Qed.

End CompletionProperties.

(** ** Sample runs *)

Definition hit_on (b : BSDF) : Intersection :=
  mkIntersection (mkV3 0 0 0) (mkV3 0 0 1) b.
Definition pass_through : TraceScript := mkTraceScript true [] None.
Definition scatter_down : MediumStep :=
  mkMediumStep true
    (mkMarch (mkV3 0 0 1) (Spectrum_of_float (1 # 2)) true
       (Spectrum_of_float 1) (Spectrum_of_float 2))
    (1 # 4) (mkV3 0 0 (-1)).
Definition segment_in_medium (b : BSDF) (tr : TraceScript) (u_rp : Q)
  : Segment :=
  mkSegment (hit_on b) tr (Spectrum_of_float 1) u_rp (1 # 2).
Definition downward : Ray := mkRay (mkV3 0 0 1) (mkV3 0 0 (-1)).

(** A scene with a medium, one photon wanted in each category, final
    gather on.  The first shot scatters in the medium, hits a diffuse
    surface twice; the second is reflected by a mirror onto a diffuse
    surface. *)
Definition foggy : Scene := mkScene 1 true.
Definition one_each : Config := mkConfig 1 1 1 2 1 true.
Definition two_shots : list Shot :=
  [ mkShot (Spectrum_of_float 1) downward 1 1
      [ segment_in_medium diffuse
          (mkTraceScript false [scatter_down] (Some (hit_on diffuse)))
          (1 # 16);
        segment_in_medium diffuse pass_through (1 # 2) ];
    mkShot (Spectrum_of_float 1) downward 1 1
      [ segment_in_medium mirror pass_through (1 # 2);
        segment_in_medium diffuse pass_through (1 # 2) ] ].

Definition sample_run : Outcome * State :=
  Eval vm_compute in
    Surface_Preprocess (heap := sorting_heap) one_each foggy two_shots
      Surface_Init.

Lemma sample_run_eq :
  Surface_Preprocess (heap := sorting_heap) one_each foggy two_shots
    Surface_Init = (Completed, snd sample_run).
Proof. vm_compute. reflexivity. Qed.

(** The same scene rendered a second time in the same process:
    [Surface_Init] on the object as the first precomputation left it, and
    the same two shots. *)
Definition second_run : Outcome * State :=
  Eval vm_compute in
    Surface_Preprocess (heap := sorting_heap) one_each foggy two_shots
      (Surface_Init_again (snd sample_run)).

Lemma second_run_eq :
  Surface_Preprocess (heap := sorting_heap) one_each foggy two_shots
    (Surface_Init_again (snd sample_run)) = (Completed, snd second_run).
Proof. vm_compute. reflexivity. Qed.

(** The first precomputation records the paths 2 and 1 for its caustic and
    volume photons; the second one stores its photons during the same
    shots and records 4 and 3. *)
Lemma categories_complete_witness :
  (st_paths (caustic (snd sample_run)) = 2%Z
   /\ st_paths (volume (snd sample_run)) = 1%Z)
  /\ nshot (snd sample_run) = 2%Z
  /\ length (st_photons (caustic (snd second_run))) = 1
  /\ st_paths (caustic (snd second_run)) = 4%Z
  /\ st_paths (volume (snd second_run)) = 3%Z.
Proof.
  assert (Hold : (0 <= nshot (snd sample_run))%Z) by (vm_compute; discriminate).
  assert (Hmax : (nshot (snd sample_run) + Z.of_nat (length two_shots)
                  < 2 ^ 31)%Z) by (vm_compute; reflexivity).
  destruct (@categories_complete sorting_heap one_each foggy two_shots
              (snd sample_run) (snd second_run) Hold Hmax second_run_eq)
    as (Hc & Hi & Hv).
  destruct (Hc ltac:(discriminate)) as (Hlen & _).
  split; [split; reflexivity|]. split; [reflexivity|].
  split; [exact Hlen|]. split; reflexivity.
Defined.

(** One photon wanted in the caustic category, and only black light
    samples. *)
Definition caustic_only : Config := mkConfig 1 0 0 1 1 false.

Lemma stalled_run :
  shooting_loop caustic_only vacuum (repeat dud (Z.to_nat 500000))
    (declare_locals caustic_only (set_alreadyPreprocessed true Surface_Init))
  = (Shooting,
     set_nshot 500000
       (declare_locals caustic_only
          (set_alreadyPreprocessed true Surface_Init))).
Proof.
  rewrite <- (app_nil_r (repeat dud (Z.to_nat 500000))).
  rewrite shooting_loop_duds.
  - rewrite Z2Nat.id by lia. reflexivity.
  - intros (H & _). discriminate H.
  - rewrite Z2Nat.id by lia.
    cbn [nshot declare_locals set_alreadyPreprocessed Surface_Init]. lia.
Qed.

Lemma stall_aborts_witness :
  fst (Surface_Preprocess (heap := sorting_heap) caustic_only vacuum
         (repeat dud (Z.to_nat 500000) ++ [dud]) Surface_Init)
  = InsufficientPhotons 0 0 0.
Proof.
  assert (Hlights : nLights vacuum <> 0) by discriminate.
  assert (H5 : (500000 <= 500000)%Z) by lia.
  assert (Hmax : (500000 + 1 < 2 ^ 31)%Z) by lia.
  assert (Hc : (Z.of_nat 1 < 2 ^ 31)%Z) by (simpl; lia).
  assert (H0 : (Z.of_nat 0 < 2 ^ 31)%Z) by (simpl; lia).
  assert (Hun : unproductive 1 (fresh 1 (mkPhotonStore [] false 0 None []))
                  (500000 + 1)).
  { split; [simpl; lia | left; reflexivity]. }
  destruct (@stall_aborts sorting_heap caustic_only vacuum
              (repeat dud (Z.to_nat 500000)) dud []
              (set_nshot 500000
                 (declare_locals caustic_only
                    (set_alreadyPreprocessed true Surface_Init)))
              Hlights stalled_run H5 Hmax Hc H0 H0 (or_introl Hun))
    as (st' & Heq & _).
  rewrite Heq. reflexivity.
Defined.

(** One photon wanted in the caustic and one in the indirect category: a
    first shot that stores one indirect photon, then black light samples
    only. *)
Definition caustic_and_indirect : Config := mkConfig 1 1 0 1 1 false.
Definition indirect_shot : Shot :=
  mkShot (Spectrum_of_float 1) downward 1 1
    [segment_on diffuse; segment_on diffuse].

Definition after_indirect_shot : State :=
  Eval vm_compute in
    shoot caustic_and_indirect vacuum indirect_shot
      (set_nshot 1
         (declare_locals caustic_and_indirect
            (set_alreadyPreprocessed true Surface_Init))).

Lemma indirect_then_duds (n : nat) :
  (1 + Z.of_nat n = 500000)%Z ->
  let result :=
    Surface_Preprocess (heap := sorting_heap) caustic_and_indirect vacuum
      (indirect_shot :: repeat dud n ++ [dud]) Surface_Init in
  fst result = InsufficientPhotons 0 1 0
  /\ st_map (indirect (snd result))
     = Some [mkPhoton (mkV3 0 0 0) (Spectrum_of_float 1) (mkV3 0 0 (-1))].
Proof.
  intro Hn. cbv zeta.
  rewrite Surface_Preprocess_shooting by discriminate.
  rewrite shooting_loop_next.
  - replace (shoot caustic_and_indirect vacuum indirect_shot
               (set_nshot
                  (nshot (declare_locals caustic_and_indirect
                            (set_alreadyPreprocessed true Surface_Init)) + 1)
                  (declare_locals caustic_and_indirect
                     (set_alreadyPreprocessed true Surface_Init))))
      with after_indirect_shot by (vm_compute; reflexivity).
    rewrite shooting_loop_duds.
    + replace (nshot after_indirect_shot + Z.of_nat n)%Z with 500000%Z
        by (rewrite <- Hn; reflexivity).
      vm_compute. split; reflexivity.
    + intros (H & _). discriminate H.
    + replace (nshot after_indirect_shot + Z.of_nat n)%Z with 500000%Z
        by (rewrite <- Hn; reflexivity).
      lia.
  - intros (H & _). discriminate H.
  - reflexivity.
Qed.

(** C5, as stated, fails on that run: the precomputation gives up at shot
    500,001 because no caustic photon was stored, and the indirect map,
    built during the first shot, exists when it returns.  Besides, the test
    compares with the integer quotient: at shot 500,001 a category holding
    488 photons of 1000 holds fewer than one-1024th of the shots and is not
    counted as unproductive. *)
Lemma stall_keeps_built_map_counterexample :
  let result :=
    Surface_Preprocess (heap := sorting_heap) caustic_and_indirect vacuum
      (indirect_shot :: repeat dud (Z.to_nat 499999) ++ [dud]) Surface_Init in
  (fst result = InsufficientPhotons 0 1 0
   /\ st_map (indirect (snd result))
      = Some [mkPhoton (mkV3 0 0 0) (Spectrum_of_float 1) (mkV3 0 0 (-1))])
  /\ (488 * 1024 < 500001)%Z
  /\ unsuccessful 1000 488 500001 = false.
Proof.
  split; [|split].
  - apply indirect_then_duds. rewrite Z2Nat.id; lia.
  - lia.
  - reflexivity.
Qed.

(** ** The emission interface of [MedianCutEnvironmentLight] *)

(** C10: the Scene-based [Sample_L] of [MedianCutEnvironmentLight] returns
    the black spectrum and leaves the objects behind its [ray], [Ns] and
    [pdf] pointers as they were, whatever its arguments; [Pdf] returns 0
    for every point and direction; and a shot of the shooting loop whose
    light sample is this value traces nothing and stores nothing. *)
Theorem median_cut_emission_inert (scene : Scene)
    (ls : MedianCutEnvironmentLight.LightSample) (u1 u2 time : Q)
    (out : MedianCutEnvironmentLight.Outputs) (pt : Point) (w : Vector) :
  let sample := MedianCutEnvironmentLight.Sample_L scene ls u1 u2 time out in
  Black (fst sample) = true
  /\ fst sample = Spectrum_of_float 0
  /\ snd sample = out
  /\ MedianCutEnvironmentLight.Pdf pt w = 0%Q
  /\ forall cfg scene' ray light_pdf path st,
       shoot cfg scene'
         (mkShot (fst sample) ray
            (MedianCutEnvironmentLight.out_pdf (snd sample)) light_pdf path)
         st = st.
Proof.
  cbv zeta. unfold MedianCutEnvironmentLight.Sample_L. cbn [fst snd].
  repeat split; try reflexivity.
  intros cfg scene' ray light_pdf path st. unfold shoot.
  cbn [Sample_L_alpha Sample_L_pdf].
  replace (Black (Spectrum_of_float 0)) with true by reflexivity.
  rewrite orb_true_r. reflexivity.
Qed.

(** ** The neighbour search of [Surface_Li] on a sparse map *)

Section GatherProperties.
Context {heap : StlHeap}.

Lemma PhotonProcess_call_found (proc : PhotonProcess) (ph : nat)
    (dist2 md2 : Q) :
  foundPhotons (fst (PhotonProcess_call proc ph dist2 md2))
  <= S (foundPhotons proc).
Proof.
  unfold PhotonProcess_call.
  destruct (foundPhotons proc <? nLookup proc).
  - destruct (S (foundPhotons proc) =? nLookup proc); cbn; lia.
  - cbn. lia.
Qed.

Lemma Lookup_candidates_found (cs : list ClosePhoton) :
  forall proc md2,
    foundPhotons (fst (Lookup_candidates cs proc md2))
    <= foundPhotons proc + length cs.
Proof.
  induction cs as [|c cs IH]; intros proc md2.
  - cbn. lia.
  - cbn [Lookup_candidates length].
    destruct (Qltb (distanceSquared c) md2).
    + pose proof (PhotonProcess_call_found proc (photon c)
                    (distanceSquared c) md2) as Hcall.
      destruct (PhotonProcess_call proc (photon c) (distanceSquared c) md2)
        as [proc' md2'].
      cbn [fst] in Hcall. specialize (IH proc' md2'). lia.
    + specialize (IH proc md2). lia.
Qed.

Lemma candidates_from_length (i : nat) (nodes : list Photon) (pt : Point) :
  length (candidates_from i nodes pt) = length nodes.
Proof.
  revert i. induction nodes as [|nd rest IH]; intro i.
  - reflexivity.
  - cbn. rewrite IH. reflexivity.
Qed.

Lemma search_loop_sparse (m : KdTree Photon) (pt : Point) (fuel : nat) :
  length m < nIndirSamplePhotons ->
  forall proc searchDist2,
    foundPhotons proc < nIndirSamplePhotons ->
    search_loop fuel (Some m) pt proc searchDist2 = Searching.
Proof.
  intro Hm. induction fuel as [|fuel IH]; intros proc searchDist2 Hfound.
  - cbn [search_loop].
    apply Nat.ltb_lt in Hfound. rewrite Hfound. reflexivity.
  - cbn [search_loop].
    pose proof Hfound as Hb. apply Nat.ltb_lt in Hb. rewrite Hb.
    pose proof (Lookup_candidates_found (candidates_from 0 m pt)
                  (mkPhotonProcess (photons proc) (nLookup proc) 0)
                  searchDist2) as Hle.
    rewrite candidates_from_length in Hle. cbn [foundPhotons] in Hle.
    unfold Lookup.
    destruct (Lookup_candidates (candidates_from 0 m pt)
                (mkPhotonProcess (photons proc) (nLookup proc) 0) searchDist2)
      as [proc' md2'].
    cbn [fst] in Hle. apply IH. lia.
Qed.

(** C6 fails on the code: with final gather on, at a point whose
    scattering distribution has a non-specular component, the search calls
    through a null pointer when there is no indirect map, and never ends,
    however often the radius is doubled, when the indirect map holds fewer
    than 50 photons. *)
Theorem sparse_indirect_map_search (cfg : Config) (st : State)
    (nonSpecularComponents : nat) (pt : Point) (fuel : nat) :
  finalGather cfg = true -> 0 < nonSpecularComponents ->
  (st_map (indirect st) = None ->
   Surface_Li_search cfg st nonSpecularComponents pt (S fuel) = Some NullMap)
  /\ (forall m, st_map (indirect st) = Some m ->
      length m < nIndirSamplePhotons ->
      Surface_Li_search cfg st nonSpecularComponents pt fuel = Some Searching).
Proof.
  intros Hfg Hns. unfold Surface_Li_search. rewrite Hfg.
  apply Nat.ltb_lt in Hns. rewrite Hns. split.
  - intros ->. reflexivity.
  - intros m -> Hm. f_equal. apply search_loop_sparse; [assumption|].
    cbn. unfold nIndirSamplePhotons. lia.
Qed.

End GatherProperties.

(** After the sample run, whose indirect map holds one photon, the search
    of a shading query is still running after a thousand iterations. *)
Lemma sparse_indirect_map_search_witness :
  Surface_Li_search (heap := sorting_heap) one_each (snd sample_run) 1
    (mkV3 0 0 0) 1000 = Some Searching.
Proof.
  assert (Hfg : finalGather one_each = true) by reflexivity.
  assert (Hns : 0 < 1) by lia.
  destruct (@sparse_indirect_map_search sorting_heap one_each
              (snd sample_run) 1 (mkV3 0 0 0) 1000 Hfg Hns) as [_ Hsparse].
  apply (Hsparse _ eq_refl). cbn. unfold nIndirSamplePhotons. lia.
Defined.

(** ** The radiance precomputation *)

Lemma Seq_refl (a : Spectrum) : Seq a a.
Proof. unfold Seq. repeat split; reflexivity. Qed.

Lemma Seq_trans (a b c : Spectrum) : Seq a b -> Seq b c -> Seq a c.
Proof.
  unfold Seq. intros (H0 & H1 & H2) (K0 & K1 & K2).
  repeat split; etransitivity; eassumption.
Qed.





Lemma FSeq_trans (a b c : FSpectrum) : FSeq a b -> FSeq b c -> FSeq a c.
Proof.
  destruct a, b, c; cbn; try contradiction; try (intros; exact I).
  apply Seq_trans.
Qed.




Section RadianceProperties.
Context {heap : StlHeap}.



Lemma radiance_loop_length (cfg : Config) (st : State)
    (directMap : KdTree Photon) (nDirectPaths : Z)
    (rps : list RadiancePhoton) :
  forall i, length (radiance_loop cfg st directMap nDirectPaths i rps)
            = length rps.
Proof.
  induction rps as [|rp rest IH]; intro i; cbn; [reflexivity|].
  rewrite IH. reflexivity.
Qed.



End RadianceProperties.



(** A lookup with bound 1 that ends on a photon stored at the point itself
    has shrunk the radius to zero: the estimate is not a number. *)
Example estimate_at_a_stored_photon :
  let map := Some [mkPhoton (mkV3 0 0 0) (Spectrum_of_float 1) (mkV3 0 0 1)] in
  Surface_estimateE (heap := sorting_heap) 1 4 map 1 (mkV3 0 0 0) (mkV3 0 0 1)
  = NotFinite.
Proof. vm_compute. reflexivity. Qed.

(** ** Further examples *)

(** The state and the locals of a sample path after two bounces on a
    mirror. *)
Definition after_two_mirrors : option (State * PathState) :=
  Eval vm_compute in
    advance sample_config vacuum [segment_on mirror; segment_on mirror]
      (declare_locals sample_config Surface_Init) sample_start.

Lemma specular_flag_rule_witness :
  match after_two_mirrors with
  | Some (_, ps) => specularPath ps = true
  | None => False
  end.
Proof.
  destruct after_two_mirrors as [[st ps]|] eqn:E; [|discriminate E].
  assert (Hadv : advance sample_config vacuum
                   [segment_on mirror; segment_on mirror]
                   (declare_locals sample_config Surface_Init) sample_start
                 = Some (st, ps)).
  { rewrite <- E. vm_compute. reflexivity. }
  destruct (specular_flag_rule sample_config vacuum) as (_ & _ & Hflag).
  rewrite (Hflag [segment_on mirror; segment_on mirror]
             (declare_locals sample_config Surface_Init) sample_start st ps
             (eq_refl false) (eq_refl 0) Hadv).
  reflexivity.
Defined.

(** A path that is reflected by a mirror and then, on its way to a
    diffuse surface, scattered inside the medium. *)
Definition off_a_mirror : list Segment :=
  [segment_in_medium mirror pass_through (1 # 2)].
Definition through_the_fog : Segment :=
  segment_in_medium diffuse
    (mkTraceScript false [scatter_down] (Some (hit_on diffuse))) (1 # 2).

(** C3, as stated, fails on that path: it was scattered isotropically
    inside the medium, so it is not purely specular, and the photon
    deposited at the diffuse surface goes into the caustic category, not
    into the indirect one. *)
Lemma scattered_photon_caustic_counterexample :
  let cfg := mkConfig 2 2 0 1 1 false in
  let st0 := set_nshot 1 (declare_locals cfg Surface_Init) in
  scattered_in_medium foggy through_the_fog = true
  /\ purely_specular_so_far foggy off_a_mirror through_the_fog = false
  /\ match advance cfg foggy off_a_mirror st0 sample_start with
     | Some (st, ps) =>
         let st' := fst (bounce cfg foggy st ps through_the_fog) in
         map ph_p (st_photons (caustic st')) = [dg_p (hit_on diffuse)]
         /\ st_photons (indirect st') = []
         /\ directPhotons st' = []
     | None => False
     end.
Proof.
  split; [reflexivity|]. split; [reflexivity|].
  vm_compute. repeat split; reflexivity.
Qed.

Definition three_radiance_photons : KdTree RadiancePhoton :=
  [ mkRadiancePhoton (mkV3 2 0 0) (mkV3 0 0 1) (Finite (Spectrum_of_float 1));
    mkRadiancePhoton (mkV3 1 0 0) (mkV3 0 0 1) (Finite (Spectrum_of_float 2));
    mkRadiancePhoton (mkV3 0 0 0) (mkV3 0 0 (-1))
      (Finite (Spectrum_of_float 3)) ].

Lemma radiance_lookup_nearest_accepted_witness :
  Lookup_Radiance three_radiance_photons (mkV3 0 0 0)
    (RadiancePhotonProcess_new (mkV3 0 0 1)) None
  = (mkRadiancePhotonProcess (mkV3 0 0 1) (Some 1), Some 1%Q)
  /\ forall rp', In rp' three_radiance_photons ->
       (0 < Dot (rp_n rp') (mkV3 0 0 1))%Q ->
       (1 <= DistanceSquared (rp_p rp') (mkV3 0 0 0))%Q.
Proof.
  assert (E : Lookup_Radiance three_radiance_photons (mkV3 0 0 0)
                (RadiancePhotonProcess_new (mkV3 0 0 1)) None
              = (mkRadiancePhotonProcess (mkV3 0 0 1) (Some 1), Some 1%Q))
    by (vm_compute; reflexivity).
  split; [exact E|].
  destruct (radiance_lookup_nearest_accepted three_radiance_photons
              (mkV3 0 0 0) (mkV3 0 0 1) None) as (_ & _ & H).
  cbv zeta in H. rewrite E in H. cbn [fst snd rpp_photon] in H.
  destruct H as (rp & Hnth & _ & _ & _ & Hmin).
  injection Hnth as <-.
  intros rp' Hin Hacc.
  apply (Qle_trans _ (DistanceSquared (mkV3 1 0 0) (mkV3 0 0 0))).
  - vm_compute. discriminate.
  - apply (Hmin rp' Hin Hacc). reflexivity.
Defined.

(* ===================================================================== *)
(** * Further properties of the code *)
(* ===================================================================== *)

(** ** [ClosePhoton::operator<] and [unsuccessful] *)

(** X1: [ClosePhoton::operator<] is a strict total order on the entries of
    a collector: it is irreflexive, transitive and asymmetric, and two
    entries neither of which is smaller than the other have the same
    squared distance and point to the same photon.  This is what
    [std::make_heap], [std::pop_heap] and [std::push_heap] ask of the
    comparison. *)
Theorem ClosePhoton_lt_strict_total_order :
  (forall a, ClosePhoton_lt a a = false)
  /\ (forall a b c, ClosePhoton_lt a b = true -> ClosePhoton_lt b c = true ->
        ClosePhoton_lt a c = true)
  /\ (forall a b, ClosePhoton_lt a b = true -> ClosePhoton_lt b a = false)
  /\ (forall a b, ClosePhoton_lt a b = false -> ClosePhoton_lt b a = false ->
        (distanceSquared a == distanceSquared b)%Q /\ photon a = photon b).
Proof.
  split; [exact ClosePhoton_ge_refl|]. split; [|split].
  - intros a b c. rewrite !ClosePhoton_lt_true.
    intros [H1 | [H1 H1']] [H2 | [H2 H2']].
    + left. lra.
    + left. lra.
    + left. lra.
    + right. split; [lra | lia].
  - exact ClosePhoton_lt_asym.
  - intros a b. rewrite !ClosePhoton_lt_false.
    intros [H1 | [H1 H1']] [H2 | [H2 H2']]; try lra.
    split; [assumption | lia].
Qed.

(** X2: for a shot count that has not overflowed, [unsuccessful] holds
    exactly when the category holds fewer photons than needed and either
    holds none or has stored fewer than one photon per 1024 shots in whole
    numbers, that is [1024 * (found + 1) <= shot]. *)
Theorem unsuccessful_iff (needed found shot : Z) :
  (0 <= shot)%Z ->
  unsuccessful needed found shot = true <->
  (found < needed)%Z /\ (found = 0 \/ 1024 * (found + 1) <= shot)%Z.
Proof.
  intro Hs. unfold unsuccessful.
  rewrite andb_true_iff, orb_true_iff, !Z.ltb_lt, Z.eqb_eq.
  rewrite Z.quot_div_nonneg by lia.
  pose proof (Z.div_mod shot 1024 ltac:(lia)) as Hdm.
  pose proof (Z.mod_pos_bound shot 1024 ltac:(lia)) as Hmod.
  split; intros [H1 H2]; (split; [assumption|]);
    (destruct H2 as [H2 | H2]; [left; assumption | right; lia]).
Qed.

Lemma unsuccessful_iff_witness :
  unsuccessful 1000 487 500001 = true /\ unsuccessful 1000 488 500001 = false.
Proof.
  split.
  - apply (proj2 (@unsuccessful_iff 1000 487 500001 ltac:(lia))). lia.
  - reflexivity.
Defined.

(** ** [Surface_Preprocess]: what a call leaves behind *)

(** What the tracing of photons leaves alone: the flag
    [alreadyPreprocessed], the radiance map and, when final gather is off,
    the three vectors of the radiance photons. *)
Definition tracing_keeps (cfg : Config) (st st' : State) : Prop :=
  alreadyPreprocessed st' = alreadyPreprocessed st
  /\ radianceMap st' = radianceMap st
  /\ (finalGather cfg = false ->
      radiancePhotons st' = radiancePhotons st
      /\ rpReflectances st' = rpReflectances st
      /\ rpTransmittances st' = rpTransmittances st).

Lemma tracing_keeps_refl (cfg : Config) (st : State) : tracing_keeps cfg st st.
Proof. repeat split; reflexivity. Qed.

Lemma tracing_keeps_trans (cfg : Config) (a b c : State) :
  tracing_keeps cfg a b -> tracing_keeps cfg b c -> tracing_keeps cfg a c.
Proof.
  intros (H1 & H2 & H3) (K1 & K2 & K3). split; [congruence|].
  split; [congruence|]. intro Hfg.
  destruct (H3 Hfg) as (? & ? & ?). destruct (K3 Hfg) as (? & ? & ?).
  repeat split; congruence.
Qed.

Lemma deposit_at_surface_keeps (cfg : Config) (st : State) (ray : Ray)
    (isect : Intersection) (alpha : Spectrum) (flag : bool) (n : nat)
    (u : Q) :
  tracing_keeps cfg st (deposit_at_surface cfg st ray isect alpha flag n u).
Proof.
  unfold tracing_keeps, deposit_at_surface.
  destruct (finalGather cfg); cbn [andb].
  - destruct (Qltb u 0.125); destruct (n =? 1); destruct flag; cbn;
      repeat split; first [reflexivity | discriminate].
  - destruct (n =? 1); destruct flag; cbn; repeat split; reflexivity.
Qed.

Lemma bounce_keeps (cfg : Config) (scene : Scene) (st : State)
    (ps : PathState) (seg : Segment) :
  tracing_keeps cfg st (fst (bounce cfg scene st ps seg)).
Proof.
  destruct (TraceThrough cfg scene (seg_trace seg) (photonRay ps)
              (seg_isect seg) (path_alpha ps) (to_int (nshot st)) (volume st))
    as [[[[reached ray] isect] alpha] vol] eqn:ET.
  assert (H1 : tracing_keeps cfg st (set_volume vol st))
    by (repeat split; reflexivity).
  destruct reached.
  - rewrite (bounce_reached _ _ _ _ _ ET).
    destruct (hasNonSpecular (GetBSDF isect)); [|assumption].
    eapply tracing_keeps_trans; [exact H1 | apply deposit_at_surface_keeps].
  - unfold bounce. rewrite ET. cbn. assumption.
Qed.

Lemma walk_keeps (cfg : Config) (scene : Scene) (segs : list Segment) :
  forall st ps, tracing_keeps cfg st (walk cfg scene segs st ps).
Proof.
  induction segs as [|seg rest IH]; intros st ps.
  - apply tracing_keeps_refl.
  - cbn [walk]. pose proof (bounce_keeps cfg scene st ps seg) as Hb.
    destruct (bounce cfg scene st ps seg) as [st1 [ps1|]]; cbn [fst] in Hb.
    + eapply tracing_keeps_trans; [exact Hb | apply IH].
    + assumption.
Qed.

Lemma shoot_keeps (cfg : Config) (scene : Scene) (shot : Shot) (st : State) :
  tracing_keeps cfg st (shoot cfg scene shot st).
Proof.
  unfold shoot.
  destruct (Qeq_bool (Sample_L_pdf shot) 0 || Black (Sample_L_alpha shot));
    [apply tracing_keeps_refl|].
  match goal with
  | |- context [if negb ?c then _ else _] => destruct c
  end; cbn [negb]; [apply tracing_keeps_refl | apply walk_keeps].
Qed.

Lemma shooting_loop_keeps (cfg : Config) (scene : Scene) (shots : list Shot) :
  forall st, tracing_keeps cfg st (snd (shooting_loop cfg scene shots st)).
Proof.
  induction shots as [|shot rest IH]; intro st.
  - cbn [shooting_loop].
    destruct (negb (st_done (caustic st)) || negb (st_done (indirect st))
              || negb (st_done (volume st))); apply tracing_keeps_refl.
  - cbn [shooting_loop].
    destruct (negb (st_done (caustic st)) || negb (st_done (indirect st))
              || negb (st_done (volume st))); [|apply tracing_keeps_refl].
    assert (H1 : tracing_keeps cfg st (set_nshot (nshot st + 1) st))
      by (repeat split; reflexivity).
    destruct (stalled cfg (set_nshot (nshot st + 1) st)); [exact H1|].
    eapply tracing_keeps_trans; [exact H1|].
    eapply tracing_keeps_trans; [apply shoot_keeps | apply IH].
Qed.

(** A shooting loop that gives up has advanced the shot counter. *)
Lemma shooting_loop_abort_counter (cfg : Config) (scene : Scene)
    (shots : list Shot) :
  forall st a b c st',
    shooting_loop cfg scene shots st = (InsufficientPhotons a b c, st') ->
    (nshot st < nshot st')%Z.
Proof.
  induction shots as [|shot rest IH]; intros st a b c st' H.
  - cbn [shooting_loop] in H.
    destruct (negb (st_done (caustic st)) || negb (st_done (indirect st))
              || negb (st_done (volume st))); discriminate.
  - cbn [shooting_loop] in H.
    destruct (negb (st_done (caustic st)) || negb (st_done (indirect st))
              || negb (st_done (volume st))); [|discriminate].
    destruct (stalled cfg (set_nshot (nshot st + 1) st)).
    + injection H as _ _ _ <-. cbn. lia.
    + apply IH in H.
      destruct (shoot_step cfg scene shot (set_nshot (nshot st + 1) st))
        as (_ & _ & _ & Hn).
      rewrite Hn in H. cbn [nshot set_nshot] in H. lia.
Qed.

Section AfterPreprocess.
Context {heap : StlHeap}.

Lemma Surface_Preprocess_sets_flag (cfg : Config) (scene : Scene)
    (shots : list Shot) (st : State) :
  alreadyPreprocessed (snd (Surface_Preprocess cfg scene shots st)) = true.
Proof.
  unfold Surface_Preprocess.
  destruct (alreadyPreprocessed st) eqn:E; [exact E|].
  destruct (nLights scene =? 0); [reflexivity|].
  pose proof (shooting_loop_keeps cfg scene shots
                (declare_locals cfg (set_alreadyPreprocessed true st)))
    as (Hflag & _).
  destruct (shooting_loop cfg scene shots
              (declare_locals cfg (set_alreadyPreprocessed true st)))
    as [out st1].
  cbn [snd] in Hflag. cbn in Hflag.
  destruct out; cbn [snd]; try assumption.
  unfold precompute_radiance. destruct (finalGather cfg); cbn; assumption.
Qed.

(** X3: [Surface_Preprocess] runs once per object.  However a call ended
    (completed, no lights, too few photons, or still shooting), a further
    call, with any scene, returns at once and changes nothing: a
    precomputation that was given up is not retried. *)
Theorem Surface_Preprocess_once (cfg cfg2 : Config) (scene scene2 : Scene)
    (shots shots2 : list Shot) (st : State) :
  Surface_Preprocess cfg2 scene2 shots2
    (snd (Surface_Preprocess cfg scene shots st))
  = (AlreadyPreprocessed, snd (Surface_Preprocess cfg scene shots st)).
Proof.
  unfold Surface_Preprocess at 1.
  rewrite Surface_Preprocess_sets_flag. reflexivity.
Qed.

(** A call on an object whose flag is not set, by its shooting loop. *)
Lemma Surface_Preprocess_cases_from (cfg : Config) (scene : Scene)
    (shots : list Shot) (st : State) (out : Outcome) (st' : State) :
  alreadyPreprocessed st = false ->
  Surface_Preprocess cfg scene shots st = (out, st') ->
  (out = NoLights /\ st' = set_alreadyPreprocessed true st)
  \/ exists out1 st1,
       shooting_loop cfg scene shots
         (declare_locals cfg (set_alreadyPreprocessed true st))
       = (out1, st1)
       /\ out = out1
       /\ st' = (if match out1 with Completed => true | _ => false end
                 then precompute_radiance cfg st1 else st1).
Proof.
  intro Hnew. unfold Surface_Preprocess. rewrite Hnew.
  destruct (nLights scene =? 0).
  - intro H. injection H as <- <-. left. split; reflexivity.
  - destruct (shooting_loop cfg scene shots
                (declare_locals cfg (set_alreadyPreprocessed true st)))
      as [out1 st1].
    intro H. right. exists out1, st1. split; [reflexivity|].
    destruct out1; injection H as <- <-; split; reflexivity.
Qed.

(** A call on the freshly initialised object, by its shooting loop. *)
Lemma Surface_Preprocess_cases (cfg : Config) (scene : Scene)
    (shots : list Shot) (out : Outcome) (st' : State) :
  Surface_Preprocess cfg scene shots Surface_Init = (out, st') ->
  (out = NoLights /\ st' = set_alreadyPreprocessed true Surface_Init)
  \/ exists out1 st1,
       shooting_loop cfg scene shots
         (declare_locals cfg (set_alreadyPreprocessed true Surface_Init))
       = (out1, st1)
       /\ out = out1
       /\ st' = (if match out1 with Completed => true | _ => false end
                 then precompute_radiance cfg st1 else st1).
Proof. apply Surface_Preprocess_cases_from. reflexivity. Qed.

(** X4: after a call of [Surface_Preprocess] on the freshly initialised
    object, however it ended, the vectors [rpReflectances] and
    [rpTransmittances] are as long as [radiancePhotons], so that the
    indexing of the precomputation loop stays in range; the radiance map
    exists exactly when the call completed with final gather on; and with
    final gather off no radiance photon was recorded. *)
Theorem radiance_vectors_aligned (cfg : Config) (scene : Scene)
    (shots : list Shot) (out : Outcome) (st' : State) :
  Surface_Preprocess cfg scene shots Surface_Init = (out, st') ->
  length (rpReflectances st') = length (radiancePhotons st')
  /\ length (rpTransmittances st') = length (radiancePhotons st')
  /\ (radianceMap st' <> None <-> out = Completed /\ finalGather cfg = true)
  /\ (finalGather cfg = false -> radiancePhotons st' = []).
Proof.
  intro H. destruct (Surface_Preprocess_cases _ _ _ H)
    as [[-> ->] | (out1 & st1 & Hloop & -> & ->)].
  - cbn. split; [reflexivity|]. split; [reflexivity|]. split; [|reflexivity].
    split; [intro K; contradiction | intros [K _]; discriminate K].
  - destruct (@shooting_loop_ok cfg scene shots _ _ _ (declare_locals_ok cfg)
                Hloop) as (Hok & _ & Hout).
    destruct Hok as (_ & _ & _ & Hmap & Hlr & Hlt & _).
    pose proof (shooting_loop_keeps cfg scene shots
                  (declare_locals cfg
                     (set_alreadyPreprocessed true Surface_Init)))
      as (_ & _ & Hoff).
    rewrite Hloop in Hoff. cbn [snd] in Hoff.
    assert (Hempty : finalGather cfg = false -> radiancePhotons st1 = []).
    { intro Hfg. destruct (Hoff Hfg) as (E & _). exact E. }
    assert (Hnot : forall o, o <> Completed ->
              radianceMap st1 <> None <-> o = Completed /\ finalGather cfg = true).
    { intros o Ho. rewrite Hmap.
      split; [intro K; contradiction | intros [K _]; contradiction]. }
    destruct out1; try contradiction.
    + split; [assumption|]. split; [assumption|].
      split; [apply Hnot; discriminate | assumption].
    + unfold precompute_radiance. destruct (finalGather cfg) eqn:Efg.
      * cbn [radianceMap radiancePhotons rpReflectances rpTransmittances
               set_radianceMap set_radiance].
        rewrite !radiance_loop_length.
        split; [assumption|]. split; [assumption|]. split.
        -- split; [intros _; split; reflexivity | intros _; discriminate].
        -- intro K. discriminate K.
      * split; [assumption|]. split; [assumption|]. split; [|assumption].
        rewrite Hmap.
        split; [intro K; contradiction | intros [_ K]; discriminate K].
    + split; [assumption|]. split; [assumption|].
      split; [apply Hnot; discriminate | assumption].
Qed.

(** X5: a category whose target is zero is never touched by
    [Surface_Preprocess]: however the call on the freshly initialised
    object ends, the category holds no photon and its map is [NULL]. *)
Theorem zero_target_category_empty (cfg : Config) (scene : Scene)
    (shots : list Shot) (out : Outcome) (st' : State) :
  Surface_Preprocess cfg scene shots Surface_Init = (out, st') ->
  let empty (c : PhotonStore) : Prop :=
    st_photons c = [] /\ st_map c = None /\ st_built c = [] in
  (nCausticPhotons cfg = 0 -> empty (caustic st'))
  /\ (nIndirectPhotons cfg = 0 -> empty (indirect st'))
  /\ (nVolumePhotons cfg = 0 -> empty (volume st')).
Proof.
  intros H empty. subst empty. cbv beta.
  destruct (Surface_Preprocess_cases _ _ _ H)
    as [[-> ->] | (out1 & st1 & Hloop & -> & ->)].
  - cbn. repeat split; reflexivity.
  - assert (Hkeep : forall st1',
              st1' = (if match out1 with Completed => true | _ => false end
                      then precompute_radiance cfg st1 else st1) ->
              caustic st1' = caustic st1 /\ indirect st1' = indirect st1
              /\ volume st1' = volume st1).
    { intros st1' ->.
      destruct (precompute_radiance_keeps cfg st1) as (? & ? & ? & _).
      destruct out1; repeat split; first [reflexivity | assumption]. }
    destruct (Hkeep _ eq_refl) as (-> & -> & ->).
    split; [|split]; intro Hz.
    + rewrite (@complete_stays cfg scene caustic (fun a st => eq_refl)
                 (fun shot st => proj1 (shoot_step cfg scene shot st))
                 shots _ _ _ Hloop).
      * cbn. repeat split; reflexivity.
      * cbn. rewrite Hz. reflexivity.
    + rewrite (@complete_stays cfg scene indirect (fun a st => eq_refl)
                 (fun shot st => proj1 (proj2 (shoot_step cfg scene shot st)))
                 shots _ _ _ Hloop).
      * cbn. repeat split; reflexivity.
      * cbn. rewrite Hz. reflexivity.
    + rewrite (@complete_stays cfg scene volume (fun a st => eq_refl)
                 (fun shot st =>
                    proj1 (proj2 (proj2 (shoot_step cfg scene shot st))))
                 shots _ _ _ Hloop).
      * cbn. repeat split; reflexivity.
      * cbn. rewrite Hz. reflexivity.
Qed.

(** X6: [Surface_Preprocess] gives up only with the shot counter of the
    process above 500,000.  When a call on an initialised object reports
    too few photons, the counter is above 500,000; it has advanced by at
    least one and by at most the number of shots available to the call
    from the value the call found; some category is still pending, the
    counts reported are the sizes of the three categories, and no radiance
    map has been built.  In the first precomputation of a process, which
    finds the counter at zero, the call has then started more than 500,000
    shots. *)
Theorem abort_only_after_500000 (cfg : Config) (scene : Scene)
    (shots : list Shot) (a b c : nat) (old st' : State) :
  Surface_Preprocess cfg scene shots (Surface_Init_again old)
  = (InsufficientPhotons a b c, st') ->
  (500000 < nshot st')%Z
  /\ (nshot old < nshot st' <= nshot old + Z.of_nat (length shots))%Z
  /\ (nshot old = 0%Z -> (500000 < Z.of_nat (length shots))%Z)
  /\ ~ all_done st'
  /\ a = length (st_photons (caustic st'))
  /\ b = length (st_photons (indirect st'))
  /\ c = length (st_photons (volume st'))
  /\ radianceMap st' = None.
Proof.
  intro H.
  destruct (@Surface_Preprocess_cases_from cfg scene shots
              (Surface_Init_again old) _ _ eq_refl H)
    as [[K _] | (out1 & st1 & Hloop & <- & ->)]; [discriminate K|].
  destruct (@shooting_loop_ok cfg scene shots _ _ _
              (declare_locals_again_ok cfg old) Hloop)
    as (Hok & Hn & Hp & Hst & Ha & Hb & Hc).
  pose proof (shooting_loop_abort_counter _ _ _ _ Hloop) as Hadv.
  destruct Hok as (_ & _ & _ & Hmap & _).
  cbn [nshot declare_locals set_alreadyPreprocessed Surface_Init_again]
    in Hn, Hadv.
  unfold stalled in Hst. apply andb_prop in Hst. destruct Hst as [Hst _].
  apply Z.ltb_lt in Hst.
  repeat split; try assumption; lia.
Qed.

(** X21: a precomputation that finds the shot counter at 500,000 or more
    gives up at its first shot when some target is not zero: the test of
    lines 444-453 holds as soon as the counter is incremented, every
    category being still empty; no photon is traced, whatever the scene,
    and the error reports three zeros. *)
Theorem later_precomputation_gives_up (cfg : Config) (scene : Scene)
    (shot : Shot) (rest : list Shot) (old : State) :
  nLights scene <> 0 ->
  (500000 <= nshot old)%Z -> (nshot old + 1 < 2 ^ 31)%Z ->
  (Z.of_nat (nCausticPhotons cfg) < 2 ^ 31)%Z ->
  (Z.of_nat (nIndirectPhotons cfg) < 2 ^ 31)%Z ->
  (Z.of_nat (nVolumePhotons cfg) < 2 ^ 31)%Z ->
  nCausticPhotons cfg <> 0 \/ nIndirectPhotons cfg <> 0
  \/ nVolumePhotons cfg <> 0 ->
  Surface_Preprocess cfg scene (shot :: rest) (Surface_Init_again old)
  = (InsufficientPhotons 0 0 0,
     set_nshot (nshot old + 1)
       (declare_locals cfg
          (set_alreadyPreprocessed true (Surface_Init_again old)))).
Proof.
  intros Hlights H5 Hmax Hc Hi Hv Hsome.
  set (st := declare_locals cfg
               (set_alreadyPreprocessed true (Surface_Init_again old))).
  assert (Hrun : Surface_Preprocess cfg scene (shot :: rest)
                   (Surface_Init_again old)
                 = match shooting_loop cfg scene (shot :: rest) st with
                   | (Completed, st') => (Completed, precompute_radiance cfg st')
                   | other => other
                   end).
  { unfold Surface_Preprocess. cbn [alreadyPreprocessed Surface_Init_again].
    apply Nat.eqb_neq in Hlights. rewrite Hlights. reflexivity. }
  rewrite Hrun.
  assert (Hpending : ~ all_done st).
  { intros (Dc & Di & Dv). cbn in Dc, Di, Dv.
    apply Nat.eqb_eq in Dc, Di, Dv. destruct Hsome as [K | [K | K]]; lia. }
  assert (Hst : stalled cfg (set_nshot (nshot st + 1) st) = true).
  { unfold stalled. cbn [nshot set_nshot caustic indirect volume].
    assert (Hn : nshot st = nshot old) by reflexivity. rewrite Hn.
    apply andb_true_intro. split; [apply Z.ltb_lt; lia|].
    assert (Hun : forall target c,
              target <> 0 -> st_photons c = [] ->
              unproductive target c (nshot old + 1)).
    { intros target c Ht Hc0. unfold unproductive. rewrite Hc0.
      split; [simpl; lia | left; reflexivity]. }
    destruct Hsome as [K | [K | K]].
    - rewrite (unproductive_unsuccessful Hc);
        [reflexivity | lia | apply Hun; [assumption | reflexivity]].
    - rewrite (unproductive_unsuccessful Hi (c := indirect st));
        [|lia | apply Hun; [assumption | reflexivity]].
      rewrite orb_true_r. reflexivity.
    - rewrite (unproductive_unsuccessful Hv (c := volume st));
        [|lia | apply Hun; [assumption | reflexivity]].
      rewrite !orb_true_r. reflexivity. }
  rewrite (@shooting_loop_stalled cfg scene shot rest st Hpending Hst).
  reflexivity.
Qed.

End AfterPreprocess.

Lemma caustic_only_run :
  Surface_Preprocess (heap := sorting_heap) caustic_only vacuum
    (repeat dud (Z.to_nat 500000) ++ [dud]) Surface_Init
  = (InsufficientPhotons 0 0 0,
     set_nshot 500001
       (declare_locals caustic_only
          (set_alreadyPreprocessed true Surface_Init))).
Proof.
  rewrite Surface_Preprocess_shooting by discriminate.
  rewrite (@shooting_loop_app caustic_only vacuum _ _ _ _ stalled_run).
  rewrite shooting_loop_stalled.
  - reflexivity.
  - intros (K & _). discriminate K.
  - reflexivity.
Qed.

Lemma radiance_vectors_aligned_witness :
  length (rpReflectances (snd sample_run)) = 1
  /\ radianceMap (snd sample_run) <> None.
Proof.
  destruct (@radiance_vectors_aligned sorting_heap one_each foggy two_shots
              Completed (snd sample_run) sample_run_eq)
    as (Hlen & _ & Hmap & _).
  split.
  - rewrite Hlen. reflexivity.
  - apply (proj2 Hmap). split; reflexivity.
Defined.

Lemma zero_target_category_empty_witness :
  st_photons (indirect
    (snd (Surface_Preprocess (heap := sorting_heap) caustic_only vacuum
            (repeat dud (Z.to_nat 500000) ++ [dud]) Surface_Init))) = [].
Proof.
  destruct (@zero_target_category_empty sorting_heap caustic_only vacuum
              (repeat dud (Z.to_nat 500000) ++ [dud]) _ _ caustic_only_run)
    as (_ & Hi & _).
  rewrite caustic_only_run. cbn [snd].
  destruct (Hi eq_refl) as (E & _). exact E.
Defined.

Lemma abort_only_after_500000_witness :
  (500000 <
   nshot (set_nshot 500001
            (declare_locals caustic_only
               (set_alreadyPreprocessed true Surface_Init))))%Z.
Proof.
  destruct (@abort_only_after_500000 sorting_heap caustic_only vacuum
              (repeat dud (Z.to_nat 500000) ++ [dud]) 0 0 0 Surface_Init _
              caustic_only_run) as (H & _).
  exact H.
Defined.

(** The scene of [sample_run], whose precomputation completes with two
    shots in a fresh process, on the object as the precomputation given up
    above has left it: the counter stands at 500,001 and the first shot is
    not traced. *)
Lemma later_precomputation_gives_up_witness :
  fst (Surface_Preprocess (heap := sorting_heap) one_each foggy two_shots
         Surface_Init) = Completed
  /\ fst (Surface_Preprocess (heap := sorting_heap) one_each foggy two_shots
            (Surface_Init_again
               (snd (Surface_Preprocess (heap := sorting_heap) caustic_only
                       vacuum (repeat dud (Z.to_nat 500000) ++ [dud])
                       Surface_Init))))
     = InsufficientPhotons 0 0 0.
Proof.
  split; [rewrite sample_run_eq; reflexivity|].
  rewrite caustic_only_run. cbn [snd].
  unfold two_shots.
  rewrite (@later_precomputation_gives_up sorting_heap one_each foggy);
    first [ reflexivity | discriminate
          | cbn; lia | left; discriminate ].
Defined.

(** ** The length of a photon path *)

(** The photons deposited at surfaces so far: the direct set and the
    caustic and indirect categories. *)
Definition surface_photons (st : State) : nat :=
  length (directPhotons st) + length (st_photons (caustic st))
  + length (st_photons (indirect st)).

Lemma deposit_length (target : nat) (shot : Z) (ph : Photon)
    (c : PhotonStore) :
  length (st_photons c) <= length (st_photons (deposit target shot ph c))
  <= S (length (st_photons c)).
Proof.
  destruct (st_done c) eqn:E.
  - rewrite deposit_done by assumption. lia.
  - rewrite deposit_pending by assumption. rewrite length_app. simpl. lia.
Qed.

(** One iteration of the path loop stores at most one surface photon and
    records at most one radiance photon. *)
Lemma bounce_stores_one (cfg : Config) (scene : Scene) (st : State)
    (ps : PathState) (seg : Segment) :
  let st' := fst (bounce cfg scene st ps seg) in
  surface_photons st <= surface_photons st' <= S (surface_photons st)
  /\ length (radiancePhotons st) <= length (radiancePhotons st')
     <= S (length (radiancePhotons st)).
Proof.
  cbv zeta.
  destruct (TraceThrough cfg scene (seg_trace seg) (photonRay ps)
              (seg_isect seg) (path_alpha ps) (to_int (nshot st)) (volume st))
    as [[[[reached ray] isect] alpha] vol] eqn:ET.
  destruct reached.
  - rewrite (bounce_reached _ _ _ _ _ ET).
    destruct (hasNonSpecular (GetBSDF isect)).
    + destruct (deposit_at_surface_sets cfg (set_volume vol st) ray isect
                  (Smul alpha (seg_Transmittance seg)) (specularPath ps)
                  (S (nIntersections ps)) (seg_RandomFloat_rp seg))
        as (Hd & Hc & Hi & _).
      unfold surface_photons. rewrite Hd, Hc, Hi.
      cbn [directPhotons caustic indirect nshot set_volume].
      pose proof (deposit_length (nCausticPhotons cfg) (to_int (nshot st))
                    (mkPhoton (dg_p isect)
                       (Smul alpha (seg_Transmittance seg)) (Neg (d ray)))
                    (caustic st)) as Kc.
      pose proof (deposit_length (nIndirectPhotons cfg) (to_int (nshot st))
                    (mkPhoton (dg_p isect)
                       (Smul alpha (seg_Transmittance seg)) (Neg (d ray)))
                    (indirect st)) as Ki.
      split.
      * destruct (S (nIntersections ps) =? 1);
          [rewrite length_app; simpl; lia|].
        destruct (specularPath ps); lia.
      * unfold deposit_at_surface.
        destruct (finalGather cfg && Qltb (seg_RandomFloat_rp seg) 0.125);
          destruct (S (nIntersections ps) =? 1); destruct (specularPath ps);
          cbn; rewrite ?length_app; simpl; lia.
    + unfold surface_photons. cbn. lia.
  - unfold bounce. rewrite ET. unfold surface_photons. cbn. lia.
Qed.

(** An iteration that does not end in [break] leaves the count of
    intersections at 10 or less. *)
Lemma bounce_cap (cfg : Config) (scene : Scene) (st st' : State)
    (ps ps' : PathState) (seg : Segment) :
  bounce cfg scene st ps seg = (st', Some ps') ->
  nIntersections ps' = S (nIntersections ps) /\ nIntersections ps' <= 10.
Proof.
  unfold bounce.
  destruct (TraceThrough cfg scene (seg_trace seg) (photonRay ps)
              (seg_isect seg) (path_alpha ps) (to_int (nshot st)) (volume st))
    as [[[[reached ray] isect] alpha] vol].
  destruct reached; cbn [negb]; [|discriminate].
  destruct (Black (Sample_f_fr (GetBSDF isect))
            || Qeq_bool (Sample_f_pdf (GetBSDF isect)) 0); [discriminate|].
  destruct (10 <? S (nIntersections ps)) eqn:E10.
  - rewrite orb_true_r. discriminate.
  - rewrite orb_false_r.
    match goal with
    | |- context [if ?c then (_, None) else _] => destruct c; [discriminate|]
    end.
    intro H. injection H as _ <-. cbn. apply Nat.ltb_ge in E10.
    split; [reflexivity | lia].
Qed.

Lemma walk_cap (cfg : Config) (scene : Scene) (segs : list Segment) :
  forall st ps,
    nIntersections ps <= 10 ->
    walk cfg scene segs st ps
    = walk cfg scene (firstn (11 - nIntersections ps) segs) st ps
    /\ surface_photons st <= surface_photons (walk cfg scene segs st ps)
       <= surface_photons st + (11 - nIntersections ps)
    /\ length (radiancePhotons st)
       <= length (radiancePhotons (walk cfg scene segs st ps))
       <= length (radiancePhotons st) + (11 - nIntersections ps).
Proof.
  induction segs as [|seg rest IH]; intros st ps Hn.
  - rewrite firstn_nil. cbn [walk]. repeat split; lia.
  - replace (11 - nIntersections ps) with (S (10 - nIntersections ps)) by lia.
    cbn [firstn walk].
    pose proof (bounce_stores_one cfg scene st ps seg) as Hone.
    cbv zeta in Hone.
    destruct (bounce cfg scene st ps seg) as [st1 [ps1|]] eqn:EB;
      cbn [fst] in Hone.
    + destruct (bounce_cap _ _ _ _ _ EB) as [E1 H1].
      destruct (IH st1 ps1 H1) as (Hw & Hs & Hr).
      replace (10 - nIntersections ps) with (11 - nIntersections ps1) by lia.
      split; [exact Hw|]. split; lia.
    + split; [reflexivity|]. split; lia.
Qed.

(** X7: a photon path ends at its eleventh intersection at the latest:
    what a shot does depends only on the first eleven iterations of its
    path loop, it stores at most eleven photons at surfaces (direct,
    caustic and indirect together) and records at most eleven radiance
    photons, and no path samples more than ten bounces. *)
Theorem path_ends_by_eleventh_intersection (cfg : Config) (scene : Scene)
    (shot : Shot) (st : State) :
  shoot cfg scene shot st
  = shoot cfg scene
      (mkShot (Sample_L_alpha shot) (Sample_L_ray shot) (Sample_L_pdf shot)
         (lightPdf shot) (firstn 11 (shot_path shot))) st
  /\ surface_photons st <= surface_photons (shoot cfg scene shot st)
     <= surface_photons st + 11
  /\ length (radiancePhotons st)
     <= length (radiancePhotons (shoot cfg scene shot st))
     <= length (radiancePhotons st) + 11
  /\ (forall segs ps,
        nIntersections ps = 0 -> 10 < length segs ->
        advance cfg scene segs st ps = None).
Proof.
  split; [|split; [|split]].
  - unfold shoot. cbn [Sample_L_alpha Sample_L_pdf lightPdf Sample_L_ray
                         shot_path].
    destruct (Qeq_bool (Sample_L_pdf shot) 0 || Black (Sample_L_alpha shot));
      [reflexivity|].
    match goal with
    | |- context [if negb ?c then _ else _] => destruct c
    end; cbn [negb]; [reflexivity|].
    match goal with
    | |- walk _ _ _ _ ?ps = _ =>
        apply (proj1 (@walk_cap cfg scene (shot_path shot) st ps
                        ltac:(cbn; lia)))
    end.
  - unfold shoot.
    destruct (Qeq_bool (Sample_L_pdf shot) 0 || Black (Sample_L_alpha shot));
      [lia|].
    match goal with
    | |- context [if negb ?c then _ else _] => destruct c
    end; cbn [negb]; [lia|].
    match goal with
    | |- context [walk _ _ _ _ ?ps] =>
        apply (proj1 (proj2 (@walk_cap cfg scene (shot_path shot) st ps
                               ltac:(cbn; lia))))
    end.
  - unfold shoot.
    destruct (Qeq_bool (Sample_L_pdf shot) 0 || Black (Sample_L_alpha shot));
      [lia|].
    match goal with
    | |- context [if negb ?c then _ else _] => destruct c
    end; cbn [negb]; [lia|].
    match goal with
    | |- context [walk _ _ _ _ ?ps] =>
        apply (proj2 (proj2 (@walk_cap cfg scene (shot_path shot) st ps
                               ltac:(cbn; lia))))
    end.
  - intros segs ps H0 Hlen.
    destruct (advance cfg scene segs st ps) as [[st' ps']|] eqn:E;
      [|reflexivity].
    exfalso. revert st ps st' ps' H0 Hlen E.
    assert (Hgen : forall segs st ps st' ps',
              advance cfg scene segs st ps = Some (st', ps') ->
              segs <> [] -> nIntersections ps' <= 10).
    { clear. induction segs as [|seg rest IH]; intros st ps st' ps' H Hne;
        [congruence|].
      cbn [advance] in H.
      destruct (bounce cfg scene st ps seg) as [st1 [ps1|]] eqn:EB;
        [|discriminate].
      destruct rest as [|seg2 rest2].
      - injection H as _ <-. apply (bounce_cap _ _ _ _ _ EB).
      - apply (IH _ _ _ _ H). discriminate. }
    intros st0 ps st' ps' H0 Hlen E.
    destruct (advance_flag _ _ _ _ _ E) as [Hn _].
    assert (Hne : segs <> []) by (destruct segs; [simpl in Hlen; lia | discriminate]).
    pose proof (Hgen _ _ _ _ _ E Hne). lia.
Qed.

(** ** The neighbour search of [Surface_Li]: when it ends *)

(** The search radius after [n] doublings. *)
Fixpoint doubled (n : nat) (r : Q) : Q :=
  match n with
  | O => r
  | S n' => doubled n' (r * 2)%Q
  end.

Lemma doubled_twice (n : nat) :
  forall r, (doubled n (r * 2) == doubled n r * 2)%Q.
Proof.
  induction n as [|n IH]; intro r; cbn [doubled].
  - reflexivity.
  - apply IH.
Qed.

Lemma doubled_grows (n : nat) (r : Q) :
  (0 < r)%Q -> (r * (inject_Z (Z.of_nat n) + 1) <= doubled n r)%Q.
Proof.
  revert r. induction n as [|n IH]; intros r Hr.
  - cbn [doubled Z.of_nat]. change (inject_Z 0) with 0%Q. lra.
  - cbn [doubled]. specialize (IH (r * 2)%Q ltac:(lra)).
    rewrite Nat2Z.inj_succ. unfold Z.succ. rewrite inject_Z_plus.
    assert (H0 : (0 <= inject_Z (Z.of_nat n))%Q).
    { change 0%Q with (inject_Z 0). rewrite <- Zle_Qle. lia. }
    change (inject_Z 1) with 1%Q. nra.
Qed.

Lemma doubled_step (n : nat) (r : Q) :
  (0 < r)%Q -> (0 < doubled n r /\ doubled n r <= doubled (S n) r)%Q.
Proof.
  intro Hr.
  assert (Hpos : forall k s, (0 < s)%Q -> (0 < doubled k s)%Q).
  { induction k as [|k IH]; intros s Hs; cbn [doubled];
      [assumption | apply IH; lra]. }
  split; [apply Hpos; assumption|].
  cbn [doubled]. rewrite doubled_twice.
  specialize (Hpos n r Hr). lra.
Qed.

Lemma doubled_mono (n n' : nat) (r : Q) :
  (0 < r)%Q -> n <= n' -> (doubled n r <= doubled n' r)%Q.
Proof.
  intros Hr Hle. induction Hle as [|n' Hle IH].
  - apply Qle_refl.
  - destruct (doubled_step n' Hr) as [_ H]. lra.
Qed.

(** Doubling a positive radius gets it above any distance. *)
Lemma doubled_reaches (r D : Q) :
  (0 < r)%Q -> exists n, (D < doubled n r)%Q.
Proof.
  intro Hr. destruct (Qarchimedean (D / r)) as [p Hp].
  exists (Pos.to_nat p).
  apply Qlt_le_trans with (r * (inject_Z (Z.of_nat (Pos.to_nat p)) + 1))%Q;
    [|apply doubled_grows; assumption].
  rewrite positive_nat_Z.
  assert (HD : (D == D / r * r)%Q) by (field; lra).
  assert (Hm : (D / r * r < inject_Z (Z.pos p) * r)%Q).
  { apply Qmult_lt_r; assumption. }
  change (inject_Z (Z.pos p)) with (Z.pos p # 1)%Q in Hm.
  change (inject_Z (Z.pos p)) with (Z.pos p # 1)%Q. lra.
Qed.

Lemma doubled_reaches_all (r : Q) (cs : list ClosePhoton) :
  (0 < r)%Q ->
  exists n, forall c, In c cs -> (distanceSquared c < doubled n r)%Q.
Proof.
  intro Hr. induction cs as [|c cs [n IH]].
  - exists 0. intros c [].
  - destruct (doubled_reaches (distanceSquared c) Hr) as [n1 H1].
    exists (Nat.max n n1). intros x [<- | Hx].
    + apply Qlt_le_trans with (doubled n1 r); [assumption|].
      apply doubled_mono; [assumption | lia].
    + apply Qlt_le_trans with (doubled n r); [apply IH; assumption|].
      apply doubled_mono; [assumption | lia].
Qed.

Lemma within_all (r : Q) (cs : list ClosePhoton) :
  (forall c, In c cs -> (distanceSquared c < r)%Q) -> within r cs = cs.
Proof.
  intro H. unfold within. induction cs as [|c cs IH]; [reflexivity|].
  cbn [filter]. rewrite (proj2 (Qltb_lt _ _)) by (apply H; left; reflexivity).
  f_equal. apply IH. intros x Hx. apply H. right. assumption.
Qed.

(** The first index at which a test succeeds, when it succeeds somewhere. *)
Lemma first_success (P : nat -> bool) (n : nat) :
  P n = true ->
  exists j, P j = true /\ forall i, i < j -> P i = false.
Proof.
  revert P. induction n as [|n IH]; intros P Hn.
  - exists 0. split; [assumption | intros i Hi; lia].
  - destruct (P 0) eqn:E0.
    + exists 0. split; [assumption | intros i Hi; lia].
    + destruct (IH (fun i => P (S i)) Hn) as (j & Hj & Hmin).
      exists (S j). split; [assumption|].
      intros [|i] Hi; [assumption | apply Hmin; lia].
Qed.

Lemma Qsquare_nonneg (x : Q) : (0 <= x * x)%Q.
Proof.
  destruct (Qlt_le_dec x 0) as [H | H].
  - setoid_replace (x * x)%Q with ((- x) * (- x))%Q by ring.
    apply Qmult_le_0_compat; lra.
  - apply Qmult_le_0_compat; assumption.
Qed.

Lemma DistanceSquared_nonneg (a b : Point) : (0 <= DistanceSquared a b)%Q.
Proof.
  unfold DistanceSquared.
  pose proof (Qsquare_nonneg (cx a - cx b)).
  pose proof (Qsquare_nonneg (cy a - cy b)).
  pose proof (Qsquare_nonneg (cz a - cz b)).
  lra.
Qed.

Lemma candidates_from_nonneg (nodes : list Photon) (pt : Point) :
  forall i c, In c (candidates_from i nodes pt) ->
    (0 <= distanceSquared c)%Q.
Proof.
  induction nodes as [|nd rest IH]; intros i c Hc; [destruct Hc|].
  cbn [candidates_from] in Hc. destruct Hc as [<- | Hc].
  - apply DistanceSquared_nonneg.
  - apply (IH _ _ Hc).
Qed.

Lemma candidates_from_bounds (nodes : list Photon) (pt : Point) :
  forall i x, In x (candidates_from i nodes pt) ->
    i <= photon x /\ photon x < i + length nodes.
Proof.
  induction nodes as [|nd rest IH]; intros i x Hx; [destruct Hx|].
  cbn [candidates_from] in Hx. destruct Hx as [<- | Hx].
  - cbn. lia.
  - specialize (IH _ _ Hx). cbn [length]. lia.
Qed.

Section SearchProperties.
Context {heap : StlHeap}.

(** A collector whose count has been reset behaves as a new one: the
    entries left in its array are not read. *)
Lemma PhotonProcess_call_reset (k : nat) (stale : list ClosePhoton)
    (ph : nat) (dist2 r : Q) :
  PhotonProcess_call (mkPhotonProcess stale k 0) ph dist2 r
  = PhotonProcess_call (PhotonProcess_new k) ph dist2 r.
Proof.
  unfold PhotonProcess_call, PhotonProcess_new.
  cbn [foundPhotons nLookup photons].
  destruct k as [|k]; reflexivity.
Qed.

Lemma Lookup_candidates_reset (k : nat) (stale : list ClosePhoton)
    (cs : list ClosePhoton) :
  forall r,
    let old := Lookup_candidates cs (mkPhotonProcess stale k 0) r in
    let new := Lookup_candidates cs (PhotonProcess_new k) r in
    snd old = snd new
    /\ foundPhotons (fst old) = foundPhotons (fst new)
    /\ nLookup (fst old) = nLookup (fst new)
    /\ (0 < foundPhotons (fst new) -> fst old = fst new).
Proof.
  induction cs as [|c cs IH]; intro r; cbv zeta.
  - cbn. repeat split. intro H. lia.
  - cbn [Lookup_candidates].
    destruct (Qltb (distanceSquared c) r); [|apply IH].
    rewrite PhotonProcess_call_reset.
    repeat split; reflexivity.
Qed.

(** The count a query ends with: the candidates within the radius, up to
    the bound of the collector. *)
Lemma collecting_count (k : nat) (md0 : Q) (seen : list ClosePhoton)
    (proc : PhotonProcess) (r : Q) :
  collecting k md0 seen proc r ->
  foundPhotons proc = Nat.min k (length (within md0 seen))
  /\ nLookup proc = k
  /\ length (photons proc) = foundPhotons proc
  /\ forall x, In x (photons proc) -> In x (within md0 seen).
Proof.
  intros (Hn & Hlen & Hle & _ & _ & others & Hperm & _ & Hpart & _).
  assert (Hcount : length (photons proc) + length others
                   = length (within md0 seen)).
  { rewrite <- length_app. apply Permutation_length. assumption. }
  split; [|split; [assumption | split; [assumption|]]].
  - destruct (Nat.eq_dec (foundPhotons proc) k) as [E | E]; [lia|].
    destruct Hpart as [_ ->]; [lia|]. simpl in Hcount. lia.
  - intros x Hx. apply (Permutation_in _ Hperm). apply in_or_app.
    left. assumption.
Qed.

Lemma Lookup_count (k : nat) (m : KdTree Photon) (pt : Point) (md : Q) :
  1 <= k ->
  let proc := fst (Lookup m pt (PhotonProcess_new k) md) in
  foundPhotons proc
  = Nat.min k (length (within md (candidates_from 0 m pt)))
  /\ nLookup proc = k
  /\ length (photons proc) = foundPhotons proc
  /\ forall x, In x (photons proc) ->
       In x (within md (candidates_from 0 m pt)).
Proof.
  intro Hk. cbv zeta. unfold Lookup.
  destruct (collecting_run (candidates_from 0 m pt) Hk
              (collecting_start md Hk)) as [Hinv _].
  cbn [app] in Hinv. apply (collecting_count Hinv).
Qed.

(** One iteration of the search loop. *)
Lemma search_loop_iteration (fuel : nat) (m : KdTree Photon) (pt : Point)
    (proc : PhotonProcess) (searchDist2 : Q) :
  nLookup proc = nIndirSamplePhotons ->
  foundPhotons proc < nIndirSamplePhotons ->
  exists proc',
    search_loop (S fuel) (Some m) pt proc searchDist2
    = search_loop fuel (Some m) pt proc' (searchDist2 * 2)%Q
    /\ nLookup proc' = nIndirSamplePhotons
    /\ foundPhotons proc'
       = Nat.min nIndirSamplePhotons
           (length (within searchDist2 (candidates_from 0 m pt)))
    /\ (foundPhotons proc' = nIndirSamplePhotons ->
        proc' = fst (Lookup m pt (PhotonProcess_new nIndirSamplePhotons)
                       searchDist2)).
Proof.
  intros Hn Hfound. cbn [search_loop].
  apply Nat.ltb_lt in Hfound. rewrite Hfound. rewrite Hn.
  assert (Hk : 1 <= nIndirSamplePhotons) by (unfold nIndirSamplePhotons; lia).
  destruct (Lookup_count m pt searchDist2 Hk) as (Hc & Hl & _).
  destruct (Lookup_candidates_reset nIndirSamplePhotons (photons proc)
              (candidates_from 0 m pt) searchDist2) as (_ & Hf & Hnl & Heq).
  unfold Lookup in *.
  destruct (Lookup_candidates (candidates_from 0 m pt)
              (mkPhotonProcess (photons proc) nIndirSamplePhotons 0)
              searchDist2) as [proc' r'].
  cbn [fst] in Hf, Hnl, Heq.
  exists proc'. split; [reflexivity|]. split; [congruence|].
  split; [congruence|].
  intro E. apply Heq. rewrite <- Hf, E. assumption.
Qed.

Lemma search_loop_ends (m : KdTree Photon) (pt : Point) (j : nat) :
  forall searchDist2 proc fuel,
    nLookup proc = nIndirSamplePhotons ->
    foundPhotons proc < nIndirSamplePhotons ->
    (forall i, i < j ->
       length (within (doubled i searchDist2) (candidates_from 0 m pt))
       < nIndirSamplePhotons) ->
    nIndirSamplePhotons
    <= length (within (doubled j searchDist2) (candidates_from 0 m pt)) ->
    j < fuel ->
    search_loop fuel (Some m) pt proc searchDist2
    = Found (fst (Lookup m pt (PhotonProcess_new nIndirSamplePhotons)
                    (doubled j searchDist2))).
Proof.
  induction j as [|j IH]; intros sd proc fuel Hn Hfound Hfew Hmany Hfuel.
  - destruct fuel as [|fuel]; [lia|].
    destruct (@search_loop_iteration fuel m pt proc sd Hn Hfound)
      as (proc' & -> & Hn' & Hf' & Heq).
    cbn [doubled] in Hmany. cbn [doubled].
    assert (E : foundPhotons proc' = nIndirSamplePhotons) by lia.
    rewrite <- (Heq E).
    destruct fuel; cbn [search_loop]; rewrite E, Nat.ltb_irrefl; reflexivity.
  - destruct fuel as [|fuel]; [lia|].
    destruct (@search_loop_iteration fuel m pt proc sd Hn Hfound)
      as (proc' & -> & Hn' & Hf' & _).
    pose proof (Hfew 0 ltac:(lia)) as H0. cbn [doubled] in H0.
    cbn [doubled]. apply IH; try assumption; try lia.
    intros i Hi. apply (Hfew (S i)). lia.
Qed.

(** The search on a map of at least 50 photons, from a positive radius. *)
Lemma search_on_dense_map (m : KdTree Photon) (pt : Point) (md2 : Q) :
  nIndirSamplePhotons <= length m -> (0 < md2)%Q ->
  exists j,
    let r := doubled j md2 in
    let proc := fst (Lookup m pt (PhotonProcess_new nIndirSamplePhotons) r) in
    (forall i, i < j ->
       length (within (doubled i md2) (candidates_from 0 m pt))
       < nIndirSamplePhotons)
    /\ nIndirSamplePhotons <= length (within r (candidates_from 0 m pt))
    /\ (forall fuel, j < fuel ->
        search_loop fuel (Some m) pt (PhotonProcess_new nIndirSamplePhotons)
          md2 = Found proc)
    /\ foundPhotons proc = nIndirSamplePhotons
    /\ length (photons proc) = nIndirSamplePhotons
    /\ (forall c, In c (photons proc) ->
        photon c < length m /\ (distanceSquared c < r)%Q).
Proof.
  intros Hlen Hpos.
  set (cs := candidates_from 0 m pt).
  set (P := fun i => nIndirSamplePhotons
                     <=? length (within (doubled i md2) cs)).
  destruct (doubled_reaches_all cs Hpos) as [n0 Hall].
  assert (Hn0 : P n0 = true).
  { unfold P. rewrite (@within_all _ cs Hall). unfold cs.
    rewrite candidates_from_length. apply Nat.leb_le. assumption. }
  destruct (first_success P _ Hn0) as (j & Hj & Hmin).
  unfold P in Hj. apply Nat.leb_le in Hj.
  assert (Hfew : forall i, i < j ->
            length (within (doubled i md2) cs) < nIndirSamplePhotons).
  { intros i Hi. specialize (Hmin i Hi). unfold P in Hmin.
    apply Nat.leb_gt in Hmin. assumption. }
  exists j. cbv zeta.
  assert (Hk : 1 <= nIndirSamplePhotons) by (unfold nIndirSamplePhotons; lia).
  destruct (Lookup_count m pt (doubled j md2) Hk) as (Hc & _ & Hl & Hin).
  fold cs in Hc, Hin.
  split; [assumption|]. split; [assumption|]. split; [|split; [|split]].
  - intros fuel Hfuel.
    apply search_loop_ends;
      first [assumption | reflexivity
            | cbn; unfold nIndirSamplePhotons; lia].
  - lia.
  - lia.
  - intros c Hc'. specialize (Hin c Hc'). unfold within in Hin.
    apply filter_In in Hin. destruct Hin as [Hcs Hr].
    apply Qltb_lt in Hr. split; [|assumption].
    destruct (candidates_from_bounds _ _ _ _ Hcs). lia.
Qed.

(** X8: with final gather on, at a point whose scattering distribution has
    a non-specular component, the neighbour search of [Surface_Li] ends
    whenever the indirect map holds at least 50 photons and
    [maxDistSquared] is positive: the radius is doubled until the first
    one that holds 50 photons, and the search returns what a lookup with
    that radius collects, which is 50 photons of the map. *)
Theorem dense_indirect_map_search (cfg : Config) (st : State)
    (nonSpecularComponents : nat) (pt : Point) (m : KdTree Photon) :
  finalGather cfg = true -> 0 < nonSpecularComponents ->
  st_map (indirect st) = Some m ->
  nIndirSamplePhotons <= length m ->
  (0 < cfg_maxDistSquared cfg)%Q ->
  exists j,
    let r := doubled j (cfg_maxDistSquared cfg) in
    let proc := fst (Lookup m pt (PhotonProcess_new nIndirSamplePhotons) r) in
    (forall i, i < j ->
       length (within (doubled i (cfg_maxDistSquared cfg))
                 (candidates_from 0 m pt)) < nIndirSamplePhotons)
    /\ nIndirSamplePhotons <= length (within r (candidates_from 0 m pt))
    /\ (forall fuel, j < fuel ->
        Surface_Li_search cfg st nonSpecularComponents pt fuel
        = Some (Found proc))
    /\ foundPhotons proc = nIndirSamplePhotons
    /\ length (photons proc) = nIndirSamplePhotons
    /\ (forall c, In c (photons proc) ->
        photon c < length m /\ (distanceSquared c < r)%Q).
Proof.
  intros Hfg Hns Hmap Hlen Hpos.
  destruct (search_on_dense_map m pt Hlen Hpos)
    as (j & Hfew & Hmany & Hrun & Hrest).
  exists j. cbv zeta in *.
  split; [assumption|]. split; [assumption|]. split; [|assumption].
  intros fuel Hfuel. unfold Surface_Li_search. rewrite Hfg, Hmap.
  apply Nat.ltb_lt in Hns. rewrite Hns. f_equal. apply Hrun. assumption.
Qed.

(** X9: with [maxDistSquared] zero (a [maxdist] of 0) the same search
    never ends, whatever the indirect map holds: no photon is at a squared
    distance below zero, and doubling the radius leaves it at zero. *)
Theorem zero_radius_search (cfg : Config) (st : State)
    (nonSpecularComponents : nat) (pt : Point) (m : KdTree Photon)
    (fuel : nat) :
  finalGather cfg = true -> 0 < nonSpecularComponents ->
  st_map (indirect st) = Some m ->
  (cfg_maxDistSquared cfg <= 0)%Q ->
  Surface_Li_search cfg st nonSpecularComponents pt fuel = Some Searching.
Proof.
  intros Hfg Hns Hmap Hzero. unfold Surface_Li_search.
  rewrite Hfg, Hmap. apply Nat.ltb_lt in Hns. rewrite Hns. f_equal.
  assert (Hgen : forall fuel sd proc,
            (sd <= 0)%Q -> nLookup proc = nIndirSamplePhotons ->
            foundPhotons proc < nIndirSamplePhotons ->
            search_loop fuel (Some m) pt proc sd = Searching).
  { clear fuel. induction fuel as [|fuel IH]; intros sd proc Hsd Hn Hf.
    - cbn [search_loop]. apply Nat.ltb_lt in Hf. rewrite Hf. reflexivity.
    - destruct (@search_loop_iteration fuel m pt proc sd Hn Hf)
        as (proc' & -> & Hn' & Hf' & _).
      apply IH; [lra | assumption|].
      rewrite Hf'.
      replace (within sd (candidates_from 0 m pt)) with (@nil ClosePhoton).
      + cbn. unfold nIndirSamplePhotons. lia.
      + symmetry. unfold within.
        generalize (fun c => @candidates_from_nonneg m pt 0 c).
        generalize (candidates_from 0 m pt).
        induction l as [|c l IHl]; intro Hnn; [reflexivity|].
        cbn [filter].
        rewrite (proj2 (Qltb_ge _ _)).
        * apply IHl. intros x Hx. apply Hnn. right. assumption.
        * specialize (Hnn c (or_introl eq_refl)). lra. }
  apply Hgen; [assumption | reflexivity|].
  cbn. unfold nIndirSamplePhotons. lia.
Qed.

(** X20: once [Surface_Preprocess] has completed with final gather on, a
    target of at least 50 indirect photons and a positive
    [maxDistSquared], the neighbour search of [Surface_Li] ends at every
    point whose scattering distribution has a non-specular component, with
    50 photons of the indirect map. *)
Theorem gather_search_after_preprocess (cfg : Config) (scene : Scene)
    (shots : list Shot) (st' : State) (nonSpecularComponents : nat)
    (pt : Point) :
  Surface_Preprocess cfg scene shots Surface_Init = (Completed, st') ->
  finalGather cfg = true -> 0 < nonSpecularComponents ->
  nIndirSamplePhotons <= nIndirectPhotons cfg ->
  (0 < cfg_maxDistSquared cfg)%Q ->
  exists j proc,
    (forall fuel, j < fuel ->
       Surface_Li_search cfg st' nonSpecularComponents pt fuel
       = Some (Found proc))
    /\ foundPhotons proc = nIndirSamplePhotons
    /\ length (photons proc) = nIndirSamplePhotons
    /\ (forall c, In c (photons proc) ->
        photon c < length (st_photons (indirect st'))).
Proof.
  intros H Hfg Hns Htarget Hpos.
  destruct (Surface_Preprocess_Completed _ _ _ H) as (st1 & Hloop & ->).
  destruct (@shooting_loop_ok cfg scene shots _ _ _ (declare_locals_ok cfg)
              Hloop) as (Hok & _ & _ & Hi & _).
  destruct Hok as (_ & [_ Hfull] & _).
  destruct (precompute_radiance_keeps cfg st1) as (_ & Ekeep & _).
  assert (Hne : nIndirectPhotons cfg <> 0)
    by (unfold nIndirSamplePhotons in Htarget; lia).
  destruct (Hfull Hi Hne) as (Hlen & Hmap & _).
  assert (Hdense : nIndirSamplePhotons <= length (st_photons (indirect st1)))
    by lia.
  destruct (search_on_dense_map (st_photons (indirect st1)) pt Hdense Hpos)
    as (j & _ & _ & Hrun & Hfound & Hl & Hin).
  cbv zeta in *. exists j. eexists.
  split; [|split; [exact Hfound | split; [exact Hl|]]].
  - intros fuel Hfuel. unfold Surface_Li_search. rewrite Hfg, Ekeep, Hmap.
    apply Nat.ltb_lt in Hns. rewrite Hns. f_equal.
    apply Hrun. assumption.
  - intros c Hc. rewrite Ekeep. apply (Hin c Hc).
Qed.

End SearchProperties.

(** An object whose indirect map holds fifty photons, all at the origin. *)
Definition fifty_photons : list Photon :=
  repeat (mkPhoton (mkV3 0 0 0) (Spectrum_of_float 1) (mkV3 0 0 1)) 50.
Definition dense_state : State :=
  set_indirect
    (mkPhotonStore fifty_photons true 1 (Some (KdTree_new fifty_photons))
       [(1%Z, fifty_photons)])
    Surface_Init.

Lemma dense_indirect_map_search_witness :
  exists fuel proc,
    Surface_Li_search (heap := sorting_heap) one_each dense_state 1
      (mkV3 1 0 0) fuel = Some (Found proc)
    /\ foundPhotons proc = 50.
Proof.
  assert (Hfg : finalGather one_each = true) by reflexivity.
  assert (Hns : 0 < 1) by lia.
  assert (Hmap : st_map (indirect dense_state) = Some fifty_photons)
    by reflexivity.
  assert (Hlen : nIndirSamplePhotons <= length fifty_photons)
    by (vm_compute; lia).
  assert (Hpos : (0 < cfg_maxDistSquared one_each)%Q) by reflexivity.
  destruct (@dense_indirect_map_search sorting_heap one_each dense_state 1
              (mkV3 1 0 0) fifty_photons Hfg Hns Hmap Hlen Hpos)
    as (j & _ & _ & Hrun & Hfound & _).
  exists (S j). eexists. split; [apply Hrun; lia | exact Hfound].
Defined.

Lemma zero_radius_search_witness :
  Surface_Li_search (heap := sorting_heap) (mkConfig 1 1 1 2 0 true)
    dense_state 1 (mkV3 0 0 0) 1000 = Some Searching.
Proof.
  apply (@zero_radius_search sorting_heap (mkConfig 1 1 1 2 0 true)
           dense_state 1 (mkV3 0 0 0) fifty_photons 1000).
  - reflexivity.
  - lia.
  - reflexivity.
  - cbn. lra.
Defined.

(** ** The photons a lookup retains, and [Surface_LPhoton] *)

(** A query none of whose candidates is below the radius leaves the
    collector and the radius as they were. *)
Lemma Lookup_candidates_none {heap : StlHeap} (cs : list ClosePhoton)
    (proc : PhotonProcess) (r : Q) :
  (forall c, In c cs -> (r <= distanceSquared c)%Q) ->
  Lookup_candidates cs proc r = (proc, r).
Proof.
  induction cs as [|c cs IH]; intro H; [reflexivity|].
  cbn [Lookup_candidates].
  rewrite (proj2 (Qltb_ge _ _)) by (apply H; left; reflexivity).
  apply IH. intros x Hx. apply H. right. assumption.
Qed.

(** A candidate of a query carries the index of a node of the map and the
    squared distance of that node. *)
Lemma candidates_from_In (nodes : list Photon) (pt : Point) :
  forall i c, In c (candidates_from i nodes pt) ->
    i <= photon c
    /\ exists nd, nth_error nodes (photon c - i) = Some nd
         /\ distanceSquared c = DistanceSquared (ph_p nd) pt.
Proof.
  induction nodes as [|nd rest IH]; intros i c Hc; [destruct Hc|].
  cbn [candidates_from] in Hc. destruct Hc as [<- | Hc].
  - cbn [photon distanceSquared]. split; [lia|]. exists nd.
    rewrite Nat.sub_diag. split; reflexivity.
  - destruct (IH _ _ Hc) as (Hle & nd' & Hnth & Hd).
    split; [lia|]. exists nd'. split; [|assumption].
    replace (photon c - i) with (S (photon c - S i)) by lia. exact Hnth.
Qed.

Lemma deref_candidate (m : KdTree Photon) (pt : Point) (c : ClosePhoton) :
  In c (candidates_from 0 m pt) ->
  In (deref m c) m
  /\ distanceSquared c = DistanceSquared (ph_p (deref m c)) pt.
Proof.
  intro Hc. destruct (candidates_from_In _ _ _ _ Hc) as (_ & nd & Hnth & Hd).
  rewrite Nat.sub_0_r in Hnth. unfold deref.
  rewrite (nth_error_nth _ _ _ Hnth). split; [|assumption].
  apply nth_error_In with (photon c). assumption.
Qed.

Section RetainedPhotons.
Context {heap : StlHeap}.

(** No retained candidate is farther than the radius reported. *)
Lemma collecting_bound (k : nat) (md0 : Q) (seen : list ClosePhoton)
    (proc : PhotonProcess) (r : Q) :
  collecting k md0 seen proc r ->
  forall x, In x (photons proc) -> (distanceSquared x <= r)%Q.
Proof.
  intros (Hn & Hlen & Hle & Hr & Hin & others & Hperm & Hfar & Hpart & Hfull)
         x Hx.
  destruct (Nat.eq_dec (foundPhotons proc) k) as [E | E].
  - destruct (Hfull E) as [Hheap Er].
    destruct (photons proc) as [|top l]; [destruct Hx|].
    cbn in Er. rewrite Er. apply ClosePhoton_ge_dist.
    apply (is_heap_front Hheap). assumption.
  - destruct Hpart as [-> _]; [lia|].
    apply Qlt_le_weak. apply Hin. assumption.
Qed.

Lemma kernel_bounds (ph : Photon) (pt : Point) (r : Q) :
  (0 < r)%Q -> (DistanceSquared (ph_p ph) pt <= r)%Q ->
  (0 <= kernel ph pt r <= 3 / (r * M_PI))%Q.
Proof.
  intros Hr Hd. unfold kernel.
  pose proof (DistanceSquared_nonneg (ph_p ph) pt) as H0.
  set (dist := DistanceSquared (ph_p ph) pt) in *.
  assert (Hpi : (0 < M_PI)%Q) by reflexivity.
  assert (HA : (0 < 3 / (r * M_PI))%Q).
  { apply Qlt_shift_div_l; [|lra]. apply Qmult_lt_0_compat; assumption. }
  assert (Hs1 : (dist / r <= 1)%Q) by (apply Qle_shift_div_r; lra).
  assert (Hs0 : (0 <= dist / r)%Q) by (apply Qle_shift_div_l; lra).
  set (A := (3 / (r * M_PI))%Q) in *.
  set (s := (1 - dist / r)%Q).
  assert (Hs : (0 <= s <= 1)%Q) by (unfold s; lra).
  assert (Hss : (0 <= s * s <= 1)%Q) by nra.
  cbv zeta. fold s. 
  setoid_replace (A * s * s)%Q with (A * (s * s))%Q by ring.
  nra.
Qed.

(** X10: the kernel weights of a lookup.  After a lookup that ends with a
    positive radius, every photon it retained has a [kernel] weight between
    0 and [3 / (pi r^2)], [r^2] being the radius the lookup reports; and
    when the lookup met at least as many photons within its initial radius
    as it can retain, one of the photons retained (the farthest) has the
    weight 0. *)
Theorem lookup_kernel_weights (k : nat) (m : KdTree Photon) (pt : Point)
    (md0 : Q) :
  1 <= k ->
  let proc := fst (Lookup m pt (PhotonProcess_new k) md0) in
  let r := snd (Lookup m pt (PhotonProcess_new k) md0) in
  (0 < r)%Q ->
  (forall c, In c (firstn (foundPhotons proc) (photons proc)) ->
     (0 <= kernel (deref m c) pt r <= 3 / (r * M_PI))%Q)
  /\ (k <= length (within md0 (candidates_from 0 m pt)) ->
      exists c, In c (firstn (foundPhotons proc) (photons proc))
                /\ (kernel (deref m c) pt r == 0)%Q).
Proof.
  intros Hk proc r Hr. subst proc r. unfold Lookup in *.
  destruct (collecting_run (candidates_from 0 m pt) Hk
              (collecting_start md0 Hk)) as [Hinv _].
  cbn [app] in Hinv.
  destruct (Lookup_candidates (candidates_from 0 m pt) (PhotonProcess_new k)
              md0) as [proc r].
  cbn [fst snd] in *.
  pose proof (collecting_bound Hinv) as Hbound.
  destruct (collecting_count Hinv) as (Hcount & _ & Hlen & Hsub).
  rewrite <- Hlen, firstn_all.
  assert (Hderef : forall c, In c (photons proc) ->
            distanceSquared c = DistanceSquared (ph_p (deref m c)) pt).
  { intros c Hc. specialize (Hsub c Hc). unfold within in Hsub.
    apply filter_In in Hsub. destruct Hsub as [Hcs _].
    apply (deref_candidate _ _ _ Hcs). }
  split.
  - intros c Hc. apply kernel_bounds; [assumption|].
    rewrite <- (Hderef c Hc). apply Hbound. assumption.
  - intro Hmany.
    destruct Hinv as (_ & _ & _ & _ & _ & _ & _ & _ & _ & Hfull).
    destruct Hfull as [_ Er]; [lia|].
    destruct (photons proc) as [|top l] eqn:Eph; [simpl in Hlen; lia|].
    cbn in Er. exists top. split; [left; reflexivity|].
    unfold kernel. rewrite <- (Hderef top (or_introl eq_refl)), <- Er.
    cbv zeta.
    assert (Hs : (1 - r / r == 0)%Q) by (field; lra).
    rewrite Hs. ring.
Qed.

(** X11: [Surface_LPhoton] returns black when the map is [NULL], when the
    scattering distribution has no non-specular component, and when no
    photon of the map lies within [maxDistSquared] of the point (an empty
    map included). *)
Theorem Surface_LPhoton_black (map : option (KdTree Photon)) (nPaths : Z)
    (k : nat) (bsdf : ShadingBSDF) (pt : Point) (wo : Vector) (md : Q) :
  map = None
  \/ sh_NumComponents bsdf nonSpecular = 0
  \/ (exists m, map = Some m
        /\ forall ph, In ph m -> (md <= DistanceSquared (ph_p ph) pt)%Q) ->
  Seq (Surface_LPhoton map nPaths k bsdf pt wo md) (Spectrum_of_float 0).
Proof.
  intros [-> | [Hns | (m & -> & Hfar)]].
  - apply Seq_refl.
  - unfold Surface_LPhoton. destruct map as [m|]; [|apply Seq_refl].
    rewrite Hns. apply Seq_refl.
  - unfold Surface_LPhoton.
    destruct (sh_NumComponents bsdf nonSpecular =? 0); [apply Seq_refl|].
    unfold Lookup. rewrite Lookup_candidates_none.
    + cbn [PhotonProcess_new foundPhotons photons firstn glossy_loop
             diffuse_loop fst snd].
      match goal with
      | |- context [if ?c then _ else _] => destruct c
      end; [apply Seq_refl|].
      unfold Seq, Sadd, Smul, Sscale, Spectrum_of_float. cbn.
      repeat split; ring.
    + intros c Hc. destruct (deref_candidate _ _ _ Hc) as (Hin & ->).
      apply Hfar. assumption.
Qed.

End RetainedPhotons.

Definition lone_photon : KdTree Photon :=
  [mkPhoton (mkV3 1 0 0) (Spectrum_of_float 1) (mkV3 0 0 1)].

Lemma lookup_kernel_weights_witness :
  let r := snd (Lookup (heap := sorting_heap) lone_photon (mkV3 0 0 0)
                  (PhotonProcess_new 1) 4) in
  (0 <= kernel (deref lone_photon (mkClosePhoton 0 1)) (mkV3 0 0 0) r
   <= 3 / (r * M_PI))%Q.
Proof.
  assert (Hk : 1 <= 1) by lia.
  assert (Hr : (0 < snd (Lookup (heap := sorting_heap) lone_photon
                           (mkV3 0 0 0) (PhotonProcess_new 1) 4))%Q)
    by (vm_compute; reflexivity).
  destruct (@lookup_kernel_weights sorting_heap 1 lone_photon (mkV3 0 0 0) 4
              Hk Hr) as [Hall _].
  apply Hall. vm_compute. left. reflexivity.
Defined.

Definition matte : ShadingBSDF :=
  mkShadingBSDF (fun flags => if Z.testbit flags 2 then 1 else 0)
    (fun _ _ _ => Spectrum_of_float INV_PI)
    (fun _ _ => Spectrum_of_float 1) (mkV3 0 0 1).

Lemma Surface_LPhoton_black_witness :
  Seq (Surface_LPhoton (heap := sorting_heap) (Some lone_photon) 1 1 matte
         (mkV3 4 0 0) (mkV3 0 0 1) 4)
      (Spectrum_of_float 0).
Proof.
  apply (@Surface_LPhoton_black sorting_heap (Some lone_photon) 1 1 matte
           (mkV3 4 0 0) (mkV3 0 0 1) 4).
  right. right. exists lone_photon. split; [reflexivity|].
  intros ph [<- | []]. vm_compute. discriminate.
Defined.

(** ** The two hemispheres of [Surface_estimateE] *)




Section Hemispheres.
Context {heap : StlHeap}.


End Hemispheres.

(** ** The summed-area table of [MedianCutEnvironmentLight] *)

(** The sum of the entries [(i, 0) .. (i, j)] of row [i] of a table of
    width [w], and the sum of the entries of the rows [0 .. i] in the
    columns [0 .. j]. *)
Fixpoint row_sum (a : list Spectrum) (w i j : nat) : Spectrum :=
  match j with
  | O => MedianCut.array_get a (i * w + 0)
  | S j' => Sadd (row_sum a w i j') (MedianCut.array_get a (i * w + S j'))
  end.

Fixpoint area_sum (a : list Spectrum) (w i j : nat) : Spectrum :=
  match i with
  | O => row_sum a w 0 j
  | S i' => Sadd (area_sum a w i' j) (row_sum a w (S i') j)
  end.

Lemma array_set_length (a : list Spectrum) :
  forall k v, length (MedianCut.array_set a k v) = length a.
Proof.
  induction a as [|x a IH]; intros k v; [reflexivity|].
  destruct k; cbn; [reflexivity | rewrite IH; reflexivity].
Qed.

Lemma array_get_set_eq (a : list Spectrum) :
  forall k v, k < length a -> MedianCut.array_get (MedianCut.array_set a k v) k = v.
Proof.
  unfold MedianCut.array_get.
  induction a as [|x a IH]; intros k v Hk; [simpl in Hk; lia|].
  destruct k; cbn; [reflexivity | apply IH; simpl in Hk; lia].
Qed.

Lemma array_get_set_neq (a : list Spectrum) :
  forall k k' v, k <> k' -> MedianCut.array_get (MedianCut.array_set a k v) k' = MedianCut.array_get a k'.
Proof.
  unfold MedianCut.array_get.
  induction a as [|x a IH]; intros k k' v Hne; [reflexivity|].
  destruct k, k'; cbn; try reflexivity; try lia.
  apply IH. lia.
Qed.

(** No operation of [InitSummedAreaTable] on the array [a] of width [w]
    rounds at the cell [(i, j)]: the additions and the subtraction of lines
    112, 117 and 121, applied to the entry and to the sums that the cells
    before it hold, give the exact results. *)
Definition exact_at (fadd fsub : Q -> Q -> Q) (a : list Spectrum)
    (w i j : nat) : Prop :=
  let x := MedianCut.array_get a (i * w + j) in
  match i, j with
  | O, O => True
  | O, S j' =>
      let l := area_sum a w 0 j' in
      Seq (MedianCut.Fadd fadd x l) (Sadd x l)
  | S i', O =>
      let u := area_sum a w i' 0 in
      Seq (MedianCut.Fadd fadd x u) (Sadd x u)
  | S i', S j' =>
      let l := area_sum a w (S i') j' in
      let u := area_sum a w i' (S j') in
      let d := area_sum a w i' j' in
      Seq (MedianCut.Fadd fadd x l) (Sadd x l)
      /\ Seq (MedianCut.Fadd fadd (Sadd x l) u) (Sadd (Sadd x l) u)
      /\ Seq (MedianCut.Fsub fsub (Sadd (Sadd x l) u) d)
           (Ssub (Sadd (Sadd x l) u) d)
  end.

(** What holds when the loops are about to handle the cell [(i, j)]: the
    cells before it, in row-major order, hold their sums, the others are
    as at the start. *)
Definition table_upto (orig : list Spectrum) (w : nat)
    (cur : list Spectrum) (i j : nat) : Prop :=
  length cur = length orig
  /\ (forall i' j', j' < w -> i' < i \/ (i' = i /\ j' < j) ->
        Seq (MedianCut.array_get cur (i' * w + j')) (area_sum orig w i' j'))
  /\ (forall k, i * w + j <= k -> MedianCut.array_get cur k = MedianCut.array_get orig k).

Lemma table_next_row (orig : list Spectrum) (w : nat)
    (cur : list Spectrum) (i : nat) :
  table_upto orig w cur i w -> table_upto orig w cur (S i) 0.
Proof.
  intros (Hlen & Hdone & Hrest). split; [assumption|]. split.
  - intros i' j' Hj' Hbefore. apply Hdone; [assumption|].
    destruct Hbefore as [H | [_ H]]; [|lia].
    destruct (Nat.eq_dec i' i) as [-> | Hne]; [right; split; [reflexivity | assumption]|].
    left. lia.
  - intros k Hle. apply Hrest. lia.
Qed.

Section TableProperties.
Variable fadd fsub : Q -> Q -> Q.
Hypothesis fadd_Qeq : forall a a' b b',
  (a == a')%Q -> (b == b')%Q -> (fadd a b == fadd a' b')%Q.
Hypothesis fsub_Qeq : forall a a' b b',
  (a == a')%Q -> (b == b')%Q -> (fsub a b == fsub a' b')%Q.
Variable orig : list Spectrum.
Variable w h : nat.
Hypothesis all_exact : forall i j, i < h -> j < w ->
  exact_at fadd fsub orig w i j.

Local Abbreviation Fadd := (MedianCut.Fadd fadd).
Local Abbreviation Fsub := (MedianCut.Fsub fsub).

Lemma Fadd_Seq (a a' b b' : Spectrum) :
  Seq a a' -> Seq b b' -> Seq (Fadd a b) (Fadd a' b').
Proof.
  intros (A0 & A1 & A2) (B0 & B1 & B2).
  unfold Seq, MedianCut.Fadd. cbn [c0 c1 c2].
  repeat split; apply fadd_Qeq; assumption.
Qed.

Lemma Fsub_Seq (a a' b b' : Spectrum) :
  Seq a a' -> Seq b b' -> Seq (Fsub a b) (Fsub a' b').
Proof.
  intros (A0 & A1 & A2) (B0 & B1 & B2).
  unfold Seq, MedianCut.Fsub. cbn [c0 c1 c2].
  repeat split; apply fsub_Qeq; assumption.
Qed.

Lemma table_cell_step (cur : list Spectrum) (i j : nat) :
  table_upto orig w cur i j -> i < h -> j < w -> i * w + j < length orig ->
  table_upto orig w (MedianCut.InitSummedAreaTable_cell fadd fsub w cur i j)
    i (S j).
Proof.
  intros (Hlen & Hdone & Hrest) Hi Hj Hk.
  pose proof (all_exact Hi Hj) as Hex.
  assert (Hnew : forall v,
            Seq v (area_sum orig w i j) ->
            table_upto orig w (MedianCut.array_set cur (i * w + j) v) i (S j)).
  { intros v Hv. split; [|split].
    - rewrite array_set_length. assumption.
    - intros i' j' Hj' Hbefore.
      destruct (Nat.eq_dec (i * w + j) (i' * w + j')) as [E | E].
      + assert (i' = i /\ j' = j) as [-> ->] by nia.
        rewrite array_get_set_eq by lia. assumption.
      + rewrite array_get_set_neq by assumption.
        apply Hdone; [assumption|].
        destruct Hbefore as [H | [-> H]]; [left; assumption|].
        right. split; [reflexivity|].
        assert (j' <> j) by (intros ->; apply E; reflexivity). lia.
    - intros k Hle. rewrite array_get_set_neq by lia. apply Hrest. lia. }
  assert (Hself : MedianCut.array_get cur (i * w + j) = MedianCut.array_get orig (i * w + j))
    by (apply Hrest; lia).
  unfold MedianCut.InitSummedAreaTable_cell. cbv zeta.
  unfold exact_at in Hex.
  destruct i as [|i']; destruct j as [|j']; cbn [Nat.eqb negb];
    cbv beta iota zeta in Hex.
  - (* the first cell *)
    split; [assumption|]. split.
    + intros i' j' Hj' [H | [-> H]]; [lia|].
      assert (j' = 0) as -> by lia. rewrite Hself. cbn. apply Seq_refl.
    + intros k Hle. apply Hrest. lia.
  - (* the first row *)
    apply Hnew. rewrite Hself.
    replace (0 * w + S j' - 1) with (0 * w + j') by lia.
    pose proof (Hdone 0 j' ltac:(lia) ltac:(right; lia)) as H1.
    eapply Seq_trans; [apply (Fadd_Seq (Seq_refl _) H1)|].
    eapply Seq_trans; [exact Hex|].
    cbn [area_sum row_sum]. unfold Seq, Sadd. cbn [c0 c1 c2].
    repeat split; ring.
  - (* the first column *)
    apply Hnew. rewrite Hself.
    replace (S i' * w + 0 - w) with (i' * w + 0) by lia.
    pose proof (Hdone i' 0 ltac:(lia) ltac:(left; lia)) as H1.
    eapply Seq_trans; [apply (Fadd_Seq (Seq_refl _) H1)|].
    eapply Seq_trans; [exact Hex|].
    cbn [area_sum row_sum]. unfold Seq, Sadd. cbn [c0 c1 c2].
    repeat split; ring.
  - (* inside *)
    apply Hnew. rewrite Hself.
    replace (S i' * w + S j' - 1) with (S i' * w + j') by lia.
    replace (S i' * w + S j' - w - 1) with (i' * w + j') by lia.
    replace (S i' * w + S j' - w) with (i' * w + S j') by lia.
    pose proof (Hdone (S i') j' ltac:(lia) ltac:(right; lia)) as H1.
    pose proof (Hdone i' (S j') ltac:(lia) ltac:(left; lia)) as H2.
    pose proof (Hdone i' j' ltac:(lia) ltac:(left; lia)) as H3.
    destruct Hex as (E1 & E2 & E3).
    pose proof (Seq_trans (Fadd_Seq (Seq_refl _) H1) E1) as S1.
    pose proof (Seq_trans (Fadd_Seq S1 H2) E2) as S2.
    pose proof (Seq_trans (Fsub_Seq S2 H3) E3) as S3.
    eapply Seq_trans; [exact S3|].
    cbn [area_sum row_sum]. unfold Seq, Sadd, Ssub. cbn [c0 c1 c2].
    repeat split; ring.
Qed.

Lemma table_row (i n : nat) :
  forall j cur,
    table_upto orig w cur i j -> i < h -> j + n <= w ->
    i * w + w <= length orig ->
    table_upto orig w
      (fold_left (fun a j => MedianCut.InitSummedAreaTable_cell fadd fsub w a i j)
         (seq j n) cur)
      i (j + n).
Proof.
  induction n as [|n IH]; intros j cur Hinv Hi Hjn Hlen.
  - cbn. rewrite Nat.add_0_r. assumption.
  - cbn [seq fold_left]. replace (j + S n) with (S j + n) by lia.
    apply IH; [|assumption | lia | assumption].
    apply table_cell_step; [assumption | assumption | lia | lia].
Qed.

Lemma table_rows (n : nat) :
  forall i cur,
    table_upto orig w cur i 0 -> i + n <= h -> (i + n) * w <= length orig ->
    table_upto orig w
      (fold_left
         (fun a i =>
            fold_left
              (fun a j => MedianCut.InitSummedAreaTable_cell fadd fsub w a i j)
              (seq 0 w) a)
         (seq i n) cur)
      (i + n) 0.
Proof.
  induction n as [|n IH]; intros i cur Hinv Hh Hlen.
  - cbn. rewrite Nat.add_0_r. assumption.
  - cbn [seq fold_left]. replace (i + S n) with (S i + n) in * by lia.
    apply IH; [|assumption | assumption].
    apply table_next_row.
    apply (@table_row i w 0 cur Hinv); nia.
Qed.

End TableProperties.

(** X13: [InitSummedAreaTable] leaves the size of the array unchanged, and
    where none of its float additions and subtractions rounds, it turns an
    array of [width * height] entries into its summed-area table: the entry
    of row [i] and column [j] is the sum of the entries the array held in
    the rows [0 .. i] and the columns [0 .. j], and the last entry, which
    the constructor hands to the root of the median cut, is the sum of all
    entries. *)
Theorem InitSummedAreaTable_sums (fadd fsub : Q -> Q -> Q)
    (summedArea : list Spectrum) (width height : nat) :
  (forall a a' b b', (a == a')%Q -> (b == b')%Q ->
                     (fadd a b == fadd a' b')%Q) ->
  (forall a a' b b', (a == a')%Q -> (b == b')%Q ->
                     (fsub a b == fsub a' b')%Q) ->
  length summedArea = width * height ->
  (forall i j, i < height -> j < width ->
     exact_at fadd fsub summedArea width i j) ->
  let table :=
    MedianCut.InitSummedAreaTable fadd fsub summedArea width height in
  length table = width * height
  /\ (forall i j, i < height -> j < width ->
       Seq (MedianCut.array_get table (i * width + j))
           (area_sum summedArea width i j))
  /\ (0 < width -> 0 < height ->
      Seq (MedianCut.array_get table (width * height - 1))
          (area_sum summedArea width (height - 1) (width - 1))).
Proof.
  intros Hadd Hsub Hlen Hexact table.
  assert (Hstart : table_upto summedArea width summedArea 0 0).
  { split; [reflexivity|]. split; [|reflexivity].
    intros i' j' _ [H | [_ H]]; lia. }
  pose proof (@table_rows fadd fsub Hadd Hsub summedArea width height Hexact
                height 0 summedArea Hstart ltac:(lia) ltac:(nia))
    as (Hl & Hdone & _).
  fold (MedianCut.InitSummedAreaTable fadd fsub summedArea width height)
    in Hl, Hdone.
  fold table in Hl, Hdone. cbn [Nat.add] in Hdone.
  split; [congruence|]. split.
  - intros i j Hi Hj. apply Hdone; [assumption | left; assumption].
  - intros Hw Hh.
    replace (width * height - 1) with ((height - 1) * width + (width - 1))
      by nia.
    apply Hdone; [lia | left; lia].
Qed.

(** The float sum, difference and product of two floats, and the float
    nearest to an [int]. *)
Definition float_add (a b : Q) : Q := binary32 (a + b).
Definition float_sub (a b : Q) : Q := binary32 (a - b).
Definition float_mul (a b : Q) : Q := binary32 (a * b).
Definition float_of_int (z : Z) : Q := binary32 (inject_Z z).

Lemma binary32_Qeq (a b : Q) : (a == b)%Q -> binary32 a = binary32 b.
Proof.
  intro H. unfold binary32. rewrite (Qred_complete _ _ H). reflexivity.
Qed.

Lemma float_add_Qeq (a a' b b' : Q) :
  (a == a')%Q -> (b == b')%Q -> (float_add a b == float_add a' b')%Q.
Proof.
  intros Ha Hb. unfold float_add.
  rewrite (@binary32_Qeq (a + b) (a' + b')); [reflexivity|].
  rewrite Ha, Hb. reflexivity.
Qed.

Lemma float_sub_Qeq (a a' b b' : Q) :
  (a == a')%Q -> (b == b')%Q -> (float_sub a b == float_sub a' b')%Q.
Proof.
  intros Ha Hb. unfold float_sub.
  rewrite (@binary32_Qeq (a - b) (a' - b')); [reflexivity|].
  rewrite Ha, Hb. reflexivity.
Qed.

Definition two_by_two : list Spectrum :=
  [Spectrum_of_float 1; Spectrum_of_float 2;
   Spectrum_of_float 3; Spectrum_of_float 4].

Lemma InitSummedAreaTable_sums_witness :
  Seq (MedianCut.array_get
         (MedianCut.InitSummedAreaTable float_add float_sub two_by_two 2 2) 3)
      (Spectrum_of_float 10).
Proof.
  assert (Hexact : forall i j, i < 2 -> j < 2 ->
            exact_at float_add float_sub two_by_two 2 i j).
  { intros [|[|i]] [|[|j]] Hi Hj; try lia;
      vm_compute; repeat split; reflexivity. }
  destruct (@InitSummedAreaTable_sums float_add float_sub two_by_two 2 2
              float_add_Qeq float_sub_Qeq eq_refl Hexact) as (_ & H & _).
  eapply Seq_trans; [apply (H 1 1); lia|].
  vm_compute. repeat split; reflexivity.
Defined.

(** Where an addition rounds, the table does not hold the sums: the float
    nearest to 2^24 + 1 is 2^24, and on the four entries 2^24, 1, 1, 1 the
    call leaves 2^24 in every entry, where the sum of the four is
    2^24 + 3. *)
Example InitSummedAreaTable_absorbs :
  let big := Spectrum_of_float 16777216 in
  let one := Spectrum_of_float 1 in
  MedianCut.InitSummedAreaTable float_add float_sub [big; one; one; one] 2 2
  = [big; big; big; big]
  /\ ~ exact_at float_add float_sub [big; one; one; one] 2 0 1.
Proof.
  split; [vm_compute; reflexivity|].
  vm_compute. intros (H & _). discriminate H.
Qed.

(** ** The median cut of [MedianCutEnvironmentLight] *)

(** The nodes of a tree that have no child, from left to right. *)
Fixpoint fringe (t : MedianCut.MedianCutRect) : list MedianCut.MedianCutRect :=
  match t with
  | MedianCut.mkMedianCutRect None None _ _ _ _ _ _ _ => [t]
  | MedianCut.mkMedianCutRect l r _ _ _ _ _ _ _ =>
      match l with Some l' => fringe l' | None => [] end
      ++ match r with Some r' => fringe r' | None => [] end
  end.

(** A tree all of whose branches are [n] cuts deep. *)
Fixpoint perfect (n : nat) (t : MedianCut.MedianCutRect) : Prop :=
  match n with
  | O => MedianCut.left t = None /\ MedianCut.right t = None
  | S n' =>
      match MedianCut.left t, MedianCut.right t with
      | Some l, Some r => perfect n' l /\ perfect n' r
      | _, _ => False
      end
  end.

(** [P] holds of a node and its two children, at every node of the tree
    that has children. *)
Fixpoint every_cut
    (P : MedianCut.MedianCutRect -> MedianCut.MedianCutRect ->
         MedianCut.MedianCutRect -> Prop)
    (t : MedianCut.MedianCutRect) : Prop :=
  match t with
  | MedianCut.mkMedianCutRect (Some l) (Some r) _ _ _ _ _ _ _ =>
      P t l r /\ every_cut P l /\ every_cut P r
  | _ => True
  end.

(** How a cut divides a rectangle that holds at least one texel: the
    children lie side by side in it along its longer side, the first at
    its origin, and together they cover it but for its last column (its
    last row, when it is not wider than high).  When the rectangle is at
    most two texels wide and high, nothing is scanned and both children
    carry the black spectrum. *)
Definition cut_shape (t l r : MedianCut.MedianCutRect) : Prop :=
  let W := MedianCut.Rect_width t in
  let H := MedianCut.Rect_height t in
  ((1 <= W)%Z -> (1 <= H)%Z ->
   MedianCut.x l = MedianCut.x t /\ MedianCut.y l = MedianCut.y t
   /\ if (H <? W)%Z then
        MedianCut.Rect_height l = H /\ MedianCut.Rect_height r = H
        /\ MedianCut.y r = MedianCut.y t
        /\ MedianCut.x r = (MedianCut.x l + MedianCut.Rect_width l)%Z
        /\ (MedianCut.x r + MedianCut.Rect_width r
            = MedianCut.x t + W - 1)%Z
        /\ (0 <= MedianCut.Rect_width l <= W - 2)%Z
        /\ (1 <= MedianCut.Rect_width r)%Z
      else
        MedianCut.Rect_width l = W /\ MedianCut.Rect_width r = W
        /\ MedianCut.x r = MedianCut.x t
        /\ MedianCut.y r = (MedianCut.y l + MedianCut.Rect_height l)%Z
        /\ (MedianCut.y r + MedianCut.Rect_height r
            = MedianCut.y t + H - 1)%Z
        /\ (0 <= MedianCut.Rect_height l)%Z
        /\ (MedianCut.Rect_height l <= Z.max 0 (H - 2))%Z
        /\ (0 <= MedianCut.Rect_height r)%Z)
  /\ ((W <= 2)%Z -> (H <= 2)%Z ->
      MedianCut.SummedRGB l = Spectrum_of_float 0
      /\ MedianCut.SummedRGB r = Spectrum_of_float 0).

Section CutProperties.
Variable SummedAreaValue : Z -> Z -> Z -> Z -> Spectrum.
Variable luminance : Spectrum -> Q.
Variable LimitedHeight : Z.

Local Abbreviation CutCut := (MedianCut.CutCut SummedAreaValue luminance LimitedHeight).
Local Abbreviation CutCut_levels :=
  (MedianCut.CutCut_levels SummedAreaValue luminance LimitedHeight).

Lemma scanX_range (root : MedianCut.MedianCutRect) (n : nat) :
  forall index first,
    let m := fst (fst (MedianCut.scanX SummedAreaValue root n index first)) in
    (m = 0 \/ index <= m < index + Z.of_nat n)%Z.
Proof.
  induction n as [|n IH]; intros index first; cbn [MedianCut.scanX].
  - left. reflexivity.
  - cbv zeta.
    match goal with |- context [if ?c then _ else _] => destruct c end.
    + right. cbn [fst]. lia.
    + specialize (IH (index + 1)%Z
                    (SummedAreaValue (MedianCut.x root) (MedianCut.y root)
                       index (MedianCut.Rect_height root))).
      cbv zeta in IH. destruct IH as [-> | IH]; [left; reflexivity | right; lia].
Qed.

Lemma scanY_range (root : MedianCut.MedianCutRect) (n : nat) :
  forall index first,
    let m := fst (fst (MedianCut.scanY SummedAreaValue root n index first)) in
    (m = 0 \/ index <= m < index + Z.of_nat n)%Z.
Proof.
  induction n as [|n IH]; intros index first; cbn [MedianCut.scanY].
  - left. reflexivity.
  - cbv zeta.
    match goal with |- context [if ?c then _ else _] => destruct c end.
    + right. cbn [fst]. lia.
    + specialize (IH (index + 1)%Z
                    (SummedAreaValue (MedianCut.x root) (MedianCut.y root)
                       (MedianCut.Rect_width root) index)).
      cbv zeta in IH. destruct IH as [-> | IH]; [left; reflexivity | right; lia].
Qed.

(** The recursion as the source has it. *)
Lemma CutCut_levels_enough (levels : nat) :
  forall root nowTreeHeight leafs,
    Z.to_nat (LimitedHeight - nowTreeHeight) <= levels ->
    CutCut_levels levels root nowTreeHeight leafs
    = CutCut root nowTreeHeight leafs.
Proof.
  unfold MedianCut.CutCut.
  induction levels as [|levels IH]; intros root h leafs Hle.
  - replace (Z.to_nat (LimitedHeight - h)) with 0 by lia. reflexivity.
  - destruct (Z.to_nat (LimitedHeight - h)) as [|n] eqn:En.
    + cbn [MedianCut.CutCut_levels].
      destruct (LimitedHeight <? h)%Z eqn:E1; [reflexivity|].
      apply Z.ltb_ge in E1.
      assert (E2 : (LimitedHeight <? h + 1)%Z = true) by (apply Z.ltb_lt; lia).
      rewrite E2. reflexivity.
    + cbn [MedianCut.CutCut_levels].
      destruct (LimitedHeight <? h)%Z; [reflexivity|].
      assert (Hn : Z.to_nat (LimitedHeight - (h + 1)) = n) by lia.
      assert (Hl : Z.to_nat (LimitedHeight - (h + 1)) <= levels) by lia.
      destruct (MedianCut.Rect_height root <? MedianCut.Rect_width root)%Z.
      * destruct (MedianCut.scanX SummedAreaValue root
                    (Z.to_nat (MedianCut.Rect_width root - 2)) 1
                    (Spectrum_of_float 0)) as [[m a] b].
        destruct (LimitedHeight <? h + 1)%Z; [reflexivity|].
        rewrite (IH _ _ _ Hl), Hn.
        match goal with
        | |- context [CutCut_levels n ?l ?k ?ls] =>
            destruct (CutCut_levels n l k ls) as [l' leafs1]
        end.
        rewrite (IH _ _ _ Hl), Hn. reflexivity.
      * destruct (MedianCut.scanY SummedAreaValue root
                    (Z.to_nat (MedianCut.Rect_height root - 2)) 1
                    (Spectrum_of_float 0)) as [[m a] b].
        destruct (LimitedHeight <? h + 1)%Z; [reflexivity|].
        rewrite (IH _ _ _ Hl), Hn.
        match goal with
        | |- context [CutCut_levels n ?l ?k ?ls] =>
            destruct (CutCut_levels n l k ls) as [l' leafs1]
        end.
        rewrite (IH _ _ _ Hl), Hn. reflexivity.
Qed.

Lemma CutCut_recursion (root : MedianCut.MedianCutRect) (nowTreeHeight : Z)
    (leafs : list MedianCut.MedianCutRect) :
  CutCut root nowTreeHeight leafs
  = if (LimitedHeight <? nowTreeHeight)%Z then (root, leafs)
    else if (MedianCut.Rect_height root <? MedianCut.Rect_width root)%Z then
      let '(medianCC, leftRect, RightRect) :=
        MedianCut.scanX SummedAreaValue root
          (Z.to_nat (MedianCut.Rect_width root - 2)) 1 (Spectrum_of_float 0) in
      if (LimitedHeight <? nowTreeHeight + 1)%Z then (root, leafs ++ [root])
      else
        let '(l', leafs1) :=
          CutCut
            (MedianCut.MedianCutRect_new luminance (MedianCut.x root)
               (MedianCut.y root) medianCC (MedianCut.Rect_height root)
               leftRect)
            (nowTreeHeight + 1) leafs in
        let '(r', leafs2) :=
          CutCut
            (MedianCut.MedianCutRect_new luminance
               (MedianCut.x root + medianCC) (MedianCut.y root)
               (MedianCut.Rect_width root - medianCC - 1)
               (MedianCut.Rect_height root) RightRect)
            (nowTreeHeight + 1) leafs1 in
        (MedianCut.set_children root (Some l') (Some r'), leafs2)
    else
      let '(medianCC, UpRect, ButtonRect) :=
        MedianCut.scanY SummedAreaValue root
          (Z.to_nat (MedianCut.Rect_height root - 2)) 1
          (Spectrum_of_float 0) in
      if (LimitedHeight <? nowTreeHeight + 1)%Z then (root, leafs ++ [root])
      else
        let '(l', leafs1) :=
          CutCut
            (MedianCut.MedianCutRect_new luminance (MedianCut.x root)
               (MedianCut.y root) (MedianCut.Rect_width root) medianCC UpRect)
            (nowTreeHeight + 1) leafs in
        let '(r', leafs2) :=
          CutCut
            (MedianCut.MedianCutRect_new luminance (MedianCut.x root)
               (MedianCut.y root + medianCC) (MedianCut.Rect_width root)
               (MedianCut.Rect_height root - medianCC - 1) ButtonRect)
            (nowTreeHeight + 1) leafs1 in
        (MedianCut.set_children root (Some l') (Some r'), leafs2).
Proof.
  rewrite <- (@CutCut_levels_enough
                (S (Z.to_nat (LimitedHeight - nowTreeHeight)))) by lia.
  cbn [MedianCut.CutCut_levels].
  destruct (LimitedHeight <? nowTreeHeight)%Z; [reflexivity|].
  assert (Hl : Z.to_nat (LimitedHeight - (nowTreeHeight + 1))
               <= Z.to_nat (LimitedHeight - nowTreeHeight)) by lia.
  destruct (MedianCut.Rect_height root <? MedianCut.Rect_width root)%Z.
  - destruct (MedianCut.scanX SummedAreaValue root
                (Z.to_nat (MedianCut.Rect_width root - 2)) 1
                (Spectrum_of_float 0)) as [[m a] b].
    destruct (LimitedHeight <? nowTreeHeight + 1)%Z; [reflexivity|].
    rewrite (CutCut_levels_enough _ _ _ Hl).
    match goal with
    | |- context [CutCut ?l ?k ?ls] =>
        destruct (CutCut l k ls) as [l' leafs1]
    end.
    rewrite (CutCut_levels_enough _ _ _ Hl). reflexivity.
  - destruct (MedianCut.scanY SummedAreaValue root
                (Z.to_nat (MedianCut.Rect_height root - 2)) 1
                (Spectrum_of_float 0)) as [[m a] b].
    destruct (LimitedHeight <? nowTreeHeight + 1)%Z; [reflexivity|].
    rewrite (CutCut_levels_enough _ _ _ Hl).
    match goal with
    | |- context [CutCut ?l ?k ?ls] =>
        destruct (CutCut l k ls) as [l' leafs1]
    end.
    rewrite (CutCut_levels_enough _ _ _ Hl). reflexivity.
Qed.

(** A call leaves the rectangle and the sums of its node as they are. *)
Lemma CutCut_keeps_root (root : MedianCut.MedianCutRect) (h : Z)
    (leafs : list MedianCut.MedianCutRect) :
  let t := fst (CutCut root h leafs) in
  MedianCut.x t = MedianCut.x root /\ MedianCut.y t = MedianCut.y root
  /\ MedianCut.Rect_width t = MedianCut.Rect_width root
  /\ MedianCut.Rect_height t = MedianCut.Rect_height root
  /\ MedianCut.SummedRGB t = MedianCut.SummedRGB root
  /\ MedianCut.SummedLum t = MedianCut.SummedLum root
  /\ MedianCut.LightPoint t = MedianCut.LightPoint root.
Proof.
  cbv zeta. rewrite CutCut_recursion.
  destruct (LimitedHeight <? h)%Z; [repeat split; reflexivity|].
  destruct (MedianCut.Rect_height root <? MedianCut.Rect_width root)%Z.
  - destruct (MedianCut.scanX _ _ _ _ _) as [[m a] b].
    destruct (LimitedHeight <? h + 1)%Z; [repeat split; reflexivity|].
    destruct (CutCut _ _ _) as [l' leafs1].
    destruct (CutCut _ _ _) as [r' leafs2].
    destruct root. repeat split; reflexivity.
  - destruct (MedianCut.scanY _ _ _ _ _) as [[m a] b].
    destruct (LimitedHeight <? h + 1)%Z; [repeat split; reflexivity|].
    destruct (CutCut _ _ _) as [l' leafs1].
    destruct (CutCut _ _ _) as [r' leafs2].
    destruct root. repeat split; reflexivity.
Qed.

Lemma perfect_fringe (n : nat) :
  forall t, perfect n t -> length (fringe t) = 2 ^ n.
Proof.
  induction n as [|n IH]; intros t Ht.
  - destruct t as [l r ? ? ? ? ? ? ?]. cbn in Ht. destruct Ht as [-> ->].
    reflexivity.
  - destruct t as [[l|] [r|] ? ? ? ? ? ? ?]; cbn in Ht; try contradiction.
    destruct Ht as [Hl Hr]. cbn [fringe]. rewrite length_app.
    rewrite (IH _ Hl), (IH _ Hr). cbn [Nat.pow]. lia.
Qed.

Lemma fringe_set_children (root l r : MedianCut.MedianCutRect) :
  fringe (MedianCut.set_children root (Some l) (Some r))
  = fringe l ++ fringe r.
Proof. reflexivity. Qed.

Lemma CutCut_tree (n : nat) :
  forall root h leafs,
    MedianCut.left root = None -> MedianCut.right root = None ->
    (h <= LimitedHeight)%Z -> Z.to_nat (LimitedHeight - h) = n ->
    snd (CutCut root h leafs) = leafs ++ fringe (fst (CutCut root h leafs))
    /\ perfect n (fst (CutCut root h leafs))
    /\ every_cut cut_shape (fst (CutCut root h leafs)).
Proof.
  induction n as [|n IH]; intros root h leafs Hl Hr Hh Hn;
    rewrite CutCut_recursion;
    (replace (LimitedHeight <? h)%Z with false
       by (symmetry; apply Z.ltb_ge; lia)).
  - replace (LimitedHeight <? h + 1)%Z with true
      by (symmetry; apply Z.ltb_lt; lia).
    assert (Hleaf : fringe root = [root] /\ every_cut cut_shape root).
    { destruct root. cbn in Hl, Hr. subst. split; reflexivity. }
    destruct Hleaf as [Hf He].
    destruct (MedianCut.Rect_height root <? MedianCut.Rect_width root)%Z;
      [destruct (MedianCut.scanX _ _ _ _ _) as [[m a] b]
      | destruct (MedianCut.scanY _ _ _ _ _) as [[m a] b]];
      cbn [fst snd]; rewrite Hf; (split; [reflexivity|]);
      (split; [split; assumption | assumption]).
  - replace (LimitedHeight <? h + 1)%Z with false
      by (symmetry; apply Z.ltb_ge; lia).
    destruct (MedianCut.Rect_height root <? MedianCut.Rect_width root)%Z
      eqn:Ewide.
    + pose proof (@scanX_range root (Z.to_nat (MedianCut.Rect_width root - 2))
                    1 (Spectrum_of_float 0)) as Hrange.
      cbv zeta in Hrange.
      assert (Hsmall : (MedianCut.Rect_width root <= 2)%Z ->
                MedianCut.scanX SummedAreaValue root
                  (Z.to_nat (MedianCut.Rect_width root - 2)) 1
                  (Spectrum_of_float 0)
                = (0%Z, Spectrum_of_float 0, Spectrum_of_float 0)).
      { intro Hw. replace (Z.to_nat (MedianCut.Rect_width root - 2)) with 0
          by lia. reflexivity. }
      destruct (MedianCut.scanX _ _ _ _ _) as [[m a] b]. cbn [fst] in Hrange.
      match goal with
      | |- context [CutCut ?l ?k ?ls] =>
          destruct (IH l k ls eq_refl eq_refl ltac:(lia) ltac:(lia))
            as (Hl1 & Hl2 & Hl3);
          pose proof (CutCut_keeps_root l k ls) as Kl;
          destruct (CutCut l k ls) as [l' leafs1]
      end.
      match goal with
      | |- context [CutCut ?l ?k ?ls] =>
          destruct (IH l k ls eq_refl eq_refl ltac:(lia) ltac:(lia))
            as (Hr1 & Hr2 & Hr3);
          pose proof (CutCut_keeps_root l k ls) as Kr;
          destruct (CutCut l k ls) as [r' leafs2]
      end.
      cbn [fst snd] in *. rewrite fringe_set_children.
      split; [rewrite Hr1, Hl1, app_assoc; reflexivity|].
      split; [destruct root; cbn; split; assumption|].
      cbv zeta in Kl, Kr.
      destruct Kl as (Kl1 & Kl2 & Kl3 & Kl4 & Kl5 & _).
      destruct Kr as (Kr1 & Kr2 & Kr3 & Kr4 & Kr5 & _).
      cbn in Kl1, Kl2, Kl3, Kl4, Kl5, Kr1, Kr2, Kr3, Kr4, Kr5.
      apply Z.ltb_lt in Ewide.
      assert (Hshape : cut_shape root l' r').
      { unfold cut_shape. cbv zeta. split.
        - intros HW HH. rewrite (proj2 (Z.ltb_lt _ _) Ewide).
          rewrite Kl1, Kl2, Kl3, Kl4, Kr1, Kr2, Kr3, Kr4.
          repeat split; lia.
        - intros HW HH. specialize (Hsmall HW). injection Hsmall as -> -> ->.
          split; assumption. }
      destruct root as [? ? rx ry rw rh rgb lum lp]. cbn.
      split; [exact Hshape | split; assumption].
    + pose proof (@scanY_range root
                    (Z.to_nat (MedianCut.Rect_height root - 2))
                    1 (Spectrum_of_float 0)) as Hrange.
      cbv zeta in Hrange.
      assert (Hsmall : (MedianCut.Rect_height root <= 2)%Z ->
                MedianCut.scanY SummedAreaValue root
                  (Z.to_nat (MedianCut.Rect_height root - 2)) 1
                  (Spectrum_of_float 0)
                = (0%Z, Spectrum_of_float 0, Spectrum_of_float 0)).
      { intro Hw. replace (Z.to_nat (MedianCut.Rect_height root - 2)) with 0
          by lia. reflexivity. }
      destruct (MedianCut.scanY _ _ _ _ _) as [[m a] b]. cbn [fst] in Hrange.
      match goal with
      | |- context [CutCut ?l ?k ?ls] =>
          destruct (IH l k ls eq_refl eq_refl ltac:(lia) ltac:(lia))
            as (Hl1 & Hl2 & Hl3);
          pose proof (CutCut_keeps_root l k ls) as Kl;
          destruct (CutCut l k ls) as [l' leafs1]
      end.
      match goal with
      | |- context [CutCut ?l ?k ?ls] =>
          destruct (IH l k ls eq_refl eq_refl ltac:(lia) ltac:(lia))
            as (Hr1 & Hr2 & Hr3);
          pose proof (CutCut_keeps_root l k ls) as Kr;
          destruct (CutCut l k ls) as [r' leafs2]
      end.
      cbn [fst snd] in *. rewrite fringe_set_children.
      split; [rewrite Hr1, Hl1, app_assoc; reflexivity|].
      split; [destruct root; cbn; split; assumption|].
      cbv zeta in Kl, Kr.
      destruct Kl as (Kl1 & Kl2 & Kl3 & Kl4 & Kl5 & _).
      destruct Kr as (Kr1 & Kr2 & Kr3 & Kr4 & Kr5 & _).
      cbn in Kl1, Kl2, Kl3, Kl4, Kl5, Kr1, Kr2, Kr3, Kr4, Kr5.
      apply Z.ltb_ge in Ewide.
      assert (Hshape : cut_shape root l' r').
      { unfold cut_shape. cbv zeta. split.
        - intros HW HH. rewrite (proj2 (Z.ltb_ge _ _) Ewide).
          rewrite Kl1, Kl2, Kl3, Kl4, Kr1, Kr2, Kr3, Kr4.
          repeat split; lia.
        - intros HW HH. specialize (Hsmall HH). injection Hsmall as -> -> ->.
          split; assumption. }
      destruct root as [? ? rx ry rw rh rgb lum lp]. cbn.
      split; [exact Hshape | split; assumption].
Qed.

(** X14: [CutCut] called at a tree height above [LimitedHeight] does
    nothing.  Called at a height [h <= LimitedHeight] on a node without
    children, it grows under the node a tree all of whose branches are
    [LimitedHeight - h] cuts deep and appends to [leafs], after the
    entries already there, the [2 ^ (LimitedHeight - h)] childless nodes
    of that tree from left to right: the lights of the environment. *)
Theorem CutCut_leaves (root : MedianCut.MedianCutRect) (h : Z)
    (leafs : list MedianCut.MedianCutRect) :
  MedianCut.left root = None -> MedianCut.right root = None ->
  let tree := fst (CutCut root h leafs) in
  let leafs' := snd (CutCut root h leafs) in
  ((LimitedHeight < h)%Z -> tree = root /\ leafs' = leafs)
  /\ ((h <= LimitedHeight)%Z ->
      leafs' = leafs ++ fringe tree
      /\ perfect (Z.to_nat (LimitedHeight - h)) tree
      /\ length (fringe tree) = 2 ^ Z.to_nat (LimitedHeight - h)
      /\ Forall (fun leaf => MedianCut.left leaf = None
                             /\ MedianCut.right leaf = None) (fringe tree)).
Proof.
  intros Hl Hr tree leafs'. subst tree leafs'. split.
  - intro Hh. rewrite CutCut_recursion.
    rewrite (proj2 (Z.ltb_lt _ _) Hh). split; reflexivity.
  - intro Hh.
    destruct (@CutCut_tree (Z.to_nat (LimitedHeight - h)) root h leafs
                Hl Hr Hh eq_refl) as (Hleafs & Hperfect & _).
    split; [assumption|]. split; [assumption|].
    split; [apply perfect_fringe; assumption|].
    clear. generalize (fst (CutCut root h leafs)).
    fix IH 1. intros [l r ? ? ? ? ? ? ?].
    destruct l as [l|]; destruct r as [r|]; cbn [fringe].
    + apply Forall_app. split; apply IH.
    + rewrite app_nil_r. apply IH.
    + apply IH.
    + constructor; [split; reflexivity | constructor].
Qed.

(** X15: every cut of the tree [CutCut] grows under a node without
    children divides a rectangle of at least one texel into two that lie
    side by side in it along its longer side, the first at its origin, and
    together cover it but for its last column (its last row, when it is
    not wider than high); and the children of a rectangle at most two
    texels wide and high carry the black spectrum. *)
Theorem CutCut_cut_shape (root : MedianCut.MedianCutRect) (h : Z)
    (leafs : list MedianCut.MedianCutRect) :
  MedianCut.left root = None -> MedianCut.right root = None ->
  every_cut cut_shape (fst (CutCut root h leafs)).
Proof.
  intros Hl Hr. destruct (Z_lt_le_dec LimitedHeight h) as [Hh | Hh].
  - rewrite CutCut_recursion. rewrite (proj2 (Z.ltb_lt _ _) Hh).
    destruct root. cbn in Hl, Hr. subst. exact I.
  - apply (@CutCut_tree (Z.to_nat (LimitedHeight - h)) root h leafs
             Hl Hr Hh eq_refl).
Qed.

End CutProperties.

(** X16: on a non-empty [leafs] of at most 2^31 entries the point-based
    [Sample_L] has a defined result exactly when the float product
    [uPos[0] * nSamples], its fraction dropped, fits an [int].  It then
    reads an entry within the vector: it returns the summed spectrum of
    that leaf with the density 1 and the direction of its light point; the
    entry is the one numbered by the truncated product, converted to
    [size_t], modulo [leafs.size()], which for a truncated product that is
    not negative is the truncated product modulo [leafs.size()]. *)
Theorem Sample_L_reads_a_leaf (leafs : list MedianCut.MedianCutRect)
    (nSamples : Z) (float_of_int : Z -> Q) (Fmul : Q -> Q -> Q)
    (LightToWorld Normalize : Vector -> Vector) (p : Point)
    (pEpsilon : Q) (ls : MedianCutEnvironmentLight.LightSample) (time : Q) :
  leafs <> [] -> (Z.of_nat (length leafs) <= 2 ^ 31)%Z ->
  let product :=
    Fmul (MedianCutEnvironmentLight.uPos0 ls) (float_of_int nSamples) in
  let truncated := Z.quot (Qnum product) (Z.pos (Qden product)) in
  let result :=
    MedianCut.Sample_L leafs nSamples float_of_int Fmul LightToWorld
      Normalize p pEpsilon ls time in
  ((truncated < - 2 ^ 31 \/ 2 ^ 31 <= truncated)%Z -> result = None)
  /\ ((- 2 ^ 31 <= truncated < 2 ^ 31)%Z ->
      exists i leaf,
        i < length leafs /\ nth_error leafs i = Some leaf
        /\ result
           = Some (MedianCut.SummedRGB leaf,
                   Normalize (LightToWorld (MedianCut.LightPoint leaf)), 1%Q,
                   (p, pEpsilon,
                    Normalize (LightToWorld (MedianCut.LightPoint leaf)),
                    time))
        /\ Z.of_nat i
           = ((truncated mod 2 ^ 64) mod Z.of_nat (length leafs))%Z
        /\ ((0 <= truncated)%Z ->
            Z.of_nat i = (truncated mod Z.of_nat (length leafs))%Z)).
Proof.
  intros Hne Hsize product truncated result.
  destruct leafs as [|first rest]; [congruence|].
  set (leafs := first :: rest) in *.
  assert (Hlen : (0 < Z.of_nat (length leafs))%Z) by (cbn; lia).
  assert (Hres : result
                 = match MedianCut.float_to_int product with
                   | None => None
                   | Some v =>
                       let k := to_int (MedianCut.to_size_t v
                                        mod Z.of_nat (length leafs)) in
                       if (k <? 0)%Z then None
                       else
                         match nth_error leafs (Z.to_nat k) with
                         | None => None
                         | Some leaf =>
                             Some (MedianCut.SummedRGB leaf,
                                   Normalize
                                     (LightToWorld (MedianCut.LightPoint leaf)),
                                   1%Q,
                                   (p, pEpsilon,
                                    Normalize
                                      (LightToWorld
                                         (MedianCut.LightPoint leaf)),
                                    time))
                         end
                   end) by reflexivity.
  clearbody result. rewrite Hres. clear Hres result.
  unfold MedianCut.float_to_int. fold truncated. split.
  - intro Hout.
    replace ((- 2 ^ 31 <=? truncated) && (truncated <? 2 ^ 31))%Z with false;
      [reflexivity|].
    symmetry. apply andb_false_iff.
    destruct Hout as [H | H]; [left; apply Z.leb_gt | right; apply Z.ltb_ge];
      assumption.
  - intros [Hlo Hhi].
    replace ((- 2 ^ 31 <=? truncated) && (truncated <? 2 ^ 31))%Z with true.
    2:{ symmetry. apply andb_true_intro.
        split; [apply Z.leb_le | apply Z.ltb_lt]; assumption. }
    cbv zeta. unfold MedianCut.to_size_t.
    set (k := ((truncated mod 2 ^ 64) mod Z.of_nat (length leafs))%Z).
    assert (Hk : (0 <= k < Z.of_nat (length leafs))%Z)
      by (apply Z.mod_pos_bound; assumption).
    rewrite (@to_int_small k) by lia.
    replace (k <? 0)%Z with false by (symmetry; apply Z.ltb_ge; lia).
    destruct (nth_error leafs (Z.to_nat k)) as [leaf|] eqn:Enth.
    2:{ apply nth_error_None in Enth. lia. }
    exists (Z.to_nat k), leaf.
    split; [lia|]. split; [assumption|]. split; [reflexivity|].
    split; [rewrite Z2Nat.id by lia; reflexivity|].
    intro Hpos. rewrite Z2Nat.id by lia. unfold k.
    rewrite (Z.mod_small truncated (2 ^ 64)) by lia. reflexivity.
Qed.

(** A uniform environment of 8 by 4 texels, cut for four samples. *)
Definition uniform_area (x_ y_ width height : Z) : Spectrum :=
  Spectrum_of_float (inject_Z (width * height)).
Definition uniform_root : MedianCut.MedianCutRect :=
  MedianCut.MedianCutRect_new Sy 0 0 8 4 (uniform_area 0 0 8 4).

Lemma CutCut_leaves_witness :
  length (snd (MedianCut.CutCut uniform_area Sy 2 uniform_root 0 [])) = 4.
Proof.
  destruct (@CutCut_leaves uniform_area Sy 2 uniform_root 0 [] eq_refl eq_refl)
    as [_ H].
  destruct (H ltac:(lia)) as (E & _ & Hlen & _).
  rewrite E. exact Hlen.
Defined.

Lemma CutCut_cut_shape_witness :
  every_cut cut_shape
    (fst (MedianCut.CutCut uniform_area Sy 2 uniform_root 0 [])).
Proof.
  apply (@CutCut_cut_shape uniform_area Sy 2 uniform_root 0 []);
    reflexivity.
Defined.

Lemma Sample_L_reads_a_leaf_witness :
  exists leaf,
    In leaf (snd (MedianCut.CutCut uniform_area Sy 2 uniform_root 0 []))
    /\ option_map (fun r => fst (fst (fst r)))
         (MedianCut.Sample_L
            (snd (MedianCut.CutCut uniform_area Sy 2 uniform_root 0 []))
            4 float_of_int float_mul (fun v => v) (fun v => v) (mkV3 0 0 0) 0
            (MedianCutEnvironmentLight.mkLightSample (1 # 2) 0 0) 0)
       = Some (MedianCut.SummedRGB leaf).
Proof.
  assert (Hne : snd (MedianCut.CutCut uniform_area Sy 2 uniform_root 0 [])
                <> []) by (vm_compute; discriminate).
  assert (Hsize : (Z.of_nat (length (snd (MedianCut.CutCut uniform_area Sy 2
                                            uniform_root 0 [])))
                   <= 2 ^ 31)%Z) by (vm_compute; discriminate).
  destruct (@Sample_L_reads_a_leaf _ 4 float_of_int float_mul (fun v => v)
              (fun v => v) (mkV3 0 0 0) 0
              (MedianCutEnvironmentLight.mkLightSample (1 # 2) 0 0) 0 Hne
              Hsize) as (_ & Hin).
  destruct Hin as (i & leaf & _ & Hnth & Hs & _).
  { vm_compute. split; [discriminate | reflexivity]. }
  exists leaf. split; [apply nth_error_In with i; exact Hnth|].
  rewrite Hs. reflexivity.
Defined.

(** A sample whose product with [nSamples] is 2^31 or more has no
    defined result: the conversion to [int] overflows. *)
Example Sample_L_overflow :
  MedianCut.Sample_L
    (snd (MedianCut.CutCut uniform_area Sy 2 uniform_root 0 []))
    2147483647 float_of_int float_mul (fun v => v) (fun v => v) (mkV3 0 0 0)
    0 (MedianCutEnvironmentLight.mkLightSample 1 0 0) 0
  = None.
Proof. vm_compute. reflexivity. Qed.

(** ** The specular recursion of [Surface_Li] *)

(** X17: [Surface_Li] leaves [specularDepth] as it found it, whatever the
    rays meet; the calls made from a call entered at depth [d] are entered
    at depths above [d] and at most [maxSpecularDepth], so that the
    recursion is at most [maxSpecularDepth - d] calls deep; and a call
    entered at depth [d] makes, itself included, at most
    [2 ^ (maxSpecularDepth - d + 1) - 1] calls of [Surface_Li]. *)
Theorem Surface_Li_restores_depth (maxSpecularDepth : Z) :
  forall s specularDepth,
    let res := Surface_Li_depth maxSpecularDepth s specularDepth in
    fst res = specularDepth
    /\ hd_error (snd res) = Some specularDepth
    /\ (forall e, In e (tl (snd res)) ->
          (specularDepth < e <= maxSpecularDepth)%Z)
    /\ 1 <= length (snd res)
       <= 2 ^ S (Z.to_nat (maxSpecularDepth - specularDepth)) - 1.
Proof.
  fix IH 1. intros [|reflection transmission] d; cbn [Surface_Li_depth].
  - cbn. split; [reflexivity|]. split; [reflexivity|]. split.
    + intros e [].
    + pose proof (Nat.pow_nonzero 2 (Z.to_nat (maxSpecularDepth - d))
                    ltac:(lia)). lia.
  - cbv zeta. destruct (d <? maxSpecularDepth)%Z eqn:E.
    + apply Z.ltb_lt in E.
      assert (Hsub : forall sub,
                exists calls,
                  (match sub with
                   | Some s' => Surface_Li_depth maxSpecularDepth s' (d + 1)
                   | None => ((d + 1)%Z, [])
                   end) = ((d + 1)%Z, calls)
                  /\ (forall e, In e calls ->
                        (d + 1 <= e <= maxSpecularDepth)%Z)
                  /\ length calls
                     <= 2 ^ S (Z.to_nat (maxSpecularDepth - (d + 1))) - 1).
      { intros [s'|].
        - destruct (IH s' (d + 1)%Z) as (H1 & H2 & H3 & H4).
          destruct (Surface_Li_depth maxSpecularDepth s' (d + 1))
            as [d' calls]. cbn [fst snd] in *. subst d'.
          exists calls. split; [reflexivity|]. split; [|lia].
          destruct calls as [|c calls]; [discriminate H2|].
          cbn in H2. injection H2 as ->. cbn [tl] in H3.
          intros e [<- | He]; [lia|]. specialize (H3 e He). lia.
        - exists []. split; [reflexivity|]. split; [intros e []|].
          cbn [length]. lia. }
      destruct (Hsub reflection) as (callsR & -> & HR2 & HR3).
      destruct (Hsub transmission) as (callsT & -> & HT2 & HT3).
      cbn [fst snd hd_error tl]. split; [lia|]. split; [reflexivity|]. split.
      * intros e He.
        apply in_app_or in He. destruct He as [He | He];
          [specialize (HR2 e He) | specialize (HT2 e He)]; lia.
      * cbn [length]. rewrite length_app.
        replace (Z.to_nat (maxSpecularDepth - d))
          with (S (Z.to_nat (maxSpecularDepth - (d + 1)))) by lia.
        set (k := Z.to_nat (maxSpecularDepth - (d + 1))) in *.
        assert (Hk : 2 ^ S (S k) = 2 * 2 ^ S k) by reflexivity.
        pose proof (Nat.pow_nonzero 2 (S k) ltac:(lia)). lia.
    + cbn [fst snd length hd_error tl]. split; [lia|].
      split; [reflexivity|]. split.
      * intros e [].
      * pose proof (Nat.pow_nonzero 2 (Z.to_nat (maxSpecularDepth - d))
                      ltac:(lia)).
        cbn [Nat.pow]. lia.
Qed.

(** ** The marching loop of [RayMarch] *)

Section MarchingNotions.
Variable Exp : Spectrum -> Spectrum.
Variable Fadd : Q -> Q -> Q.
Variable sigma_t : Point -> Vector -> Spectrum.
Variable stepSize : Q.
Variable marchRay : Ray.
Variable t1 : Q.

(** The transmittance of one step of the march taken at parameter [t]. *)
Definition step_transmittance (t : Q) : Spectrum :=
  Exp (Sneg (Sscale (sigma_t (Ray_at marchRay t) (d marchRay)) stepSize)).

(** The parameter after [k] executions of [t0 += stepSize]. *)
Fixpoint advanced (k : nat) (t0 : Q) : Q :=
  match k with
  | O => t0
  | S k' => advanced k' (Fadd t0 stepSize)
  end.

(** The parameter and the transmittance after [k] steps without
    interaction, started at [t0] with transmittance [T]. *)
Fixpoint after_steps (k : nat) (t0 : Q) (T : Spectrum) : Q * Spectrum :=
  match k with
  | O => (t0, T)
  | S k' =>
      after_steps k' (Fadd t0 stepSize) (Smul T (step_transmittance t0))
  end.

(** The draws [quiet] are those of steps without interaction: each step
    starts before [t1], and its draw is not below one minus the luminance
    of the transmittance through the step. *)
Fixpoint quiet_steps (quiet : list Q) (t0 : Q) (T : Spectrum) : Prop :=
  match quiet with
  | [] => True
  | u :: rest =>
      (t0 < t1)%Q
      /\ (1 - Sy (Smul T (step_transmittance t0)) <= u)%Q
      /\ quiet_steps rest (Fadd t0 stepSize) (Smul T (step_transmittance t0))
  end.

End MarchingNotions.

Section MarchingProperties.
Variable Exp : Spectrum -> Spectrum.
Variable logf : Q -> Q.
Variable Fadd : Q -> Q -> Q.
Variable sigma_t sigma_s : Point -> Vector -> Spectrum.
Variable stepSize : Q.

Lemma march_loop_returns (marchRay : Ray) (t1 : Q) (draws : list Q) :
  forall n t0 loc T old,
    (t1 <= advanced Fadd stepSize n t0)%Q ->
    n < length draws ->
    march_loop Exp logf Fadd sigma_t stepSize draws marchRay t1 t0 loc T old
    <> None.
Proof.
  induction draws as [|u rest IH]; intros n t0 loc T old Hn Hlen.
  - simpl in Hlen. lia.
  - cbn [march_loop]. destruct (Qltb t0 t1) eqn:Et; [|discriminate].
    apply Qltb_lt in Et.
    destruct n as [|n].
    { exfalso. cbn [advanced] in Hn. apply (Qlt_not_le _ _ Et Hn). }
    cbn [advanced] in Hn. cbv zeta.
    match goal with |- context [if ?c then _ else _] => destruct c end.
    + destruct rest as [|u' rest']; [simpl in Hlen; lia | discriminate].
    + apply (IH n); [assumption | simpl in Hlen; lia].
Qed.

(** X18: the marching loop of [RayMarch] ends when the additions of
    [stepSize] carry the parameter to the end of the segment: if [n]
    executions of [t0 += stepSize], in float arithmetic, take the start
    parameter to [min(maxt, tIntersect)] or beyond, [RayMarch] returns
    after at most [n + 2] calls of [RandomFloat], whatever they draw. *)
Theorem RayMarch_returns (draws : list Q) (marchRay : Ray) (mint maxt : Q)
    (loc : Point) (tIntersect : Q) (n : nat) :
  (Qmin maxt tIntersect
   <= advanced Fadd stepSize n (Fadd mint (hd 0%Q draws * stepSize)))%Q ->
  n + 2 <= length draws ->
  RayMarch_loop Exp logf Fadd sigma_t sigma_s stepSize draws marchRay mint
    maxt loc tIntersect <> None.
Proof.
  intros Hn Hlen. destruct draws as [|u rest]; [simpl in Hlen; lia|].
  cbn [hd] in Hn. unfold RayMarch_loop.
  pose proof (@march_loop_returns marchRay (Qmin maxt tIntersect) rest n
                (Fadd mint (u * stepSize)) loc (Spectrum_of_float 1)
                (Spectrum_of_float 1) Hn) as H.
  destruct (march_loop Exp logf Fadd sigma_t stepSize rest marchRay
              (Qmin maxt tIntersect) (Fadd mint (u * stepSize)) loc
              (Spectrum_of_float 1) (Spectrum_of_float 1)) as [[[t0' loc'] T]|].
  - discriminate.
  - exfalso. apply H; [simpl in Hlen; lia | reflexivity].
Qed.

Lemma march_loop_stalls (marchRay : Ray) (t1 t0 : Q) (draws : list Q) :
  (t0 < t1)%Q -> Fadd t0 stepSize = t0 ->
  forall loc T old,
    quiet_steps Exp Fadd sigma_t stepSize marchRay t1 draws t0 T ->
    march_loop Exp logf Fadd sigma_t stepSize draws marchRay t1 t0 loc T old
    = None.
Proof.
  intros Ht Hstuck.
  induction draws as [|u rest IH]; intros loc T old Hq.
  - cbn [march_loop]. rewrite (proj2 (Qltb_lt _ _) Ht). reflexivity.
  - cbn [march_loop]. rewrite (proj2 (Qltb_lt _ _) Ht). cbv zeta.
    cbn [quiet_steps] in Hq. destruct Hq as (_ & Hu & Hrest).
    unfold step_transmittance in Hu, Hrest.
    rewrite (proj2 (Qltb_ge _ _) Hu). rewrite Hstuck in *.
    apply IH. exact Hrest.
Qed.

(** X22: the marching loop of [RayMarch] cannot be left by its test where
    the addition of [stepSize] is absorbed: if the start parameter lies
    before the end of the segment and the float sum of it and [stepSize]
    is the parameter itself, the loop goes on for as long as the draws
    start no interaction, and [RayMarch] is still running after any number
    of such calls of [RandomFloat]. *)
Theorem RayMarch_stalls (draw0 : Q) (draws : list Q) (marchRay : Ray)
    (mint maxt : Q) (loc : Point) (tIntersect : Q) :
  let t1 := Qmin maxt tIntersect in
  let t0 := Fadd mint (draw0 * stepSize) in
  (t0 < t1)%Q -> Fadd t0 stepSize = t0 ->
  quiet_steps Exp Fadd sigma_t stepSize marchRay t1 draws t0
    (Spectrum_of_float 1) ->
  RayMarch_loop Exp logf Fadd sigma_t sigma_s stepSize (draw0 :: draws)
    marchRay mint maxt loc tIntersect = None.
Proof.
  intros t1 t0 Ht Hstuck Hq. unfold RayMarch_loop. fold t1 t0.
  rewrite (@march_loop_stalls marchRay t1 t0 draws Ht Hstuck loc
             (Spectrum_of_float 1) (Spectrum_of_float 1) Hq).
  reflexivity.
Qed.

Lemma march_loop_interaction (marchRay : Ray) (t1 : Q) (u u' : Q)
    (rest : list Q) (quiet : list Q) :
  forall t0 loc T old,
    quiet_steps Exp Fadd sigma_t stepSize marchRay t1 quiet t0 T ->
    let tk := fst (after_steps Exp Fadd sigma_t stepSize marchRay
                     (length quiet) t0 T) in
    let Tk := snd (after_steps Exp Fadd sigma_t stepSize marchRay
                     (length quiet) t0 T) in
    (tk < t1)%Q ->
    (u < 1 - Sy (Smul Tk (step_transmittance Exp sigma_t stepSize marchRay
                            tk)))%Q ->
    let scale := (- logf u')%Q in
    let t' := Fadd tk ((scale - 1) * stepSize)%Q in
    march_loop Exp logf Fadd sigma_t stepSize (quiet ++ u :: u' :: rest)
      marchRay t1 t0 loc T old
    = Some (t', Ray_at marchRay t',
            Smul (match quiet with
                  | [] => old
                  | _ :: quiet' =>
                      snd (after_steps Exp Fadd sigma_t stepSize marchRay
                             (length quiet') t0 T)
                  end)
                 (Exp (Sneg (Sscale (sigma_t (Ray_at marchRay t')
                                       (d marchRay))
                               (scale * stepSize))))).
Proof.
  induction quiet as [|q quiet IH]; intros t0 loc T old Hq; cbv zeta.
  - cbn [length after_steps fst snd app]. intros Ht Hu.
    cbn [march_loop]. rewrite (proj2 (Qltb_lt _ _) Ht). cbv zeta.
    unfold step_transmittance in Hu. rewrite (proj2 (Qltb_lt _ _) Hu).
    reflexivity.
  - cbn [length after_steps app]. intros Ht Hu.
    destruct Hq as (Hq1 & Hq2 & Hq3).
    cbn [march_loop]. rewrite (proj2 (Qltb_lt _ _) Hq1). cbv zeta.
    unfold step_transmittance in Hq2. rewrite (proj2 (Qltb_ge _ _) Hq2).
    specialize (IH (Fadd t0 stepSize) (Ray_at marchRay t0)
                  (Smul T (Exp (Sneg (Sscale (sigma_t (Ray_at marchRay t0)
                                            (d marchRay)) stepSize))))
                  T Hq3).
    cbv zeta in IH. rewrite (IH Ht Hu).
    destruct quiet as [|q' quiet']; reflexivity.
Qed.

Lemma march_loop_quiet (marchRay : Ray) (t1 : Q) (rest : list Q)
    (quiet : list Q) :
  forall t0 loc T old,
    quiet_steps Exp Fadd sigma_t stepSize marchRay t1 quiet t0 T ->
    let tk := fst (after_steps Exp Fadd sigma_t stepSize marchRay
                     (length quiet) t0 T) in
    (t1 <= tk)%Q ->
    march_loop Exp logf Fadd sigma_t stepSize (quiet ++ rest) marchRay t1 t0
      loc T old
    = Some (tk,
            match quiet with
            | [] => loc
            | _ :: quiet' =>
                Ray_at marchRay
                  (fst (after_steps Exp Fadd sigma_t stepSize marchRay
                          (length quiet') t0 T))
            end,
            snd (after_steps Exp Fadd sigma_t stepSize marchRay
                   (length quiet) t0 T)).
Proof.
  induction quiet as [|q quiet IH]; intros t0 loc T old Hq; cbv zeta.
  - cbn [length after_steps fst snd app]. intro Ht.
    destruct rest as [|r rest']; cbn [march_loop];
      rewrite (proj2 (Qltb_ge _ _) Ht); reflexivity.
  - cbn [length after_steps app]. intro Ht.
    destruct Hq as (Hq1 & Hq2 & Hq3).
    cbn [march_loop]. rewrite (proj2 (Qltb_lt _ _) Hq1). cbv zeta.
    unfold step_transmittance in Hq2. rewrite (proj2 (Qltb_ge _ _) Hq2).
    specialize (IH (Fadd t0 stepSize) (Ray_at marchRay t0)
                  (Smul T (Exp (Sneg (Sscale (sigma_t (Ray_at marchRay t0)
                                            (d marchRay)) stepSize))))
                  T Hq3).
    cbv zeta in IH. rewrite (IH Ht).
    destruct quiet as [|q' quiet']; reflexivity.
Qed.

(** X19: what [RayMarch] reports after [k] steps without interaction, the
    parameter advancing by the float additions [t0 += ...].  If the loop
    is then left by its test, no interaction is reported and the
    transmittance is the one accumulated over the [k] steps.  If the next
    step draws an interaction, the point reported is the one at the
    resampled parameter, the interaction counts only when that parameter
    is before the end of the segment, and the transmittance is the one of
    the resampled partial step times the transmittance accumulated over
    the first [k - 1] steps: the step taken just before the interacting
    one is left out. *)
Theorem RayMarch_transmittance (draw0 : Q) (quiet rest : list Q)
    (marchRay : Ray) (mint maxt : Q) (loc : Point) (tIntersect : Q) :
  let t1 := Qmin maxt tIntersect in
  let t0 := Fadd mint (draw0 * stepSize)%Q in
  let one := Spectrum_of_float 1 in
  let after k := after_steps Exp Fadd sigma_t stepSize marchRay k t0 one in
  let k := length quiet in
  quiet_steps Exp Fadd sigma_t stepSize marchRay t1 quiet t0 one ->
  ((t1 <= fst (after k))%Q ->
   exists loc',
     RayMarch_loop Exp logf Fadd sigma_t sigma_s stepSize
       (draw0 :: quiet ++ rest) marchRay mint maxt loc tIntersect
     = Some (mkMarch loc' (snd (after k)) false
               (sigma_s loc' (d marchRay)) (sigma_t loc' (d marchRay))))
  /\ (forall u u',
        (fst (after k) < t1)%Q ->
        (u < 1 - Sy (Smul (snd (after k))
                       (step_transmittance Exp sigma_t stepSize marchRay
                          (fst (after k)))))%Q ->
        let scale := (- logf u')%Q in
        let t' := Fadd (fst (after k)) ((scale - 1) * stepSize)%Q in
        let loc' := Ray_at marchRay t' in
        RayMarch_loop Exp logf Fadd sigma_t sigma_s stepSize
          (draw0 :: quiet ++ u :: u' :: rest) marchRay mint maxt loc
          tIntersect
        = Some (mkMarch loc'
                  (Smul (snd (after (Nat.pred k)))
                     (Exp (Sneg (Sscale (sigma_t loc' (d marchRay))
                                   (scale * stepSize)))))
                  (Qltb t' t1)
                  (sigma_s loc' (d marchRay)) (sigma_t loc' (d marchRay)))).
Proof.
  intros t1 t0 one after k Hq. subst after k. cbv beta. split.
  - intro Ht. unfold RayMarch_loop. fold t1 t0 one.
    rewrite (@march_loop_quiet marchRay t1 rest quiet t0 loc one one Hq Ht).
    eexists. rewrite (proj2 (Qltb_ge _ _) Ht). reflexivity.
  - intros u u' Ht Hu scale t' loc'. unfold RayMarch_loop. fold t1 t0 one.
    rewrite (@march_loop_interaction marchRay t1 u u' rest quiet t0 loc one
               one Hq Ht Hu).
    destruct quiet as [|q quiet']; reflexivity.
Qed.

End MarchingProperties.

(** A medium that halves the light at every step of length 1, marched
    along the z axis up to a surface at parameter 3. *)
Definition halving (s : Spectrum) : Spectrum := Spectrum_of_float (1 # 2).
Definition unit_medium (p : Point) (w : Vector) : Spectrum :=
  Spectrum_of_float 1.
Definition upward : Ray := mkRay (mkV3 0 0 0) (mkV3 0 0 1).

Lemma RayMarch_returns_witness :
  exists m,
    RayMarch_loop halving (fun _ => (-1)%Q) float_add unit_medium unit_medium
      1 [0%Q; 1%Q; 1%Q; 1%Q; 1%Q] upward 0 10 (mkV3 0 0 0) 3 = Some m.
Proof.
  assert (Hn : (Qmin 10 3
                <= advanced float_add 1 3
                     (float_add 0 (hd 0%Q [0%Q; 1%Q; 1%Q; 1%Q; 1%Q] * 1)))%Q)
    by (vm_compute; discriminate).
  assert (Hlen : 3 + 2 <= length [0%Q; 1%Q; 1%Q; 1%Q; 1%Q]) by (simpl; lia).
  pose proof (@RayMarch_returns halving (fun _ => (-1)%Q) float_add
                unit_medium unit_medium 1 [0%Q; 1%Q; 1%Q; 1%Q; 1%Q] upward
                0 10 (mkV3 0 0 0) 3 3 Hn Hlen) as H.
  destruct (RayMarch_loop halving (fun _ => (-1)%Q) float_add unit_medium
              unit_medium 1 [0%Q; 1%Q; 1%Q; 1%Q; 1%Q] upward 0 10
              (mkV3 0 0 0) 3) as [m|].
  - exists m. reflexivity.
  - exfalso. apply H. reflexivity.
Defined.

(** A medium without extinction, marched from parameter 1024 with a step
    of 2^-17: the float nearest to 1024 + 2^-17 is 1024. *)
Definition clear (s : Spectrum) : Spectrum := Spectrum_of_float 1.
Definition no_medium (p : Point) (w : Vector) : Spectrum :=
  Spectrum_of_float 0.

Lemma RayMarch_stalls_witness :
  float_add 1024 (1 # 131072)%Q = 1024%Q
  /\ RayMarch_loop clear (fun _ => (-1)%Q) float_add no_medium no_medium
       (1 # 131072)%Q [0; 0; 1 # 2; 0; 1 # 2]%Q upward 1024 2048
       (mkV3 0 0 0) 4096 = None.
Proof.
  split; [vm_compute; reflexivity|].
  apply (@RayMarch_stalls clear (fun _ => (-1)%Q) float_add no_medium
           no_medium (1 # 131072)%Q 0 [0; 1 # 2; 0; 1 # 2]%Q upward
           1024 2048 (mkV3 0 0 0) 4096).
  - vm_compute. reflexivity.
  - vm_compute. reflexivity.
  - cbn [quiet_steps].
    repeat (split; [vm_compute; first [reflexivity | discriminate]|]).
    exact I.
Defined.

Lemma RayMarch_transmittance_witness :
  option_map march_transmittance
    (RayMarch_loop halving (fun _ => (-1)%Q) float_add unit_medium
       unit_medium 1 [0%Q; 1%Q; 0%Q; 0%Q] upward 0 10 (mkV3 0 0 0) 3)
  = Some (Smul (Spectrum_of_float 1) (Spectrum_of_float (1 # 2))).
Proof.
  assert (Hq : quiet_steps halving float_add unit_medium 1 upward (Qmin 10 3)
                 [1%Q] (float_add 0 (0 * 1)) (Spectrum_of_float 1)).
  { cbn [quiet_steps]. split; [vm_compute; reflexivity|].
    split; [vm_compute; discriminate | exact I]. }
  destruct (@RayMarch_transmittance halving (fun _ => (-1)%Q) float_add
              unit_medium unit_medium 1 0 [1%Q] [] upward 0 10 (mkV3 0 0 0)
              3 Hq) as [_ H].
  specialize (H 0%Q 0%Q).
  change ([1%Q] ++ [0%Q; 0%Q]) with [1%Q; 0%Q; 0%Q] in H.
  rewrite H.
  - reflexivity.
  - vm_compute. reflexivity.
  - vm_compute. reflexivity.
Defined.

(** Fifty indirect photons wanted, final gather on, and fifty shots each
    of which meets a diffuse surface twice. *)
Definition fifty_indirect : Config := mkConfig 0 50 0 1 1 true.
Definition fifty_shots : list Shot := repeat indirect_shot 50.
Definition dense_run : Outcome * State :=
  Eval vm_compute in
    Surface_Preprocess (heap := sorting_heap) fifty_indirect vacuum
      fifty_shots Surface_Init.

Lemma dense_run_eq :
  Surface_Preprocess (heap := sorting_heap) fifty_indirect vacuum fifty_shots
    Surface_Init = (Completed, snd dense_run).
Proof. vm_compute. reflexivity. Qed.

Lemma gather_search_after_preprocess_witness :
  exists fuel proc,
    Surface_Li_search (heap := sorting_heap) fifty_indirect (snd dense_run) 1
      (mkV3 1 0 0) fuel = Some (Found proc)
    /\ foundPhotons proc = 50.
Proof.
  assert (Hfg : finalGather fifty_indirect = true) by reflexivity.
  assert (Hns : 0 < 1) by lia.
  assert (Htarget : nIndirSamplePhotons <= nIndirectPhotons fifty_indirect)
    by (vm_compute; lia).
  assert (Hpos : (0 < cfg_maxDistSquared fifty_indirect)%Q) by reflexivity.
  destruct (@gather_search_after_preprocess sorting_heap fifty_indirect
              vacuum fifty_shots (snd dense_run) 1 (mkV3 1 0 0) dense_run_eq
              Hfg Hns Htarget Hpos) as (j & proc & Hrun & Hfound & _).
  exists (S j), proc. split; [apply Hrun; lia | exact Hfound].
Defined.
